(** * sjtu::list — a doubly-linked list with sentinel nodes (src/list.hpp)

    The container is embedded over an explicit store: a heap of nodes
    addressed by pointers, and a table of list objects addressed by their
    identity ([this]).  Every member function of [list], [list::iterator]
    and [list::const_iterator] is transcribed statement by statement into a
    small state-and-error monad whose outcomes are a normal return, a thrown
    exception (with the state at the throw), undefined behaviour (a null,
    dangling or uninitialised access) or exhausted loop fuel. *)

From stdpp Require Import gmap list fin_maps.
From Stdlib Require Import ZArith Lia Permutation Sorted.

Set Default Proof Using "Type".
Open Scope Z_scope.
#[local] Set Warnings "-clear-no-such-hyp".

(** ** Pointers, nodes, list objects *)

(** A [node*] is a nullable address; [None] is [nullptr]. *)
Abbreviation addr := positive (only parsing).
Abbreviation ptr := (option positive) (only parsing).
(** The identity of a list object is the address it lives at. *)
Abbreviation lid := positive (only parsing).

(** The element type with the two operators the container uses:
    [operator<] (sort, merge) and [operator==] (unique). *)
Class Elem (T : Type) := {
  elt_lt : T → T → bool;
  elt_eq : T → T → bool
}.

(** [class node]: [data] is [None] while the storage holds no constructed
    value (the two sentinels are raw allocations, lines 259-260). *)
Record node (T : Type) := Node {
  data : option T;
  prev : ptr;
  next : ptr
}.
Arguments Node {T} _ _ _.
Arguments data {T} _.
Arguments prev {T} _.
Arguments next {T} _.

(** The fields of a [list] object.  [list_size] is a [size_t]: a 64-bit
    unsigned integer, kept in [0, 2^64). *)
Record list_obj := ListObj {
  head : ptr;
  tail : ptr;
  list_size : Z
}.

Definition size_t_mod : Z := 2 ^ 64.
Definition wrap (z : Z) : Z := z mod size_t_mod.

Record state (T : Type) := State {
  heap : gmap positive (node T);
  objs : gmap positive list_obj
}.
Arguments State {T} _ _.
Arguments heap {T} _.
Arguments objs {T} _.

(** The two exception classes of exceptions.hpp that list.hpp throws. *)
Inductive exn := invalid_iterator | container_is_empty.

(** ** The monad *)

Inductive outcome (T A : Type) : Type :=
| Ok (a : A) (s : state T)
| Throw (e : exn) (s : state T)
| UB
| OutOfFuel.
Arguments Ok {T A} _ _.
Arguments Throw {T A} _ _.
Arguments UB {T A}.
Arguments OutOfFuel {T A}.

Definition M (T A : Type) : Type := state T → outcome T A.

Definition ret {T A} (a : A) : M T A := λ s, Ok a s.

Definition bind {T A B} (m : M T A) (k : A → M T B) : M T B :=
  λ s, match m s with
       | Ok a s' => k a s'
       | Throw e s' => Throw e s'
       | UB => UB
       | OutOfFuel => OutOfFuel
       end.

Definition throw {T A} (e : exn) : M T A := λ s, Throw e s.
Definition undefined {T A} : M T A := λ _, UB.
Definition out_of_fuel {T A} : M T A := λ _, OutOfFuel.

Notation "'let*' x := m 'in' k" := (bind m (λ x, k))
  (at level 10, x name, m at level 100, k at level 200, only parsing).
Notation "'run' m 'then' k" := (bind m (λ _, k))
  (at level 10, m at level 100, k at level 200, only parsing).

Section Memory.
Context {T : Type}.

(** [p->...]: reading through a pointer needs a live node. *)
Definition load_node (p : ptr) : M T (node T) :=
  λ s, match p with
       | Some a => match heap s !! a with
                   | Some nd => Ok nd s
                   | None => UB
                   end
       | None => UB
       end.

Definition store_node (p : ptr) (f : node T → node T) : M T unit :=
  λ s, match p with
       | Some a => match heap s !! a with
                   | Some nd => Ok tt (State (<[a := f nd]> (heap s)) (objs s))
                   | None => UB
                   end
       | None => UB
       end.

Definition store_prev (p v : ptr) : M T unit :=
  store_node p (λ nd, Node (data nd) v (next nd)).
Definition store_next (p v : ptr) : M T unit :=
  store_node p (λ nd, Node (data nd) (prev nd) v).

(** Reading and writing the value a [T&] refers to. *)
Definition load_data (r : positive) : M T T :=
  let* nd := load_node (Some r) in
  match data nd with
  | Some v => ret v
  | None => undefined
  end.
Definition store_data (r : positive) (v : T) : M T unit :=
  store_node (Some r) (λ nd, Node (Some v) (prev nd) (next nd)).

(** Binding a reference to [p->data]. *)
Definition ref_data (p : ptr) : M T positive :=
  run load_node p then
  match p with
  | Some a => ret a
  | None => undefined
  end.

(** The allocator hands out an address that is not in use; running out of
    memory (std::bad_alloc) is not modelled. *)
Definition alloc (h : gmap positive (node T)) : positive := fresh (dom h).

(** [::operator new(sizeof(node))]: raw storage, no value constructed. *)
Definition new_raw : M T ptr :=
  λ s, let a := alloc (heap s) in
       Ok (Some a) (State (<[a := Node None None None]> (heap s)) (objs s)).

(** [new node(value)], line 29. *)
Definition new_node (value : T) : M T ptr :=
  λ s, let a := alloc (heap s) in
       Ok (Some a) (State (<[a := Node (Some value) None None]> (heap s)) (objs s)).

(** [delete p] / [::operator delete(p)]. *)
Definition delete_node (p : ptr) : M T unit :=
  λ s, match p with
       | Some a => match heap s !! a with
                   | Some _ => Ok tt (State (delete a (heap s)) (objs s))
                   | None => UB
                   end
       | None => Ok tt s
       end.

(** Access to the fields of the list object at [c]. *)
Definition load_obj (c : option positive) : M T list_obj :=
  λ s, match c with
       | Some i => match objs s !! i with
                   | Some o => Ok o s
                   | None => UB
                   end
       | None => UB
       end.

Definition store_obj (i : positive) (o : list_obj) : M T unit :=
  λ s, Ok tt (State (heap s) (<[i := o]> (objs s))).
End Memory.

Definition ptr_eqb (p q : ptr) : bool := bool_decide (p = q).

(** ** Iterators (lines 63-252)

    Both iterator classes are a (node, container) pair of raw pointers. *)

Record iterator := Iter {
  current : ptr;
  container : option positive
}.

Record const_iterator := CIter {
  ccurrent : ptr;
  ccontainer : option positive
}.

Module iterator.
Section Ops.
Context {T : Type}.

(** [current == nullptr || current == container->tail] *)
Definition at_end (it : iterator) : M T bool :=
  match current it with
  | None => ret true
  | Some _ =>
      let* c := load_obj (container it) in
      ret (ptr_eqb (current it) (tail c))
  end.

(** [current == nullptr || current == container->head->next] *)
Definition at_begin (it : iterator) : M T bool :=
  match current it with
  | None => ret true
  | Some _ =>
      let* c := load_obj (container it) in
      let* h := load_node (head c) in
      ret (ptr_eqb (current it) (next h))
  end.

(** [current == nullptr || current == container->head
     || current == container->tail] *)
Definition at_sentinel (it : iterator) : M T bool :=
  match current it with
  | None => ret true
  | Some _ =>
      let* c := load_obj (container it) in
      if ptr_eqb (current it) (head c) then ret true
      else
        let* c' := load_obj (container it) in
        ret (ptr_eqb (current it) (tail c'))
  end.

(** [iter++] (line 77): returns the old value and the updated [*this]. *)
Definition postinc (it : iterator) : M T (iterator * iterator) :=
  let* bad := at_end it in
  if bad then throw invalid_iterator
  else
    let temp := it in
    let* nd := load_node (current it) in
    ret (temp, Iter (next nd) (container it)).

(** [++iter] (line 88): returns the updated [*this]. *)
Definition preinc (it : iterator) : M T iterator :=
  let* bad := at_end it in
  if bad then throw invalid_iterator
  else
    let* nd := load_node (current it) in
    ret (Iter (next nd) (container it)).

(** [iter--] (line 98). *)
Definition postdec (it : iterator) : M T (iterator * iterator) :=
  let* bad := at_begin it in
  if bad then throw invalid_iterator
  else
    let temp := it in
    let* nd := load_node (current it) in
    ret (temp, Iter (prev nd) (container it)).

(** [--iter] (line 109). *)
Definition predec (it : iterator) : M T iterator :=
  let* bad := at_begin it in
  if bad then throw invalid_iterator
  else
    let* nd := load_node (current it) in
    ret (Iter (prev nd) (container it)).

(** [*it] (line 120): a reference to [current->data]. *)
Definition deref (it : iterator) : M T positive :=
  let* bad := at_sentinel it in
  if bad then throw invalid_iterator
  else ref_data (current it).

(** [it->field] (line 130): the address of [current->data]. *)
Definition arrow (it : iterator) : M T positive :=
  let* bad := at_sentinel it in
  if bad then throw invalid_iterator
  else ref_data (current it).
End Ops.

(** Comparison is by node identity only (lines 139-153). *)
Definition eq (a b : iterator) : bool := ptr_eqb (current a) (current b).
Definition eq_const (a : iterator) (b : const_iterator) : bool :=
  ptr_eqb (current a) (ccurrent b).
Definition neq (a b : iterator) : bool := negb (ptr_eqb (current a) (current b)).
Definition neq_const (a : iterator) (b : const_iterator) : bool :=
  negb (ptr_eqb (current a) (ccurrent b)).
End iterator.

Module const_iterator.
(** [const_iterator(const iterator &it)], line 170. *)
Definition of_iterator (it : iterator) : const_iterator :=
  CIter (current it) (container it).

Section Ops.
Context {T : Type}.

Definition at_end (it : const_iterator) : M T bool :=
  match ccurrent it with
  | None => ret true
  | Some _ =>
      let* c := load_obj (ccontainer it) in
      ret (ptr_eqb (ccurrent it) (tail c))
  end.

Definition at_begin (it : const_iterator) : M T bool :=
  match ccurrent it with
  | None => ret true
  | Some _ =>
      let* c := load_obj (ccontainer it) in
      let* h := load_node (head c) in
      ret (ptr_eqb (ccurrent it) (next h))
  end.

Definition at_sentinel (it : const_iterator) : M T bool :=
  match ccurrent it with
  | None => ret true
  | Some _ =>
      let* c := load_obj (ccontainer it) in
      if ptr_eqb (ccurrent it) (head c) then ret true
      else
        let* c' := load_obj (ccontainer it) in
        ret (ptr_eqb (ccurrent it) (tail c'))
  end.

(** [iter++] (line 175). *)
Definition postinc (it : const_iterator) : M T (const_iterator * const_iterator) :=
  let* bad := at_end it in
  if bad then throw invalid_iterator
  else
    let temp := it in
    let* nd := load_node (ccurrent it) in
    ret (temp, CIter (next nd) (ccontainer it)).

(** [++iter] (line 186). *)
Definition preinc (it : const_iterator) : M T const_iterator :=
  let* bad := at_end it in
  if bad then throw invalid_iterator
  else
    let* nd := load_node (ccurrent it) in
    ret (CIter (next nd) (ccontainer it)).

(** [iter--] (line 196). *)
Definition postdec (it : const_iterator) : M T (const_iterator * const_iterator) :=
  let* bad := at_begin it in
  if bad then throw invalid_iterator
  else
    let temp := it in
    let* nd := load_node (ccurrent it) in
    ret (temp, CIter (prev nd) (ccontainer it)).

(** [--iter] (line 207). *)
Definition predec (it : const_iterator) : M T const_iterator :=
  let* bad := at_begin it in
  if bad then throw invalid_iterator
  else
    let* nd := load_node (ccurrent it) in
    ret (CIter (prev nd) (ccontainer it)).

(** [*it] (line 218). *)
Definition deref (it : const_iterator) : M T positive :=
  let* bad := at_sentinel it in
  if bad then throw invalid_iterator
  else ref_data (ccurrent it).

(** [it->field] (line 228). *)
Definition arrow (it : const_iterator) : M T positive :=
  let* bad := at_sentinel it in
  if bad then throw invalid_iterator
  else ref_data (ccurrent it).
End Ops.

Definition eq (a b : const_iterator) : bool := ptr_eqb (ccurrent a) (ccurrent b).
Definition eq_iter (a : const_iterator) (b : iterator) : bool :=
  ptr_eqb (ccurrent a) (current b).
Definition neq (a b : const_iterator) : bool := negb (ptr_eqb (ccurrent a) (ccurrent b)).
Definition neq_iter (a : const_iterator) (b : iterator) : bool :=
  negb (ptr_eqb (ccurrent a) (current b)).
End const_iterator.

(** ** The sort collaborator

    [sjtu::sort(first, last, cmp)] comes from algorithm.hpp, which is not
    part of the sources; it is taken as a parameter.  It rearranges a
    contiguous buffer in place, so the buffer keeps its length. *)
Record sorter (T : Type) := Sorter {
  sort_buf : (T → T → bool) → list T → list T;
  sort_buf_length : ∀ cmp l, length (sort_buf cmp l) = length l
}.
Arguments sort_buf {T} _ _ _.
Arguments sort_buf_length {T} _ _ _.

(** ** The container (lines 16-530) *)

Module sjtu.
Section List.
Context {T : Type} {E : Elem T}.

(** [node *insert(node *pos, node *cur)], line 42. *)
Definition insert_node (this : lid) (pos cur : ptr) : M T ptr :=
  let* p := load_node pos in
  run store_prev cur (prev p) then
  run store_next cur pos then
  let* p' := load_node pos in
  run store_next (prev p') cur then
  run store_prev pos cur then
  let* o := load_obj (Some this) in
  run store_obj this (ListObj (head o) (tail o) (wrap (list_size o + 1))) then
  ret cur.

(** [node *erase(node *pos)], line 54. *)
Definition erase_node (this : lid) (pos : ptr) : M T ptr :=
  let* p := load_node pos in
  run store_next (prev p) (next p) then
  let* p' := load_node pos in
  run store_prev (next p') (prev p') then
  let* o := load_obj (Some this) in
  run store_obj this (ListObj (head o) (tail o) (wrap (list_size o - 1))) then
  ret pos.

(** [list()], line 257. *)
Definition ctor (this : lid) : M T unit :=
  let* h := new_raw in
  let* t := new_raw in
  run store_prev h None then
  run store_next h t then
  run store_prev t h then
  run store_next t None then
  store_obj this (ListObj h t 0).

Definition empty (this : lid) : M T bool :=
  let* o := load_obj (Some this) in
  ret (list_size o =? 0).

Definition size (this : lid) : M T Z :=
  let* o := load_obj (Some this) in
  ret (list_size o).

(** [front()] and [back()] return a reference to the stored value. *)
Definition front (this : lid) : M T positive :=
  let* e := empty this in
  if e then throw container_is_empty
  else
    let* o := load_obj (Some this) in
    let* h := load_node (head o) in
    ref_data (next h).

Definition back (this : lid) : M T positive :=
  let* e := empty this in
  if e then throw container_is_empty
  else
    let* o := load_obj (Some this) in
    let* t := load_node (tail o) in
    ref_data (prev t).

Definition begin (this : lid) : M T iterator :=
  let* o := load_obj (Some this) in
  let* h := load_node (head o) in
  ret (Iter (next h) (Some this)).

Definition cbegin (this : lid) : M T const_iterator :=
  let* o := load_obj (Some this) in
  let* h := load_node (head o) in
  ret (CIter (next h) (Some this)).

Definition end_ (this : lid) : M T iterator :=
  let* o := load_obj (Some this) in
  ret (Iter (tail o) (Some this)).

Definition cend (this : lid) : M T const_iterator :=
  let* o := load_obj (Some this) in
  ret (CIter (tail o) (Some this)).

(** [insert(iterator pos, const T &value)], line 357. *)
Definition insert (this : lid) (pos : iterator) (value : T) : M T iterator :=
  if bool_decide (container pos ≠ Some this) then throw invalid_iterator
  else
    let* new_node := new_node value in
    let pos_node := current pos in
    run insert_node this pos_node new_node then
    ret (Iter new_node (Some this)).

(** [erase(iterator pos)], line 371. *)
Definition erase (this : lid) (pos : iterator) : M T iterator :=
  let* e := empty this in
  if e then throw container_is_empty
  else
    let* bad :=
      (if bool_decide (container pos ≠ Some this) then ret true
       else let* en := end_ this in ret (iterator.eq pos en)) in
    if bad then throw invalid_iterator
    else
      let pos_node := current pos in
      let* p := load_node pos_node in
      let next_node := next p in
      run erase_node this pos_node then
      run delete_node pos_node then
      ret (Iter next_node (Some this)).

(** [push_back], line 386. *)
Definition push_back (this : lid) (value : T) : M T unit :=
  let* new_node := new_node value in
  let* o := load_obj (Some this) in
  run insert_node this (tail o) new_node then
  ret tt.

(** [pop_back], line 394. *)
Definition pop_back (this : lid) : M T unit :=
  let* e := empty this in
  if e then throw container_is_empty
  else
    let* o := load_obj (Some this) in
    let* t := load_node (tail o) in
    let last_node := prev t in
    run erase_node this last_node then
    delete_node last_node.

(** [push_front], line 403. *)
Definition push_front (this : lid) (value : T) : M T unit :=
  let* new_node := new_node value in
  let* o := load_obj (Some this) in
  let* h := load_node (head o) in
  run insert_node this (next h) new_node then
  ret tt.

(** [pop_front], line 411. *)
Definition pop_front (this : lid) : M T unit :=
  let* e := empty this in
  if e then throw container_is_empty
  else
    let* o := load_obj (Some this) in
    let* h := load_node (head o) in
    let first_node := next h in
    run erase_node this first_node then
    delete_node first_node.

(** [clear], line 347: [while (!empty()) pop_front();] *)
Fixpoint clear (fuel : nat) (this : lid) : M T unit :=
  match fuel with
  | O => out_of_fuel
  | S fuel' =>
      let* e := empty this in
      if e then ret tt
      else run pop_front this then clear fuel' this
  end.

(** The loop shared by the copy constructor and the assignment operator:
    [for (it = other.cbegin(); it != other.cend(); ++it) push_back( *it);] *)
Fixpoint copy_loop (fuel : nat) (this other : lid) (it : const_iterator)
  : M T unit :=
  match fuel with
  | O => out_of_fuel
  | S fuel' =>
      let* en := cend other in
      if const_iterator.neq it en then
        let* r := const_iterator.deref it in
        let* v := load_data r in
        run push_back this v then
        let* it' := const_iterator.preinc it in
        copy_loop fuel' this other it'
      else ret tt
  end.

(** [list(const list &other)], line 267. *)
Definition copy_ctor (fuel : nat) (this other : lid) : M T unit :=
  run ctor this then
  let* it := cbegin other in
  copy_loop fuel this other it.

(** [operator=], line 292. *)
Definition assign (fuel : nat) (this other : lid) : M T unit :=
  if bool_decide (this = other) then ret tt
  else
    run clear fuel this then
    let* it := cbegin other in
    copy_loop fuel this other it.

(** [~list()], line 284. *)
Definition dtor (fuel : nat) (this : lid) : M T unit :=
  run clear fuel this then
  let* o := load_obj (Some this) in
  run delete_node (head o) then
  let* o' := load_obj (Some this) in
  run delete_node (tail o') then
  λ s, Ok tt (State (heap s) (delete this (objs s))).

(** *** sort, line 420 *)

(** First loop: [for (it = begin(); it != end(); ++it)
    { new (&arr[i]) T( *it); i++; }].  The buffer has [n] raw slots; the
    slots constructed so far are [arr], and slot [i] is the next one.
    Constructing outside the [n] slots is undefined. *)
Fixpoint sort_fill (fuel : nat) (this : lid) (n : nat) (it : iterator)
    (arr : list T) (i : nat) : M T (list T) :=
  match fuel with
  | O => out_of_fuel
  | S fuel' =>
      let* en := end_ this in
      if iterator.neq it en then
        let* r := iterator.deref it in
        let* v := load_data r in
        if bool_decide (i = length arr ∧ (i < n)%nat) then
          let* it' := iterator.preinc it in
          sort_fill fuel' this n it' (arr ++ [v]) (S i)
        else undefined
      else ret arr
  end.

(** Second loop: [for (it = begin(); it != end(); ++it)
    { *it = arr[i]; arr[i].~T(); i++; }]. *)
Fixpoint sort_write_back (fuel : nat) (this : lid) (it : iterator)
    (arr : list T) (i : nat) : M T unit :=
  match fuel with
  | O => out_of_fuel
  | S fuel' =>
      let* en := end_ this in
      if iterator.neq it en then
        let* r := iterator.deref it in
        match arr !! i with
        | Some v =>
            run store_data r v then
            let* it' := iterator.preinc it in
            sort_write_back fuel' this it' arr (S i)
        | None => undefined
        end
      else ret tt
  end.

(** [sjtu::sort(arr, arr + n, cmp)] reads all [n] slots, so all of them
    must hold a constructed value. *)
Definition sort (S : sorter T) (fuel : nat) (this : lid) : M T unit :=
  let* sz := size this in
  if sz <=? 1 then ret tt
  else
    let* n := size this in
    let* it := begin this in
    let* arr := sort_fill fuel this (Z.to_nat n) it [] 0%nat in
    if bool_decide (length arr = Z.to_nat n) then
      let arr' := sort_buf S (λ a b, elt_lt a b) arr in
      let* it' := begin this in
      sort_write_back fuel this it' arr' 0%nat
    else undefined.

(** *** merge, line 458 *)

(** [while (this_ptr != tail && other_ptr != other.tail)] *)
Fixpoint merge_loop (fuel : nat) (this other : lid) (this_ptr other_ptr : ptr)
  : M T (ptr * ptr) :=
  match fuel with
  | O => out_of_fuel
  | S fuel' =>
      let* o := load_obj (Some this) in
      let* continue :=
        (if negb (ptr_eqb this_ptr (tail o)) then
           let* o2 := load_obj (Some other) in
           ret (negb (ptr_eqb other_ptr (tail o2)))
         else ret false) in
      if continue then
        let* on := load_node other_ptr in
        let* tn := load_node this_ptr in
        match data on, data tn with
        | Some ov, Some tv =>
            if elt_lt ov tv then
              let next_other := next on in
              run erase_node other other_ptr then
              run insert_node this this_ptr other_ptr then
              merge_loop fuel' this other this_ptr next_other
            else
              merge_loop fuel' this other (next tn) other_ptr
        | _, _ => undefined
        end
      else ret (this_ptr, other_ptr)
  end.

(** [while (other_ptr != other.tail)] *)
Fixpoint merge_drain (fuel : nat) (this other : lid) (other_ptr : ptr)
  : M T unit :=
  match fuel with
  | O => out_of_fuel
  | S fuel' =>
      let* o2 := load_obj (Some other) in
      if negb (ptr_eqb other_ptr (tail o2)) then
        let* on := load_node other_ptr in
        let next_other := next on in
        run erase_node other other_ptr then
        let* o := load_obj (Some this) in
        run insert_node this (tail o) other_ptr then
        merge_drain fuel' this other next_other
      else ret tt
  end.

Definition merge (fuel : nat) (this other : lid) : M T unit :=
  if bool_decide (this = other) then ret tt
  else
    let* o := load_obj (Some this) in
    let* h := load_node (head o) in
    let this_ptr := next h in
    let* o2 := load_obj (Some other) in
    let* h2 := load_node (head o2) in
    let other_ptr := next h2 in
    let* ptrs := merge_loop fuel this other this_ptr other_ptr in
    merge_drain fuel this other (snd ptrs).

(** *** reverse, line 493 *)

(** [while (current != nullptr)] *)
Fixpoint reverse_loop (fuel : nat) (current : ptr) : M T unit :=
  match fuel with
  | O => out_of_fuel
  | S fuel' =>
      match current with
      | None => ret tt
      | Some _ =>
          let* c := load_node current in
          let temp := next c in
          run store_next current (prev c) then
          run store_prev current temp then
          reverse_loop fuel' temp
      end
  end.

Definition reverse (fuel : nat) (this : lid) : M T unit :=
  let* sz := size this in
  if sz <=? 1 then ret tt
  else
    let* o := load_obj (Some this) in
    run reverse_loop fuel (head o) then
    let* o' := load_obj (Some this) in
    let temp := head o' in
    store_obj this (ListObj (tail o') temp (list_size o')).

(** *** unique, line 514 *)

(** [while (next_it != end())] *)
Fixpoint unique_loop (fuel : nat) (this : lid) (it next_it : iterator)
  : M T unit :=
  match fuel with
  | O => out_of_fuel
  | S fuel' =>
      let* en := end_ this in
      if iterator.neq next_it en then
        let* r1 := iterator.deref it in
        let* v1 := load_data r1 in
        let* r2 := iterator.deref next_it in
        let* v2 := load_data r2 in
        if elt_eq v1 v2 then
          let* next_it' := erase this next_it in
          unique_loop fuel' this it next_it'
        else
          let* it' := iterator.preinc it in
          let* next_it' := iterator.preinc next_it in
          unique_loop fuel' this it' next_it'
      else ret tt
  end.

Definition unique (fuel : nat) (this : lid) : M T unit :=
  let* sz := size this in
  if sz <=? 1 then ret tt
  else
    let* it := begin this in
    let next_it := it in
    let* next_it' := iterator.preinc next_it in
    unique_loop fuel this it next_it'.
End List.
End sjtu.

(** ** Observing a list through its links *)

Section Observe.
Context {T : Type}.

(** The nodes met by following [next] from [p] until [stop]. *)
Fixpoint walk (fuel : nat) (h : gmap positive (node T)) (p stop : ptr)
  : option (list positive) :=
  match fuel with
  | O => None
  | S fuel' =>
      if ptr_eqb p stop then Some []
      else
        match p with
        | None => None
        | Some a =>
            match h !! a with
            | Some nd =>
                match walk fuel' h (next nd) stop with
                | Some rest => Some (a :: rest)
                | None => None
                end
            | None => None
            end
        end
  end.

(** The value-holding nodes of the list at [i]: those strictly between
    the head sentinel and the tail sentinel.  No chain of distinct nodes
    is longer than the heap, which bounds the walk. *)
Definition nodes_of (s : state T) (i : lid) : option (list positive) :=
  match objs s !! i with
  | Some o =>
      match head o with
      | Some hd =>
          match heap s !! hd with
          | Some hn => walk (base.size (heap s)) (heap s) (next hn) (tail o)
          | None => None
          end
      | None => None
      end
  | None => None
  end.

Definition value_at (s : state T) (a : positive) : option T :=
  match heap s !! a with
  | Some nd => data nd
  | None => None
  end.

(** The sequence of stored values, front to back. *)
Definition values_of (s : state T) (i : lid) : option (list T) :=
  match nodes_of s i with
  | Some ns => mapM (value_at s) ns
  | None => None
  end.

Definition size_of (s : state T) (i : lid) : option Z :=
  match objs s !! i with
  | Some o => Some (list_size o)
  | None => None
  end.
End Observe.

Definition empty_state {T} : state T := State ∅ ∅.

(** Integers as the element type, for the worked examples. *)
#[export] Instance Z_elem : Elem Z := {| elt_lt := Z.ltb; elt_eq := Z.eqb |}.

(** ** The representation invariant *)

Section Rep.
Context {T : Type}.
Implicit Types (h : gmap positive (node T)) (s : state T).

Definition hd_ptr (ps : list positive) (nx : ptr) : ptr :=
  match ps with
  | [] => nx
  | p :: _ => Some p
  end.

Fixpoint last_ptr (ps : list positive) (pv : ptr) : ptr :=
  match ps with
  | [] => pv
  | p :: r => last_ptr r (Some p)
  end.

(** A doubly-linked segment: the nodes [ps] in order, the first one
    pointing back to [pv], the last one pointing on to [nx]. *)
Fixpoint dseg h (pv : ptr) (ps : list positive) (nx : ptr) : Prop :=
  match ps with
  | [] => True
  | p :: r =>
      (∃ nd, h !! p = Some nd ∧ prev nd = pv ∧ next nd = hd_ptr r nx)
      ∧ dseg h (Some p) r nx
  end.

(** The values held by the nodes. *)
Definition holds h (cs : list (positive * T)) : Prop :=
  Forall (λ c, ∃ nd, h !! c.1 = Some nd ∧ data nd = Some c.2) cs.

(** The abstract view of one list: the two sentinels and, in between,
    the value nodes with the value each one holds. *)
Record alist := AList {
  a_head : positive;
  a_cells : list (positive * T);
  a_tail : positive
}.

Definition chain (al : alist) : list positive :=
  a_head al :: (a_cells al).*1 ++ [a_tail al].

Definition is_list s (i : lid) (al : alist) : Prop :=
  ∃ o, objs s !! i = Some o
     ∧ head o = Some (a_head al)
     ∧ tail o = Some (a_tail al)
     ∧ list_size o = Z.of_nat (length (a_cells al))
     ∧ Z.of_nat (length (a_cells al)) < size_t_mod
     ∧ NoDup (chain al)
     ∧ dseg (heap s) None (chain al) None
     ∧ holds (heap s) (a_cells al).

(** The whole store: every list object is represented, and no node
    belongs to two lists. *)
Record rep (a : gmap positive alist) s : Prop := Rep {
  rep_dom : ∀ i, is_Some (objs s !! i) → is_Some (a !! i);
  rep_list : ∀ i al, a !! i = Some al → is_list s i al;
  rep_disj : ∀ i j ai aj p,
      i ≠ j → a !! i = Some ai → a !! j = Some aj →
      p ∈ chain ai → p ∉ chain aj
}.

Definition wf s : Prop := ∃ a, rep a s.

(** A node that no list owns. *)
Definition free_in (a : gmap positive alist) (p : positive) : Prop :=
  ∀ j aj, a !! j = Some aj → p ∉ chain aj.

(** Heaps that differ in links only. *)
Definition same_data h h' : Prop :=
  ∀ q, data <$> (h' !! q) = data <$> (h !! q).

Lemma same_data_refl h : same_data h h.
Proof. by intros q. Qed.

Lemma same_data_trans h1 h2 h3 :
  same_data h1 h2 → same_data h2 h3 → same_data h1 h3.
Proof. intros H12 H23 q. by rewrite H23, H12. Qed.

Lemma same_data_dom h h' : same_data h h' → dom h' = dom h.
Proof.
  intros Hd. apply set_eq. intros q. rewrite !elem_of_dom.
  specialize (Hd q).
  destruct (h' !! q), (h !! q); simpl in *; try done;
    split; intros [? ?]; done.
Qed.

Lemma same_data_insert h a nd nd' :
  h !! a = Some nd → data nd' = data nd → same_data h (<[a := nd']> h).
Proof.
  intros Ha Hd q. destruct (decide (a = q)) as [<-|Hne].
  - rewrite lookup_insert_eq, Ha. simpl. by rewrite Hd.
  - by rewrite lookup_insert_ne.
Qed.

Lemma holds_same_data h h' cs : same_data h h' → holds h cs → holds h' cs.
Proof.
  intros Hd Hh. unfold holds. eapply Forall_impl; [exact Hh|].
  intros [p v] (nd & Hp & Hv).
  simpl in *. specialize (Hd p). rewrite Hp in Hd. simpl in Hd.
  destruct (h' !! p) as [nd'|]; [|done]. simpl in Hd.
  exists nd'. split; [done|]. congruence.
Qed.

Lemma holds_frame h h' cs :
  (∀ p, p ∈ cs.*1 → h' !! p = h !! p) → holds h cs → holds h' cs.
Proof.
  intros Hf Hh. unfold holds in *. rewrite Forall_forall in *.
  intros [p v] Hin. destruct (Hh _ Hin) as (nd & Hp & Hv). simpl in *.
  exists nd. split; [|done]. rewrite Hf; [done|].
  apply list_elem_of_fmap. by exists (p, v).
Qed.

Lemma holds_app h c1 c2 : holds h (c1 ++ c2) ↔ holds h c1 ∧ holds h c2.
Proof. apply Forall_app. Qed.

Lemma dseg_frame h h' pv ps nx :
  (∀ p, p ∈ ps → h' !! p = h !! p) → dseg h pv ps nx → dseg h' pv ps nx.
Proof.
  revert pv. induction ps as [|p r IH]; intros pv Hf; [done|].
  simpl. intros [(nd & Hp & Hpv & Hnx) Hr]. split.
  - exists nd. rewrite Hf; [done|]. by left.
  - apply IH; [|done]. intros q Hq. apply Hf. by right.
Qed.

Lemma hd_ptr_app l1 l2 nx : hd_ptr (l1 ++ l2) nx = hd_ptr l1 (hd_ptr l2 nx).
Proof. by destruct l1. Qed.

Lemma last_ptr_app l1 l2 pv :
  last_ptr (l1 ++ l2) pv = last_ptr l2 (last_ptr l1 pv).
Proof. revert pv. induction l1 as [|p r IH]; intros pv; simpl; [done|]. apply IH. Qed.

Lemma dseg_app h pv l1 l2 nx :
  dseg h pv (l1 ++ l2) nx
  ↔ dseg h pv l1 (hd_ptr l2 nx) ∧ dseg h (last_ptr l1 pv) l2 nx.
Proof.
  revert pv. induction l1 as [|p r IH]; intros pv; simpl.
  - tauto.
  - rewrite IH, hd_ptr_app. tauto.
Qed.

(** The links of a node in the middle of a segment. *)
Lemma dseg_lookup h pv l1 p l2 nx :
  dseg h pv (l1 ++ p :: l2) nx →
  ∃ nd, h !! p = Some nd ∧ prev nd = last_ptr l1 pv ∧ next nd = hd_ptr l2 nx.
Proof. rewrite dseg_app. simpl. by intros (_ & ? & _). Qed.

Lemma dseg_dom h pv ps nx p : dseg h pv ps nx → p ∈ ps → is_Some (h !! p).
Proof.
  intros Hd Hin. apply list_elem_of_split in Hin as (l1 & l2 & ->).
  apply dseg_lookup in Hd as (nd & -> & _). by eexists.
Qed.
End Rep.

(** ** The monad, step by step *)

Section Steps.
Context {T : Type}.

Lemma bind_ok {A B} (m : M T A) (k : A → M T B) s a s' :
  m s = Ok a s' → bind m k s = k a s'.
Proof. unfold bind. by intros ->. Qed.

Lemma bind_throw {A B} (m : M T A) (k : A → M T B) s e s' :
  m s = Throw e s' → bind m k s = Throw e s'.
Proof. unfold bind. by intros ->. Qed.

Lemma load_node_ok (s : state T) a nd :
  heap s !! a = Some nd → load_node (Some a) s = Ok nd s.
Proof. unfold load_node. by intros ->. Qed.

Lemma store_node_ok (s : state T) a nd f :
  heap s !! a = Some nd →
  store_node (Some a) f s = Ok tt (State (<[a := f nd]> (heap s)) (objs s)).
Proof. unfold store_node. by intros ->. Qed.

Lemma load_obj_ok (s : state T) i o :
  objs s !! i = Some o → load_obj (Some i) s = Ok o s.
Proof. unfold load_obj. by intros ->. Qed.
End Steps.

Ltac step_with H := rewrite (bind_ok _ _ _ _ _ H); cbv beta.

Section Splice.
Context {T : Type} {E : Elem T}.
Implicit Types (h : gmap positive (node T)) (s : state T).

Lemma insert_node_chain s i o l1 a b l2 c nd :
  objs s !! i = Some o →
  NoDup (l1 ++ a :: b :: l2) →
  c ∉ l1 ++ a :: b :: l2 →
  dseg (heap s) None (l1 ++ a :: b :: l2) None →
  heap s !! c = Some nd →
  ∃ h', sjtu.insert_node i (Some b) (Some c) s
        = Ok (Some c)
             (State h' (<[i := ListObj (head o) (tail o) (wrap (list_size o + 1))]> (objs s)))
      ∧ dseg h' None (l1 ++ a :: c :: b :: l2) None
      ∧ (∀ q, q ≠ a → q ≠ b → q ≠ c → h' !! q = heap s !! q)
      ∧ same_data (heap s) h'.
Proof.
  intros Ho Hnd Hc Hseg Hcn.
  apply dseg_app in Hseg as [Hl1 Hrest]. simpl in Hrest.
  destruct Hrest as ((na & Ha & Hpa & Hna) & (nb & Hb & Hpb & Hnb) & Hl2).
  apply NoDup_app in Hnd as (Hnd1 & Hnd12 & Hnd2).
  apply NoDup_cons in Hnd2 as [Hab Hnd2]. apply NoDup_cons in Hnd2 as [Hbl2 Hnd2].
  rewrite elem_of_app, !elem_of_cons in Hc.
  rewrite elem_of_cons in Hab.
  assert (a ≠ b) by tauto. assert (c ≠ a) by tauto. assert (c ≠ b) by tauto.
  destruct s as [h ob]. simpl in *.
  eexists. split; [|split; [|split]].
  - unfold sjtu.insert_node, store_prev, store_next.
    step_with (load_node_ok (State h ob) b nb Hb).
    erewrite bind_ok; [|by apply store_node_ok]. cbv beta. simpl.
    erewrite bind_ok; [|apply store_node_ok; simpl; apply lookup_insert_eq]. cbv beta. simpl.
    erewrite bind_ok; [|apply load_node_ok; simpl; by rewrite !lookup_insert_ne by done]. cbv beta.
    rewrite Hpb.
    erewrite bind_ok; [|apply store_node_ok; simpl; by rewrite !lookup_insert_ne by done]. cbv beta. simpl.
    erewrite bind_ok; [|apply store_node_ok; simpl; by rewrite !lookup_insert_ne by done]. cbv beta. simpl.
    erewrite bind_ok; [|by apply load_obj_ok]. cbv beta.
    unfold bind, store_obj, ret. simpl. reflexivity.
  - apply dseg_app. split.
    + simpl. eapply dseg_frame; [|exact Hl1]. intros p Hp.
      rewrite !lookup_insert_ne; [done|..]; intros ->; set_solver.
    + simpl. split; [|split; [|split]].
      * eexists. rewrite lookup_insert_ne, lookup_insert_eq by done. done.
      * eexists. rewrite !lookup_insert_ne, lookup_insert_eq by done. done.
      * eexists. rewrite lookup_insert_eq. done.
      * eapply dseg_frame; [|exact Hl2]. intros p Hp.
        rewrite !lookup_insert_ne; [done|..]; intros ->; set_solver.
  - intros q ? ? ?. by rewrite !lookup_insert_ne.
  - intros q.
    destruct (decide (q = b)) as [->|]; [by rewrite lookup_insert_eq, Hb|].
    rewrite lookup_insert_ne by done.
    destruct (decide (q = a)) as [->|]; [by rewrite lookup_insert_eq, Ha|].
    rewrite lookup_insert_ne by done.
    destruct (decide (q = c)) as [->|]; [by rewrite lookup_insert_eq, Hcn|].
    by rewrite !lookup_insert_ne.
Qed.

Lemma erase_node_chain s i o l1 a p b l2 :
  objs s !! i = Some o →
  NoDup (l1 ++ a :: p :: b :: l2) →
  dseg (heap s) None (l1 ++ a :: p :: b :: l2) None →
  ∃ h', sjtu.erase_node i (Some p) s
        = Ok (Some p)
             (State h' (<[i := ListObj (head o) (tail o) (wrap (list_size o - 1))]> (objs s)))
      ∧ dseg h' None (l1 ++ a :: b :: l2) None
      ∧ (∀ q, q ≠ a → q ≠ b → h' !! q = heap s !! q)
      ∧ same_data (heap s) h'.
Proof.
  intros Ho Hnd Hseg.
  apply dseg_app in Hseg as [Hl1 Hrest]. simpl in Hrest.
  destruct Hrest as ((na & Ha & Hpa & Hna) & (np & Hp & Hpp & Hnp)
                     & (nb & Hb & Hpb & Hnb) & Hl2).
  apply NoDup_app in Hnd as (Hnd1 & Hnd12 & Hnd2).
  apply NoDup_cons in Hnd2 as [Hal Hnd2]. apply NoDup_cons in Hnd2 as [Hpl Hnd2].
  apply NoDup_cons in Hnd2 as [Hbl2 Hnd2].
  rewrite !elem_of_cons in Hal. rewrite elem_of_cons in Hpl.
  assert (a ≠ p) by tauto. assert (a ≠ b) by tauto. assert (p ≠ b) by tauto.
  destruct s as [h ob]. simpl in *.
  eexists. split; [|split; [|split]].
  - unfold sjtu.erase_node, store_prev, store_next.
    step_with (load_node_ok (State h ob) p np Hp).
    rewrite Hpp, Hnp.
    erewrite bind_ok; [|by apply store_node_ok]. cbv beta. simpl.
    erewrite bind_ok; [|apply load_node_ok; simpl; by rewrite !lookup_insert_ne by done].
    cbv beta. rewrite Hpp, Hnp.
    erewrite bind_ok; [|apply store_node_ok; simpl; by rewrite !lookup_insert_ne by done].
    cbv beta. simpl.
    erewrite bind_ok; [|by apply load_obj_ok]. cbv beta.
    unfold bind, store_obj, ret. simpl. reflexivity.
  - apply dseg_app. split.
    + simpl. eapply dseg_frame; [|exact Hl1]. intros q Hq.
      rewrite !lookup_insert_ne; [done|..]; intros ->; set_solver.
    + simpl. split; [|split].
      * eexists. rewrite lookup_insert_ne, lookup_insert_eq by done. done.
      * eexists. rewrite lookup_insert_eq. done.
      * eapply dseg_frame; [|exact Hl2]. intros q Hq.
        rewrite !lookup_insert_ne; [done|..]; intros ->; set_solver.
  - intros q ? ?. by rewrite !lookup_insert_ne.
  - intros q.
    destruct (decide (q = b)) as [->|]; [by rewrite lookup_insert_eq, Hb|].
    rewrite lookup_insert_ne by done.
    destruct (decide (q = a)) as [->|]; [by rewrite lookup_insert_eq, Ha|].
    by rewrite !lookup_insert_ne.
Qed.
End Splice.

Section RepLemmas.
Context {T : Type} {E : Elem T}.
Implicit Types (h : gmap positive (node T)) (s : state T)
  (a : gmap positive (@alist T)) (al : @alist T).

Definition first_of (cs : list (positive * T)) (tl : positive) : positive :=
  match cs with
  | [] => tl
  | c :: _ => c.1
  end.

Fixpoint last_of (hd : positive) (cs : list (positive * T)) : positive :=
  match cs with
  | [] => hd
  | c :: r => last_of c.1 r
  end.

Fixpoint front_of (hd : positive) (cs : list (positive * T)) : list positive :=
  match cs with
  | [] => []
  | c :: r => hd :: front_of c.1 r
  end.

Definition back_of (cs : list (positive * T)) (tl : positive) : list positive :=
  match cs with
  | [] => []
  | _ :: r => r.*1 ++ [tl]
  end.

Lemma front_last hd cs : hd :: cs.*1 = front_of hd cs ++ [last_of hd cs].
Proof.
  revert hd. induction cs as [|c r IH]; intros hd; simpl; [done|].
  by rewrite IH.
Qed.

Lemma last_ptr_cells hd cs : last_ptr cs.*1 (Some hd) = Some (last_of hd cs).
Proof. revert hd. induction cs as [|c r IH]; intros hd; simpl; [done|]. apply IH. Qed.

Lemma first_back cs tl : cs.*1 ++ [tl] = first_of cs tl :: back_of cs tl.
Proof. by destruct cs. Qed.

(** The chain of a list whose cells are [c1 ++ c2], cut at the seam. *)
Lemma chain_cut hd c1 c2 tl :
  chain (AList hd (c1 ++ c2) tl)
  = front_of hd c1 ++ last_of hd c1 :: first_of c2 tl :: back_of c2 tl.
Proof.
  unfold chain. simpl. rewrite fmap_app, <- app_assoc, first_back.
  rewrite app_comm_cons, front_last, <- app_assoc. done.
Qed.

Lemma chain_cut_mid hd c1 (c : positive * T) c2 tl :
  chain (AList hd (c1 ++ c :: c2) tl)
  = front_of hd c1 ++ last_of hd c1 :: c.1 :: first_of c2 tl :: back_of c2 tl.
Proof.
  unfold chain. simpl. rewrite fmap_app, <- app_assoc. simpl.
  rewrite first_back.
  rewrite app_comm_cons, front_last, <- app_assoc. done.
Qed.

Lemma is_list_intro s i al o :
  objs s !! i = Some o →
  head o = Some (a_head al) →
  tail o = Some (a_tail al) →
  list_size o = Z.of_nat (length (a_cells al)) →
  Z.of_nat (length (a_cells al)) < size_t_mod →
  NoDup (chain al) →
  dseg (heap s) None (chain al) None →
  holds (heap s) (a_cells al) →
  is_list s i al.
Proof. intros. by exists o. Qed.

Lemma is_list_frame s s' i al :
  is_list s i al →
  (∀ q, q ∈ chain al → heap s' !! q = heap s !! q) →
  objs s' !! i = objs s !! i →
  is_list s' i al.
Proof.
  intros (o & Ho & Hh & Ht & Hsz & Hlt & Hnd & Hseg & Hval) Hf Hob.
  apply (is_list_intro _ _ _ o); try done; [congruence| |].
  - by eapply dseg_frame.
  - eapply holds_frame; [|done]. intros p Hp. apply Hf.
    unfold chain. apply elem_of_cons. right. apply elem_of_app. by left.
Qed.

Lemma is_list_dom s i al q : is_list s i al → q ∈ chain al → is_Some (heap s !! q).
Proof.
  intros (o & _ & _ & _ & _ & _ & _ & Hseg & _) Hq. by eapply dseg_dom.
Qed.

(** Replacing the representation of one list. *)
Lemma rep_update a s s' i al' :
  rep a s →
  is_list s' i al' →
  (∀ j aj q, j ≠ i → a !! j = Some aj → q ∈ chain aj →
             heap s' !! q = heap s !! q ∧ q ∉ chain al') →
  (∀ j, j ≠ i → objs s' !! j = objs s !! j) →
  rep (<[i := al']> a) s'.
Proof.
  intros [Hdom Hlist Hdisj] Hi Hothers Hobjs. split.
  - intros j Hj. destruct (decide (j = i)) as [->|Hne].
    + rewrite lookup_insert_eq. by eexists.
    + rewrite lookup_insert_ne by done. apply Hdom. by rewrite <- Hobjs.
  - intros j al. destruct (decide (j = i)) as [->|Hne].
    + rewrite lookup_insert_eq. by intros [= <-].
    + rewrite lookup_insert_ne by done. intros Hj.
      eapply is_list_frame; [by apply Hlist| |by apply Hobjs].
      intros q Hq. by apply (Hothers j al q).
  - intros j k aj ak p Hjk.
    destruct (decide (j = i)) as [->|Hj], (decide (k = i)) as [->|Hk];
      rewrite ?lookup_insert_eq, ?lookup_insert_ne by done; try done.
    + intros [= <-] Hak Hp Hp'. by destruct (Hothers k ak p Hk Hak Hp').
    + intros Haj [= <-] Hp. by destruct (Hothers j aj p Hj Haj Hp).
    + by apply Hdisj.
Qed.

(** A heap change away from every list keeps the representation. *)
Lemma rep_frame a s s' :
  rep a s →
  (∀ j aj q, a !! j = Some aj → q ∈ chain aj → heap s' !! q = heap s !! q) →
  objs s' = objs s →
  rep a s'.
Proof.
  intros [Hdom Hlist Hdisj] Hf Hobjs. split.
  - intros j. rewrite Hobjs. apply Hdom.
  - intros j al Hj. eapply is_list_frame; [by apply Hlist| |by rewrite Hobjs].
    intros q Hq. by eapply Hf.
  - done.
Qed.

Lemma wrap_small z : 0 ≤ z < size_t_mod → wrap z = z.
Proof. intros. unfold wrap. by apply Z.mod_small. Qed.

Lemma insert_node_rep a s i al c1 c2 c nd v :
  rep a s →
  a !! i = Some al →
  a_cells al = c1 ++ c2 →
  heap s !! c = Some nd →
  data nd = Some v →
  free_in a c →
  Z.of_nat (length (a_cells al)) + 1 < size_t_mod →
  ∃ s', sjtu.insert_node i (Some (first_of c2 (a_tail al))) (Some c) s = Ok (Some c) s'
      ∧ rep (<[i := AList (a_head al) (c1 ++ (c, v) :: c2) (a_tail al)]> a) s'
      ∧ same_data (heap s) (heap s').
Proof.
  intros Hrep Hi Hcells Hc Hv Hfree Hbound.
  destruct (rep_list _ _ Hrep _ _ Hi)
    as (o & Ho & Hh & Ht & Hsz & Hlt & Hnd & Hseg & Hval).
  destruct al as [hd cs tl]. cbn [a_head a_cells a_tail] in *. subst cs.
  pose proof (Hfree _ _ Hi) as Hci.
  rewrite chain_cut in Hnd, Hseg, Hci.
  destruct (insert_node_chain s i o _ _ _ _ c nd Ho Hnd Hci Hseg Hc)
    as (h' & Hrun & Hseg' & Hout & Hsame).
  eexists. split; [exact Hrun|]. split; [|done].
  apply (rep_update a s); [done| | |].
  - apply (is_list_intro _ _ _ (ListObj (head o) (tail o) (wrap (list_size o + 1))));
      cbn [a_head a_cells a_tail head tail list_size heap objs]; try done.
    + by rewrite lookup_insert_eq.
    + rewrite Hsz, wrap_small by lia.
      rewrite !length_app. simpl. lia.
    + rewrite !length_app in *. simpl in *. lia.
    + rewrite (chain_cut_mid hd c1 (c, v) c2 tl). simpl.
      apply NoDup_app in Hnd as (? & ? & Hnd2).
      rewrite elem_of_app in Hci.
      apply NoDup_app. split; [done|]. split.
      * intros x Hx. specialize (H0 x Hx). set_solver.
      * apply NoDup_cons in Hnd2 as [? ?].
        apply NoDup_cons. split; [set_solver|].
        apply NoDup_cons. split; [set_solver|done].
    + by rewrite (chain_cut_mid hd c1 (c, v) c2 tl).
    + apply holds_app in Hval as [Hv1 Hv2]. apply holds_app. split.
      * by eapply holds_same_data.
      * apply Forall_cons. split; [|by eapply holds_same_data].
        simpl. specialize (Hsame c). rewrite Hc in Hsame. simpl in Hsame.
        destruct (h' !! c) as [nd'|]; [|done]. exists nd'. simpl in *.
        split; [done|congruence].
  - intros j aj q Hj Haj Hq. simpl. split.
    + apply Hout.
      * intros ->. eapply (rep_disj _ _ Hrep j i); [done..| |]; [exact Hq|].
        rewrite chain_cut. set_solver.
      * intros ->. eapply (rep_disj _ _ Hrep j i); [done..| |]; [exact Hq|].
        rewrite chain_cut. set_solver.
      * intros ->. by eapply Hfree.
    + rewrite (chain_cut_mid hd c1 (c, v) c2 tl). simpl.
      intros Hq'.
      assert (q = c ∨ q ∈ chain (AList hd (c1 ++ c2) tl)) as [->|Hq''].
      { rewrite chain_cut. set_solver. }
      * by eapply Hfree.
      * by eapply (rep_disj _ _ Hrep j i).
  - intros j Hj. simpl. by rewrite lookup_insert_ne.
Qed.

(** The links and the value of a node of a represented list. *)
Lemma is_list_node s i al c1 p v c2 :
  is_list s i al →
  a_cells al = c1 ++ (p, v) :: c2 →
  ∃ nd, heap s !! p = Some nd ∧ data nd = Some v
      ∧ prev nd = Some (last_of (a_head al) c1)
      ∧ next nd = Some (first_of c2 (a_tail al)).
Proof.
  intros (o & Ho & Hh & Ht & Hsz & Hlt & Hnd & Hseg & Hval) Hcells.
  destruct al as [hd cs tl]. cbn [a_head a_cells a_tail] in *. subst cs.
  unfold chain in Hseg. cbn [a_head a_cells a_tail] in Hseg.
  rewrite fmap_app, <- app_assoc in Hseg. simpl in Hseg.
  change (dseg (heap s) None ((hd :: c1.*1) ++ p :: c2.*1 ++ [tl]) None) in Hseg.
  apply dseg_lookup in Hseg as (nd & Hp & Hpv & Hnx).
  rewrite first_back in Hnx. simpl in Hnx.
  apply holds_app in Hval as [_ Hv2]. apply Forall_cons in Hv2 as [(nd' & Hp' & Hd) _].
  simpl in *. exists nd. rewrite Hp in Hp'. injection Hp' as <-.
  split; [done|]. split; [done|]. split; [|done].
  rewrite Hpv. apply last_ptr_cells.
Qed.

Lemma is_list_head s i al :
  is_list s i al →
  ∃ o nd, objs s !! i = Some o ∧ head o = Some (a_head al)
        ∧ tail o = Some (a_tail al)
        ∧ list_size o = Z.of_nat (length (a_cells al))
        ∧ heap s !! a_head al = Some nd ∧ prev nd = None
        ∧ next nd = Some (first_of (a_cells al) (a_tail al)).
Proof.
  intros (o & Ho & Hh & Ht & Hsz & Hlt & Hnd & Hseg & Hval).
  destruct al as [hd cs tl]. cbn [a_head a_cells a_tail] in *.
  unfold chain in Hseg. cbn [a_head a_cells a_tail] in Hseg.
  destruct Hseg as [(nd & Hp & Hpv & Hnx) _].
  exists o, nd. rewrite first_back in Hnx. done.
Qed.

Lemma is_list_tail s i al :
  is_list s i al →
  ∃ nd, heap s !! a_tail al = Some nd
      ∧ prev nd = Some (last_of (a_head al) (a_cells al)) ∧ next nd = None.
Proof.
  intros (o & Ho & Hh & Ht & Hsz & Hlt & Hnd & Hseg & Hval).
  destruct al as [hd cs tl]. cbn [a_head a_cells a_tail] in *.
  unfold chain in Hseg. cbn [a_head a_cells a_tail] in Hseg.
  change (hd :: cs.*1 ++ [tl]) with ((hd :: cs.*1) ++ [tl]) in Hseg.
  apply dseg_lookup in Hseg as (nd & Hp & Hpv & Hnx).
  exists nd. split; [done|]. split; [|done].
  rewrite Hpv. apply last_ptr_cells.
Qed.

Lemma NoDup_remove_mid {A} (l1 l2 : list A) x :
  NoDup (l1 ++ x :: l2) → NoDup (l1 ++ l2) ∧ x ∉ l1 ++ l2.
Proof.
  rewrite !NoDup_app, NoDup_cons. intros (H1 & H12 & Hx & H2).
  split; [|set_solver]. split; [done|]. split; [|done].
  intros y Hy Hy'. apply (H12 y Hy). by right.
Qed.

Lemma erase_node_rep a s i al c1 p v c2 :
  rep a s →
  a !! i = Some al →
  a_cells al = c1 ++ (p, v) :: c2 →
  let a' := <[i := AList (a_head al) (c1 ++ c2) (a_tail al)]> a in
  ∃ s', sjtu.erase_node i (Some p) s = Ok (Some p) s'
      ∧ rep a' s'
      ∧ same_data (heap s) (heap s')
      ∧ free_in a' p
      ∧ heap s' !! p = heap s !! p.
Proof.
  intros Hrep Hi Hcells a'.
  destruct (rep_list _ _ Hrep _ _ Hi)
    as (o & Ho & Hh & Ht & Hsz & Hlt & Hnd & Hseg & Hval).
  destruct al as [hd cs tl]. cbn [a_head a_cells a_tail] in *. subst cs.
  rewrite (chain_cut_mid hd c1 (p, v) c2 tl) in Hnd, Hseg. simpl in Hnd, Hseg.
  destruct (erase_node_chain s i o _ _ _ _ _ Ho Hnd Hseg)
    as (h' & Hrun & Hseg' & Hout & Hsame).
  assert (NoDup (chain (AList hd (c1 ++ c2) tl)) ∧ p ∉ chain (AList hd (c1 ++ c2) tl))
    as [Hnd' Hp'].
  { rewrite chain_cut.
    rewrite cons_middle, app_assoc in Hnd.
    apply NoDup_remove_mid in Hnd. by rewrite <- app_assoc in Hnd. }
  assert (∀ q, q ∈ chain (AList hd (c1 ++ c2) tl) →
               q ∈ chain (AList hd (c1 ++ (p, v) :: c2) tl)) as Hsub.
  { intros q. rewrite chain_cut, (chain_cut_mid hd c1 (p, v) c2 tl). simpl.
    rewrite !elem_of_app, !elem_of_cons. tauto. }
  assert (rep a' (State h' (<[i:=ListObj (head o) (tail o) (wrap (list_size o - 1))]> (objs s))))
    as Hrep'.
  { apply (rep_update a s); [done| | |].
    - apply (is_list_intro _ _ _ (ListObj (head o) (tail o) (wrap (list_size o - 1))));
        cbn [a_head a_cells a_tail head tail list_size heap objs]; try done.
      + by rewrite lookup_insert_eq.
      + rewrite Hsz, wrap_small; rewrite !length_app in *; simpl in *; lia.
      + rewrite !length_app in *. simpl in *. lia.
      + by rewrite chain_cut.
      + apply holds_app in Hval as [Hv1 Hv2]. apply Forall_cons in Hv2 as [_ Hv2].
        apply holds_app. split; by eapply holds_same_data.
    - intros j aj q Hj Haj Hq. cbn [heap]. split.
      + apply Hout; intros ->;
          (eapply (rep_disj _ _ Hrep j i); [done..| |]; [exact Hq|]);
          rewrite (chain_cut_mid hd c1 (p, v) c2 tl); simpl;
          rewrite !elem_of_app, !elem_of_cons; tauto.
      + intros Hq'. apply Hsub in Hq'. by eapply (rep_disj _ _ Hrep j i).
    - intros j Hj. simpl. by rewrite lookup_insert_ne. }
  eexists. split; [exact Hrun|]. split; [done|]. split; [done|]. split.
  - intros j aj. unfold a'. destruct (decide (j = i)) as [->|Hj].
    + rewrite lookup_insert_eq. by intros [= <-].
    + rewrite lookup_insert_ne by done. intros Haj Hp.
      eapply (rep_disj _ _ Hrep j i); [done..| |]; [exact Hp|].
      rewrite (chain_cut_mid hd c1 (p, v) c2 tl). simpl.
      rewrite !elem_of_app, !elem_of_cons. tauto.
  - cbn [heap]. apply Hout; intros ->.
    + apply Hp'. rewrite chain_cut, !elem_of_app, !elem_of_cons. tauto.
    + apply Hp'. rewrite chain_cut, !elem_of_app, !elem_of_cons. tauto.
Qed.

Lemma rep_chain_dom a s j aj q :
  rep a s → a !! j = Some aj → q ∈ chain aj → is_Some (heap s !! q).
Proof. intros Hrep Hj. eapply is_list_dom. by eapply rep_list. Qed.

Lemma alloc_fresh h : h !! alloc h = None.
Proof. apply not_elem_of_dom. unfold alloc. apply is_fresh. Qed.

Lemma new_node_rep a s v :
  rep a s →
  ∃ c s', new_node v s = Ok (Some c) s'
        ∧ rep a s'
        ∧ free_in a c
        ∧ heap s !! c = None
        ∧ heap s' = <[c := Node (Some v) None None]> (heap s)
        ∧ objs s' = objs s.
Proof.
  intros Hrep. exists (alloc (heap s)). eexists. split; [reflexivity|].
  pose proof (alloc_fresh (heap s)) as Hfresh.
  assert (free_in a (alloc (heap s))) as Hfree.
  { intros j aj Haj Hin.
    destruct (rep_chain_dom _ _ _ _ _ Hrep Haj Hin) as [? Hsome]. congruence. }
  split; [|done].
  eapply rep_frame; [done| |done]. intros j aj q Haj Hq. simpl.
  apply lookup_insert_ne. intros <-. by eapply Hfree.
Qed.

Lemma delete_node_rep a s p :
  rep a s →
  free_in a p →
  is_Some (heap s !! p) →
  ∃ s', delete_node (Some p) s = Ok tt s'
      ∧ rep a s'
      ∧ heap s' = delete p (heap s)
      ∧ objs s' = objs s.
Proof.
  intros Hrep Hfree [nd Hp]. eexists. split.
  { unfold delete_node. rewrite Hp. reflexivity. }
  split; [|done].
  eapply rep_frame; [done| |done]. intros j aj q Haj Hq. simpl.
  apply lookup_delete_ne. intros <-. by eapply Hfree.
Qed.
End RepLemmas.

(** ** The public operations on a represented store *)

Section PublicOps.
Context {T : Type} {E : Elem T}.
Implicit Types (s : state T) (a : gmap positive (@alist T)) (al : @alist T).

Lemma empty_ok s i o :
  objs s !! i = Some o → sjtu.empty i s = Ok (list_size o =? 0) s.
Proof. intros Ho. unfold sjtu.empty. by step_with (load_obj_ok s i o Ho). Qed.

Lemma size_ok s i o :
  objs s !! i = Some o → sjtu.size i s = Ok (list_size o) s.
Proof. intros Ho. unfold sjtu.size. by step_with (load_obj_ok s i o Ho). Qed.

Lemma end_ok s i o :
  objs s !! i = Some o → sjtu.end_ i s = Ok (Iter (tail o) (Some i)) s.
Proof. intros Ho. unfold sjtu.end_. by step_with (load_obj_ok s i o Ho). Qed.

Lemma cend_ok s i o :
  objs s !! i = Some o → sjtu.cend i s = Ok (CIter (tail o) (Some i)) s.
Proof. intros Ho. unfold sjtu.cend. by step_with (load_obj_ok s i o Ho). Qed.

Lemma begin_ok s i al :
  is_list s i al →
  sjtu.begin i s = Ok (Iter (Some (first_of (a_cells al) (a_tail al))) (Some i)) s.
Proof.
  intros Hl. destruct (is_list_head _ _ _ Hl)
    as (o & nd & Ho & Hh & Ht & Hsz & Hn & Hp & Hnx).
  unfold sjtu.begin. step_with (load_obj_ok s i o Ho). rewrite Hh.
  step_with (load_node_ok s _ nd Hn). by rewrite Hnx.
Qed.

Lemma cbegin_ok s i al :
  is_list s i al →
  sjtu.cbegin i s = Ok (CIter (Some (first_of (a_cells al) (a_tail al))) (Some i)) s.
Proof.
  intros Hl. destruct (is_list_head _ _ _ Hl)
    as (o & nd & Ho & Hh & Ht & Hsz & Hn & Hp & Hnx).
  unfold sjtu.cbegin. step_with (load_obj_ok s i o Ho). rewrite Hh.
  step_with (load_node_ok s _ nd Hn). by rewrite Hnx.
Qed.

Lemma last_of_snoc hd cs (c : positive * T) : last_of hd (cs ++ [c]) = c.1.
Proof. revert hd. induction cs as [|x r IH]; intros hd; simpl; [done|]. apply IH. Qed.

(** ** push_back *)
Lemma push_back_rep a s i al v :
  rep a s →
  a !! i = Some al →
  Z.of_nat (length (a_cells al)) + 1 < size_t_mod →
  ∃ c s', sjtu.push_back i v s = Ok tt s'
        ∧ rep (<[i := AList (a_head al) (a_cells al ++ [(c, v)]) (a_tail al)]> a) s'
        ∧ heap s !! c = None.
Proof.
  intros Hrep Hi Hb.
  destruct (new_node_rep a s v Hrep) as (c & s1 & Hnew & Hrep1 & Hfree & Hfresh & Hh1 & Ho1).
  destruct (is_list_head _ _ _ (rep_list _ _ Hrep1 _ _ Hi))
    as (o & nd & Ho & Hh & Ht & _).
  destruct (insert_node_rep a s1 i al (a_cells al) [] c (Node (Some v) None None) v)
    as (s2 & Hins & Hrep2 & _); try done.
  { by rewrite app_nil_r. }
  { rewrite Hh1. apply lookup_insert_eq. }
  exists c, s2. split; [|done].
  unfold sjtu.push_back. step_with Hnew. step_with (load_obj_ok s1 i o Ho).
  rewrite Ht. simpl in Hins. by step_with Hins.
Qed.

(** ** push_front *)
Lemma push_front_rep a s i al v :
  rep a s →
  a !! i = Some al →
  Z.of_nat (length (a_cells al)) + 1 < size_t_mod →
  ∃ c s', sjtu.push_front i v s = Ok tt s'
        ∧ rep (<[i := AList (a_head al) ((c, v) :: a_cells al) (a_tail al)]> a) s'
        ∧ heap s !! c = None.
Proof.
  intros Hrep Hi Hb.
  destruct (new_node_rep a s v Hrep) as (c & s1 & Hnew & Hrep1 & Hfree & Hfresh & Hh1 & Ho1).
  destruct (is_list_head _ _ _ (rep_list _ _ Hrep1 _ _ Hi))
    as (o & nd & Ho & Hh & Ht & Hsz & Hn & Hp & Hnx).
  destruct (insert_node_rep a s1 i al [] (a_cells al) c (Node (Some v) None None) v)
    as (s2 & Hins & Hrep2 & _); try done.
  { rewrite Hh1. apply lookup_insert_eq. }
  exists c, s2. split; [|done].
  unfold sjtu.push_front. step_with Hnew. step_with (load_obj_ok s1 i o Ho).
  rewrite Hh. step_with (load_node_ok s1 _ nd Hn). rewrite Hnx.
  by step_with Hins.
Qed.

(** ** insert *)
Lemma insert_rep a s i al c1 c2 v :
  rep a s →
  a !! i = Some al →
  a_cells al = c1 ++ c2 →
  Z.of_nat (length (a_cells al)) + 1 < size_t_mod →
  ∃ c s', sjtu.insert i (Iter (Some (first_of c2 (a_tail al))) (Some i)) v s
          = Ok (Iter (Some c) (Some i)) s'
        ∧ rep (<[i := AList (a_head al) (c1 ++ (c, v) :: c2) (a_tail al)]> a) s'
        ∧ heap s !! c = None.
Proof.
  intros Hrep Hi Hc Hb.
  destruct (new_node_rep a s v Hrep) as (c & s1 & Hnew & Hrep1 & Hfree & Hfresh & Hh1 & Ho1).
  destruct (insert_node_rep a s1 i al c1 c2 c (Node (Some v) None None) v)
    as (s2 & Hins & Hrep2 & _); try done.
  { rewrite Hh1. apply lookup_insert_eq. }
  exists c, s2. split; [|done].
  unfold sjtu.insert. cbn [container current].
  rewrite bool_decide_eq_false_2 by (by intros ?).
  step_with Hnew. by step_with Hins.
Qed.

(** [insert] rejects an iterator of another container and changes nothing. *)
Lemma insert_foreign s i it v :
  container it ≠ Some i →
  sjtu.insert i it v s = Throw invalid_iterator s.
Proof. intros Hne. unfold sjtu.insert. by rewrite bool_decide_eq_true_2. Qed.

(** ** pop_front, pop_back, erase *)
Lemma empty_list_throws s i al :
  is_list s i al → a_cells al = [] →
  sjtu.empty i s = Ok true s.
Proof.
  intros (o & Ho & Hh & Ht & Hsz & _) Hc. rewrite (empty_ok s i o Ho).
  rewrite Hsz, Hc. done.
Qed.

Lemma nonempty_list s i al c cs :
  is_list s i al → a_cells al = c :: cs →
  sjtu.empty i s = Ok false s.
Proof.
  intros (o & Ho & Hh & Ht & Hsz & _) Hc. rewrite (empty_ok s i o Ho).
  rewrite Hsz, Hc. done.
Qed.

Lemma pop_front_rep a s i al p v cs :
  rep a s →
  a !! i = Some al →
  a_cells al = (p, v) :: cs →
  ∃ s', sjtu.pop_front i s = Ok tt s'
      ∧ rep (<[i := AList (a_head al) cs (a_tail al)]> a) s'
      ∧ heap s' !! p = None.
Proof.
  intros Hrep Hi Hc.
  pose proof (rep_list _ _ Hrep _ _ Hi) as Hl.
  destruct (is_list_head _ _ _ Hl) as (o & nd & Ho & Hh & Ht & Hsz & Hn & Hp & Hnx).
  destruct (erase_node_rep a s i al [] p v cs Hrep Hi Hc)
    as (s1 & Her & Hrep1 & Hsame & Hfree & Hp1).
  destruct (is_list_node s i al [] p v cs Hl Hc) as (np & Hnp & _).
  destruct (delete_node_rep _ s1 p Hrep1 Hfree) as (s2 & Hdel & Hrep2 & Hh2 & Ho2).
  { rewrite Hp1, Hnp. by eexists. }
  exists s2. split; [|split; [done|]].
  - unfold sjtu.pop_front. step_with (nonempty_list s i al _ _ Hl Hc).
    step_with (load_obj_ok s i o Ho). rewrite Hh.
    step_with (load_node_ok s _ nd Hn). rewrite Hnx, Hc. simpl.
    step_with Her. exact Hdel.
  - rewrite Hh2. apply lookup_delete_eq.
Qed.

Lemma pop_back_rep a s i al p v cs :
  rep a s →
  a !! i = Some al →
  a_cells al = cs ++ [(p, v)] →
  ∃ s', sjtu.pop_back i s = Ok tt s'
      ∧ rep (<[i := AList (a_head al) cs (a_tail al)]> a) s'
      ∧ heap s' !! p = None.
Proof.
  intros Hrep Hi Hc.
  pose proof (rep_list _ _ Hrep _ _ Hi) as Hl.
  destruct (is_list_head _ _ _ Hl) as (o & nd & Ho & Hh & Ht & Hsz & Hn & Hp & Hnx).
  destruct (is_list_tail _ _ _ Hl) as (nt & Hnt & Hpt & _).
  destruct (erase_node_rep a s i al cs p v [] Hrep Hi Hc)
    as (s1 & Her & Hrep1 & Hsame & Hfree & Hp1).
  rewrite app_nil_r in *.
  destruct (is_list_node s i al cs p v [] Hl Hc) as (np & Hnp & _).
  destruct (delete_node_rep _ s1 p Hrep1 Hfree) as (s2 & Hdel & Hrep2 & Hh2 & Ho2).
  { rewrite Hp1, Hnp. by eexists. }
  exists s2. split; [|split; [done|]].
  - unfold sjtu.pop_back.
    assert (sjtu.empty i s = Ok false s) as He.
    { rewrite (empty_ok s i o Ho), Hsz, Hc, length_app. simpl.
      f_equal. apply Z.eqb_neq. lia. }
    step_with He.
    step_with (load_obj_ok s i o Ho). rewrite Ht.
    step_with (load_node_ok s _ nt Hnt). rewrite Hpt, Hc, last_of_snoc. simpl.
    step_with Her. exact Hdel.
  - rewrite Hh2. apply lookup_delete_eq.
Qed.

Lemma pop_front_empty s i al :
  is_list s i al → a_cells al = [] →
  sjtu.pop_front i s = Throw container_is_empty s.
Proof.
  intros Hl Hc. unfold sjtu.pop_front.
  by step_with (empty_list_throws s i al Hl Hc).
Qed.

Lemma pop_back_empty s i al :
  is_list s i al → a_cells al = [] →
  sjtu.pop_back i s = Throw container_is_empty s.
Proof.
  intros Hl Hc. unfold sjtu.pop_back.
  by step_with (empty_list_throws s i al Hl Hc).
Qed.

Lemma is_list_node_ne s i al c1 p v c2 :
  is_list s i al →
  a_cells al = c1 ++ (p, v) :: c2 →
  p ≠ a_head al ∧ p ≠ a_tail al.
Proof.
  intros (o & Ho & Hh & Ht & Hsz & Hlt & Hnd & _) Hc.
  unfold chain in Hnd. rewrite Hc, fmap_app in Hnd. simpl in Hnd.
  apply NoDup_cons in Hnd as [Hhd Hnd].
  rewrite <- app_assoc in Hnd. apply NoDup_app in Hnd as (_ & _ & Hnd).
  simpl in Hnd. apply NoDup_cons in Hnd as [Hp _].
  split.
  - intros ->. apply Hhd. rewrite !elem_of_app, elem_of_cons. tauto.
  - intros ->. apply Hp. rewrite elem_of_app, list_elem_of_singleton. tauto.
Qed.

Lemma is_list_nonempty_size s i al o :
  is_list s i al → objs s !! i = Some o →
  (list_size o =? 0) = bool_decide (a_cells al = []).
Proof.
  intros (o' & Ho & _ & _ & Hsz & _) Ho2. rewrite Ho in Ho2. injection Ho2 as <-.
  rewrite Hsz. destruct (a_cells al) as [|c cs].
  - by rewrite bool_decide_eq_true_2.
  - rewrite (bool_decide_eq_false_2 (c :: cs = [])) by done.
    apply Z.eqb_neq. simpl length. lia.
Qed.

Lemma erase_rep a s i al c1 p v c2 :
  rep a s →
  a !! i = Some al →
  a_cells al = c1 ++ (p, v) :: c2 →
  ∃ s', sjtu.erase i (Iter (Some p) (Some i)) s
        = Ok (Iter (Some (first_of c2 (a_tail al))) (Some i)) s'
      ∧ rep (<[i := AList (a_head al) (c1 ++ c2) (a_tail al)]> a) s'
      ∧ heap s' !! p = None.
Proof.
  intros Hrep Hi Hc.
  pose proof (rep_list _ _ Hrep _ _ Hi) as Hl.
  destruct (is_list_head _ _ _ Hl) as (o & nd & Ho & Hh & Ht & Hsz & Hn & Hp & Hnx).
  destruct (erase_node_rep a s i al c1 p v c2 Hrep Hi Hc)
    as (s1 & Her & Hrep1 & Hsame & Hfree & Hp1).
  destruct (is_list_node s i al c1 p v c2 Hl Hc) as (np & Hnp & _ & _ & Hnxp).
  destruct (is_list_node_ne s i al c1 p v c2 Hl Hc) as [_ Hptl].
  destruct (delete_node_rep _ s1 p Hrep1 Hfree) as (s2 & Hdel & Hrep2 & Hh2 & Ho2).
  { rewrite Hp1, Hnp. by eexists. }
  exists s2. split; [|split; [done|]].
  - unfold sjtu.erase.
    assert (sjtu.empty i s = Ok false s) as He.
    { rewrite (empty_ok s i o Ho), (is_list_nonempty_size s i al o Hl Ho), Hc.
      rewrite bool_decide_eq_false_2; [done|]. by destruct c1. }
    step_with He. cbn [container current].
    rewrite bool_decide_eq_false_2 by (by intros ?).
    unfold bind at 1. step_with (end_ok s i o Ho). unfold ret at 1.
    unfold iterator.eq, ptr_eqb. cbn [current]. rewrite Ht.
    rewrite bool_decide_eq_false_2 by congruence.
    step_with (load_node_ok s _ np Hnp). rewrite Hnxp.
    step_with Her. by step_with Hdel.
  - rewrite Hh2. apply lookup_delete_eq.
Qed.

Lemma erase_empty s i al it :
  is_list s i al → a_cells al = [] →
  sjtu.erase i it s = Throw container_is_empty s.
Proof.
  intros Hl Hc. unfold sjtu.erase.
  by step_with (empty_list_throws s i al Hl Hc).
Qed.

Lemma erase_invalid s i al it :
  is_list s i al → a_cells al ≠ [] →
  container it ≠ Some i ∨ current it = Some (a_tail al) →
  sjtu.erase i it s = Throw invalid_iterator s.
Proof.
  intros Hl Hc Hbad.
  destruct (is_list_head _ _ _ Hl) as (o & nd & Ho & Hh & Ht & Hsz & Hn & Hp & Hnx).
  unfold sjtu.erase.
  assert (sjtu.empty i s = Ok false s) as He.
  { rewrite (empty_ok s i o Ho), (is_list_nonempty_size s i al o Hl Ho).
    by rewrite bool_decide_eq_false_2. }
  step_with He.
  destruct (decide (container it ≠ Some i)) as [Hne|Heq].
  - rewrite bool_decide_eq_true_2 by done. done.
  - rewrite bool_decide_eq_false_2 by done.
    destruct Hbad as [?|Hcur]; [done|].
    unfold bind at 1. step_with (end_ok s i o Ho). unfold ret at 1.
    unfold iterator.eq, ptr_eqb. cbn [current]. rewrite Ht, Hcur.
    by rewrite bool_decide_eq_true_2.
Qed.

(** ** clear *)
Lemma clear_rep a s i al fuel :
  rep a s →
  a !! i = Some al →
  (length (a_cells al) < fuel)%nat →
  ∃ s', sjtu.clear fuel i s = Ok tt s'
      ∧ rep (<[i := AList (a_head al) [] (a_tail al)]> a) s'.
Proof.
  revert a s al. induction fuel as [|fuel IH]; intros a s al Hrep Hi Hf; [lia|].
  pose proof (rep_list _ _ Hrep _ _ Hi) as Hl.
  destruct al as [hd cs tl]. cbn [a_head a_cells a_tail] in *.
  destruct cs as [|[p v] cs].
  - exists s. split.
    + simpl. by step_with (empty_list_throws s i _ Hl eq_refl).
    + by rewrite insert_id.
  - destruct (pop_front_rep a s i _ p v cs Hrep Hi eq_refl) as (s1 & Hpop & Hrep1 & _).
    cbn [a_head a_cells a_tail] in *.
    destruct (IH _ s1 (AList hd cs tl) Hrep1) as (s2 & Hcl & Hrep2).
    { apply lookup_insert_eq. }
    { simpl in *. lia. }
    cbn [a_head a_cells a_tail] in *. rewrite insert_insert_eq in Hrep2.
    exists s2. split; [|done].
    simpl. step_with (nonempty_list s i _ _ _ Hl eq_refl).
    by step_with Hpop.
Qed.

(** ** The default constructor *)
Lemma ctor_rep a s i :
  rep a s →
  ∃ hd tl s', sjtu.ctor i s = Ok tt s'
            ∧ rep (<[i := AList hd [] tl]> a) s'
            ∧ heap s !! hd = None ∧ heap s !! tl = None.
Proof.
  intros Hrep.
  set (hd := alloc (heap s)).
  set (h1 := <[hd := Node None None None]> (heap s)).
  set (tl := alloc h1).
  assert (heap s !! hd = None) as Hhd by apply alloc_fresh.
  assert (h1 !! tl = None) as Htl by apply alloc_fresh.
  assert (hd ≠ tl) as Hne.
  { intros Heq. unfold h1 in Htl. rewrite <- Heq, lookup_insert_eq in Htl. done. }
  assert (tl ≠ hd) as Hne' by done.
  assert (heap s !! tl = None) as Htl'.
  { unfold h1 in Htl. by rewrite lookup_insert_ne in Htl. }
  exists hd, tl. eexists. split; [|split; [|done]].
  - unfold sjtu.ctor, new_raw, store_prev, store_next.
    unfold bind at 1. fold hd. cbn [heap objs]. unfold bind at 1. cbn [heap objs].
    fold h1. fold tl.
    erewrite bind_ok; [|apply store_node_ok; cbn [heap];
      rewrite lookup_insert_ne by done; unfold h1; apply lookup_insert_eq].
    cbv beta. cbn [heap objs data next prev].
    erewrite bind_ok; [|apply store_node_ok; cbn [heap]; apply lookup_insert_eq].
    cbv beta. cbn [heap objs data next prev].
    erewrite bind_ok; [|apply store_node_ok; cbn [heap];
      rewrite !lookup_insert_ne by done; apply lookup_insert_eq].
    cbv beta. cbn [heap objs data next prev].
    erewrite bind_ok; [|apply store_node_ok; cbn [heap]; apply lookup_insert_eq].
    cbv beta. cbn [heap objs data next prev].
    unfold store_obj. cbn [heap objs]. reflexivity.
  - apply (rep_update a s); [done| | |].
    + eapply is_list_intro; cbn [a_head a_cells a_tail head tail list_size heap objs].
      * apply lookup_insert_eq.
      * done.
      * done.
      * done.
      * done.
      * unfold chain. simpl. apply NoDup_cons. split; [set_solver|].
        apply NoDup_singleton.
      * unfold chain. simpl. split; [|split; [|done]].
        -- eexists. rewrite lookup_insert_ne, lookup_insert_ne, lookup_insert_eq by done.
           done.
        -- eexists. rewrite lookup_insert_eq. done.
      * constructor.
    + intros j aj q Hj Haj Hq. cbn [heap].
      destruct (rep_chain_dom _ _ _ _ _ Hrep Haj Hq) as [nq Hnq].
      assert (q ≠ hd) by congruence. assert (q ≠ tl) by congruence.
      split.
      * unfold h1. by rewrite !lookup_insert_ne.
      * unfold chain. simpl. set_solver.
    + intros j Hj. simpl. by rewrite lookup_insert_ne.
Qed.
End PublicOps.

(** ** Iterators over a represented list *)

Section IterRep.
Context {T : Type} {E : Elem T}.
Implicit Types (s : state T) (a : gmap positive (@alist T)) (al : @alist T).

Lemma load_data_node s i al c1 p v c2 :
  is_list s i al → a_cells al = c1 ++ (p, v) :: c2 →
  load_data p s = Ok v s.
Proof.
  intros Hl Hc. destruct (is_list_node s i al c1 p v c2 Hl Hc) as (nd & Hp & Hd & _).
  unfold load_data. step_with (load_node_ok s p nd Hp). by rewrite Hd.
Qed.

Lemma iter_preinc_node s i al c1 p v c2 :
  is_list s i al → a_cells al = c1 ++ (p, v) :: c2 →
  iterator.preinc (Iter (Some p) (Some i)) s
  = Ok (Iter (Some (first_of c2 (a_tail al))) (Some i)) s.
Proof.
  intros Hl Hc. destruct (is_list_node s i al c1 p v c2 Hl Hc) as (nd & Hp & _ & _ & Hnx).
  destruct (is_list_node_ne s i al c1 p v c2 Hl Hc) as [_ Hne].
  destruct (is_list_head _ _ _ Hl) as (o & _ & Ho & _ & Ht & _).
  unfold iterator.preinc, iterator.at_end. cbn [current container].
  unfold bind at 1. step_with (load_obj_ok s i o Ho). unfold ret at 1.
  unfold ptr_eqb. rewrite Ht, bool_decide_eq_false_2 by congruence.
  step_with (load_node_ok s p nd Hp). by rewrite Hnx.
Qed.

Lemma iter_deref_node s i al c1 p v c2 :
  is_list s i al → a_cells al = c1 ++ (p, v) :: c2 →
  iterator.deref (Iter (Some p) (Some i)) s = Ok p s.
Proof.
  intros Hl Hc. destruct (is_list_node s i al c1 p v c2 Hl Hc) as (nd & Hp & _).
  destruct (is_list_node_ne s i al c1 p v c2 Hl Hc) as [Hne1 Hne2].
  destruct (is_list_head _ _ _ Hl) as (o & _ & Ho & Hh & Ht & _).
  unfold iterator.deref, iterator.at_sentinel. cbn [current container].
  unfold bind at 1. step_with (load_obj_ok s i o Ho).
  unfold ptr_eqb. rewrite Hh, bool_decide_eq_false_2 by congruence.
  step_with (load_obj_ok s i o Ho). unfold ret at 1.
  rewrite Ht, bool_decide_eq_false_2 by congruence.
  unfold ref_data. by step_with (load_node_ok s p nd Hp).
Qed.

Lemma citer_preinc_node s i al c1 p v c2 :
  is_list s i al → a_cells al = c1 ++ (p, v) :: c2 →
  const_iterator.preinc (CIter (Some p) (Some i)) s
  = Ok (CIter (Some (first_of c2 (a_tail al))) (Some i)) s.
Proof.
  intros Hl Hc. destruct (is_list_node s i al c1 p v c2 Hl Hc) as (nd & Hp & _ & _ & Hnx).
  destruct (is_list_node_ne s i al c1 p v c2 Hl Hc) as [_ Hne].
  destruct (is_list_head _ _ _ Hl) as (o & _ & Ho & _ & Ht & _).
  unfold const_iterator.preinc, const_iterator.at_end. cbn [ccurrent ccontainer].
  unfold bind at 1. step_with (load_obj_ok s i o Ho). unfold ret at 1.
  unfold ptr_eqb. rewrite Ht, bool_decide_eq_false_2 by congruence.
  step_with (load_node_ok s p nd Hp). by rewrite Hnx.
Qed.

Lemma citer_deref_node s i al c1 p v c2 :
  is_list s i al → a_cells al = c1 ++ (p, v) :: c2 →
  const_iterator.deref (CIter (Some p) (Some i)) s = Ok p s.
Proof.
  intros Hl Hc. destruct (is_list_node s i al c1 p v c2 Hl Hc) as (nd & Hp & _).
  destruct (is_list_node_ne s i al c1 p v c2 Hl Hc) as [Hne1 Hne2].
  destruct (is_list_head _ _ _ Hl) as (o & _ & Ho & Hh & Ht & _).
  unfold const_iterator.deref, const_iterator.at_sentinel. cbn [ccurrent ccontainer].
  unfold bind at 1. step_with (load_obj_ok s i o Ho).
  unfold ptr_eqb. rewrite Hh, bool_decide_eq_false_2 by congruence.
  step_with (load_obj_ok s i o Ho). unfold ret at 1.
  rewrite Ht, bool_decide_eq_false_2 by congruence.
  unfold ref_data. by step_with (load_node_ok s p nd Hp).
Qed.

(** ** Copying *)

Lemma copy_loop_rep fuel a s i j dst src c1 c2 :
  rep a s →
  i ≠ j →
  a !! i = Some dst →
  a !! j = Some src →
  a_cells src = c1 ++ c2 →
  (length c2 < fuel)%nat →
  Z.of_nat (length (a_cells dst) + length c2) < size_t_mod →
  ∃ s' new,
    sjtu.copy_loop fuel i j (CIter (Some (first_of c2 (a_tail src))) (Some j)) s
    = Ok tt s'
    ∧ rep (<[i := AList (a_head dst) (a_cells dst ++ new) (a_tail dst)]> a) s'
    ∧ new.*2 = c2.*2.
Proof.
  revert a s dst c1 c2. induction fuel as [|fuel IH];
    intros a s dst c1 c2 Hrep Hij Hi Hj Hc Hf Hb; [lia|].
  pose proof (rep_list _ _ Hrep _ _ Hj) as Hlj.
  destruct (is_list_head _ _ _ Hlj) as (oj & _ & Hoj & _ & Htj & _).
  destruct c2 as [|[p v] c2].
  - exists s, []. split; [|split; [|done]].
    + simpl. step_with (cend_ok s j oj Hoj).
      unfold const_iterator.neq, ptr_eqb. cbn [ccurrent]. rewrite Htj.
      by rewrite bool_decide_eq_true_2.
    + rewrite app_nil_r. destruct dst. by rewrite insert_id.
  - destruct (is_list_node_ne s j src c1 p v c2 Hlj Hc) as [_ Hne].
    destruct (push_back_rep a s i dst v Hrep Hi) as (c & s1 & Hpush & Hrep1 & _).
    { simpl in Hb. lia. }
    set (dst1 := AList (a_head dst) (a_cells dst ++ [(c, v)]) (a_tail dst)) in *.
    assert (<[i:=dst1]> a !! j = Some src) as Hj1 by (by rewrite lookup_insert_ne).
    pose proof (rep_list _ _ Hrep1 _ _ Hj1) as Hlj1.
    destruct (IH _ s1 dst1 (c1 ++ [(p, v)]) c2 Hrep1 Hij) as (s2 & new & Hloop & Hrep2 & Hnew).
    { apply lookup_insert_eq. }
    { done. }
    { by rewrite <- app_assoc. }
    { simpl in Hf. lia. }
    { unfold dst1. cbn [a_cells]. rewrite length_app. simpl in *. lia. }
    exists s2, ((c, v) :: new). split; [|split].
    + simpl. step_with (cend_ok s j oj Hoj).
      unfold const_iterator.neq, ptr_eqb. cbn [ccurrent]. rewrite Htj.
      rewrite bool_decide_eq_false_2 by congruence. cbn [negb].
      step_with (citer_deref_node s j src c1 p v c2 Hlj Hc).
      step_with (load_data_node s j src c1 p v c2 Hlj Hc).
      step_with Hpush.
      step_with (citer_preinc_node s1 j src c1 p v c2 Hlj1 Hc).
      exact Hloop.
    + rewrite insert_insert_eq in Hrep2. unfold dst1 in Hrep2.
      cbn [a_head a_cells a_tail] in Hrep2. by rewrite <- app_assoc in Hrep2.
    + rewrite !fmap_cons. by rewrite Hnew.
Qed.

Lemma copy_ctor_rep fuel a s i j src :
  rep a s →
  i ≠ j →
  a !! j = Some src →
  (length (a_cells src) < fuel)%nat →
  ∃ s' hd new tl,
    sjtu.copy_ctor fuel i j s = Ok tt s'
    ∧ rep (<[i := AList hd new tl]> a) s'
    ∧ new.*2 = (a_cells src).*2.
Proof.
  intros Hrep Hij Hj Hf.
  destruct (ctor_rep a s i Hrep) as (hd & tl & s1 & Hctor & Hrep1 & _).
  assert (<[i:=AList hd [] tl]> a !! j = Some src) as Hj1 by (by rewrite lookup_insert_ne).
  pose proof (rep_list _ _ Hrep1 _ _ Hj1) as Hlj1.
  destruct (copy_loop_rep fuel _ s1 i j (AList hd [] tl) src [] (a_cells src) Hrep1 Hij)
    as (s2 & new & Hloop & Hrep2 & Hnew); try done.
  { apply lookup_insert_eq. }
  { destruct Hlj1 as (_ & _ & _ & _ & _ & Hlt & _). simpl. lia. }
  exists s2, hd, new, tl. split; [|split; [|done]].
  - unfold sjtu.copy_ctor. step_with Hctor.
    step_with (cbegin_ok s1 j src Hlj1). exact Hloop.
  - by rewrite insert_insert_eq in Hrep2.
Qed.

Lemma assign_rep fuel a s i j dst src :
  rep a s →
  i ≠ j →
  a !! i = Some dst →
  a !! j = Some src →
  (length (a_cells dst) < fuel)%nat →
  (length (a_cells src) < fuel)%nat →
  ∃ s' new,
    sjtu.assign fuel i j s = Ok tt s'
    ∧ rep (<[i := AList (a_head dst) new (a_tail dst)]> a) s'
    ∧ new.*2 = (a_cells src).*2.
Proof.
  intros Hrep Hij Hi Hj Hfd Hfs.
  destruct (clear_rep a s i dst fuel Hrep Hi Hfd) as (s1 & Hcl & Hrep1).
  set (dst1 := AList (a_head dst) [] (a_tail dst)) in *.
  assert (<[i:=dst1]> a !! j = Some src) as Hj1 by (by rewrite lookup_insert_ne).
  pose proof (rep_list _ _ Hrep1 _ _ Hj1) as Hlj1.
  destruct (copy_loop_rep fuel _ s1 i j dst1 src [] (a_cells src) Hrep1 Hij)
    as (s2 & new & Hloop & Hrep2 & Hnew); try done.
  { apply lookup_insert_eq. }
  { destruct Hlj1 as (_ & _ & _ & _ & _ & Hlt & _). simpl. lia. }
  exists s2, new. split; [|split; [|done]].
  - unfold sjtu.assign. rewrite bool_decide_eq_false_2 by done.
    step_with Hcl. step_with (cbegin_ok s1 j src Hlj1). exact Hloop.
  - by rewrite insert_insert_eq in Hrep2.
Qed.
End IterRep.

(** ** reverse *)

Section Reverse.
Context {T : Type} {E : Elem T}.
Implicit Types (h : gmap positive (node T)) (s : state T)
  (a : gmap positive (@alist T)) (al : @alist T).

Definition swap_links (nd : node T) : node T :=
  Node (data nd) (next nd) (prev nd).

(** The heap after the loop has visited the nodes [ps]. *)
Fixpoint swap_all (ps : list positive) h : gmap positive (node T) :=
  match ps with
  | [] => h
  | p :: r => swap_all r (alter swap_links p h)
  end.

Lemma swap_all_notin ps h q : q ∉ ps → swap_all ps h !! q = h !! q.
Proof.
  revert h. induction ps as [|p r IH]; intros h Hq; simpl; [done|].
  rewrite not_elem_of_cons in Hq. destruct Hq as [Hne Hq].
  rewrite IH by done. by rewrite lookup_alter_ne.
Qed.

Lemma swap_all_in ps h q :
  NoDup ps → q ∈ ps → swap_all ps h !! q = swap_links <$> h !! q.
Proof.
  revert h. induction ps as [|p r IH]; intros h Hnd Hq; simpl.
  - by apply elem_of_nil in Hq.
  - apply NoDup_cons in Hnd as [Hp Hnd].
    apply elem_of_cons in Hq as [->|Hq].
    + rewrite swap_all_notin by done. by rewrite lookup_alter_eq.
    + rewrite IH by done. rewrite lookup_alter_ne; [done|]. by intros ->.
Qed.

Lemma reverse_loop_run fuel h ob pv ps :
  NoDup ps →
  dseg h pv ps None →
  (length ps < fuel)%nat →
  sjtu.reverse_loop fuel (hd_ptr ps None) (State h ob)
  = Ok tt (State (swap_all ps h) ob).
Proof.
  revert h pv ps. induction fuel as [|fuel IH]; intros h pv ps Hnd Hseg Hf; [lia|].
  destruct ps as [|p r]; [done|].
  simpl in Hseg. destruct Hseg as [(nd & Hp & Hpv & Hnx) Hr].
  apply NoDup_cons in Hnd as [Hpr Hnd].
  cbn [sjtu.reverse_loop hd_ptr].
  step_with (load_node_ok (State h ob) p nd Hp).
  unfold store_next, store_prev.
  erewrite bind_ok; [|by apply store_node_ok]. cbv beta. cbn [heap objs data prev next].
  erewrite bind_ok; [|apply store_node_ok; cbn [heap]; apply lookup_insert_eq].
  cbv beta. cbn [heap objs data prev next].
  rewrite insert_insert_eq, Hnx.
  assert (<[p:={| data := data nd; prev := hd_ptr r None; next := prev nd |}]> h
          = alter swap_links p h) as ->.
  { apply map_eq. intros q. destruct (decide (p = q)) as [<-|Hne].
    - rewrite lookup_insert_eq, lookup_alter_eq, Hp. simpl.
      unfold swap_links. by rewrite Hnx.
    - by rewrite lookup_insert_ne, lookup_alter_ne. }
  cbn [swap_all]. apply (IH _ (Some p)); [done| |simpl in Hf; lia].
  eapply dseg_frame; [|exact Hr]. intros q Hq.
  apply lookup_alter_ne. by intros ->.
Qed.

Lemma last_ptr_rev ps nx : last_ptr (rev ps) nx = hd_ptr ps nx.
Proof. destruct ps as [|p r]; [done|]. simpl. by rewrite last_ptr_app. Qed.

Lemma dseg_rev h h' pv ps nx :
  (∀ q, q ∈ ps → h' !! q = swap_links <$> h !! q) →
  dseg h pv ps nx → dseg h' nx (rev ps) pv.
Proof.
  revert pv. induction ps as [|p r IH]; intros pv Hsw; [done|].
  simpl. intros [(nd & Hp & Hpv & Hnx) Hr].
  apply dseg_app. split.
  - simpl. apply IH; [|done]. intros q Hq. apply Hsw. by right.
  - simpl. split; [|done]. exists (swap_links nd). split.
    + rewrite Hsw, Hp by (by left). done.
    + simpl. by rewrite last_ptr_rev.
Qed.

Lemma fmap_rev {A B} (f : A → B) (l : list A) : f <$> rev l = rev (f <$> l).
Proof.
  induction l as [|x l IH]; [done|]. simpl. by rewrite fmap_app, IH.
Qed.

Lemma chain_rev al :
  rev (chain al) = chain (AList (a_tail al) (rev (a_cells al)) (a_head al)).
Proof.
  unfold chain. cbn [a_head a_cells a_tail]. simpl.
  rewrite rev_app_distr. simpl. by rewrite fmap_rev.
Qed.

(** What [reverse] does to the abstract list. *)
Definition reverse_alist al : alist :=
  if bool_decide (length (a_cells al) ≤ 1)%nat then al
  else AList (a_tail al) (rev (a_cells al)) (a_head al).

Lemma reverse_rep fuel a s i al :
  rep a s →
  a !! i = Some al →
  (length (a_cells al) + 2 < fuel)%nat →
  ∃ s', sjtu.reverse fuel i s = Ok tt s'
      ∧ rep (<[i := reverse_alist al]> a) s'
      ∧ same_data (heap s) (heap s').
Proof.
  intros Hrep Hi Hf.
  pose proof (rep_list _ _ Hrep _ _ Hi) as Hl.
  destruct Hl as (o & Ho & Hh & Ht & Hsz & Hlt & Hnd & Hseg & Hval).
  unfold sjtu.reverse, reverse_alist. step_with (size_ok s i o Ho).
  rewrite Hsz. case_bool_decide as Hlen.
  - rewrite (proj2 (Z.leb_le _ _)) by lia.
    exists s. split; [done|]. split; [|apply same_data_refl].
    by rewrite insert_id.
  - rewrite (proj2 (Z.leb_gt _ _)) by lia.
    step_with (load_obj_ok s i o Ho). rewrite Hh.
    destruct s as [h ob]. cbn [heap objs] in *.
    assert (Some (a_head al) = hd_ptr (chain al) None) as -> by done.
    erewrite bind_ok; cycle 1.
    { eapply reverse_loop_run; [done|done|].
      unfold chain. simpl. rewrite length_app, length_fmap. simpl. lia. }
    cbv beta.
    erewrite bind_ok; [|by apply load_obj_ok]. cbv beta.
    unfold store_obj. cbn [heap objs].
    eexists. split; [reflexivity|].
    assert (∀ q, q ∈ chain al → swap_all (chain al) h !! q = swap_links <$> h !! q)
      as Hin by (intros; by apply swap_all_in).
    split.
    + apply (rep_update a (State h ob)); [done| | |].
      * eapply is_list_intro;
          cbn [a_head a_cells a_tail head tail list_size heap objs].
        -- apply lookup_insert_eq.
        -- done.
        -- done.
        -- by rewrite length_rev.
        -- by rewrite length_rev.
        -- rewrite <- chain_rev. by rewrite <- Permutation_rev.
        -- rewrite <- chain_rev. by eapply dseg_rev.
        -- unfold holds in *. rewrite Forall_forall in *. intros c Hc.
           apply list_elem_of_In, in_rev, list_elem_of_In in Hc.
           destruct (Hval c Hc) as (nd & Hp & Hd).
           exists (swap_links nd). split; [|done].
           rewrite Hin, Hp; [done|].
           unfold chain. apply elem_of_cons. right. apply elem_of_app. left.
           apply list_elem_of_fmap. by exists c.
      * intros j aj q Hj Haj Hq. cbn [heap]. split.
        -- apply swap_all_notin. intros Hq'.
           by eapply (rep_disj _ _ Hrep j i).
        -- rewrite <- chain_rev. intros Hq'.
           apply list_elem_of_In, in_rev, list_elem_of_In in Hq'.
           by eapply (rep_disj _ _ Hrep j i).
      * intros j Hj. cbn [objs]. by rewrite lookup_insert_ne.
    + intros q. cbn [heap]. destruct (decide (q ∈ chain al)) as [Hq|Hq].
      * rewrite Hin by done. by destruct (h !! q).
      * by rewrite swap_all_notin.
Qed.
End Reverse.

(** ** merge *)

Section Merge.
Context {T : Type} {E : Elem T}.
Implicit Types (h : gmap positive (node T)) (s : state T)
  (a : gmap positive (@alist T)) (al : @alist T).

(** The order in which the two loops of [merge] leave the nodes: a node
    of [ys] goes first only when its value is strictly less than the
    value at the front of [xs]. *)
Fixpoint merge_cells (xs : list (positive * T)) : list (positive * T) → list (positive * T) :=
  fix inner (ys : list (positive * T)) : list (positive * T) :=
    match xs, ys with
    | [], _ => ys
    | _, [] => xs
    | x :: xs', y :: ys' =>
        if elt_lt y.2 x.2 then y :: inner ys'
        else x :: merge_cells xs' ys
    end.

Lemma merge_cells_nil_r xs : merge_cells xs [] = xs.
Proof. by destruct xs. Qed.

Lemma merge_cells_nil_l ys : merge_cells [] ys = ys.
Proof. by destruct ys. Qed.

Lemma merge_cells_cons x xs y ys :
  merge_cells (x :: xs) (y :: ys)
  = if elt_lt y.2 x.2 then y :: merge_cells (x :: xs) ys
    else x :: merge_cells xs (y :: ys).
Proof. done. Qed.

Lemma merge_cells_length xs ys :
  length (merge_cells xs ys) = (length xs + length ys)%nat.
Proof.
  revert ys. induction xs as [|x xs IHx]; intros ys; [by rewrite merge_cells_nil_l|].
  induction ys as [|y ys IHy]; [simpl; lia|].
  rewrite merge_cells_cons. destruct (elt_lt y.2 x.2).
  - cbn [length]. rewrite IHy. cbn [length]. lia.
  - cbn [length]. rewrite IHx. cbn [length]. lia.
Qed.

Definition with_cells al (cs : list (positive * T)) : alist :=
  AList (a_head al) cs (a_tail al).

Lemma insert2_absorb a i j (X Y X0 Y0 : @alist T) :
  i ≠ j →
  <[i:=X]> (<[j:=Y]> (<[i:=X0]> (<[j:=Y0]> a))) = <[i:=X]> (<[j:=Y]> a).
Proof.
  intros Hij. apply map_eq. intros k.
  destruct (decide (k = i)) as [->|Hki].
  - by rewrite !lookup_insert_eq.
  - rewrite !(lookup_insert_ne _ i k) by done.
    destruct (decide (k = j)) as [->|Hkj].
    + by rewrite !lookup_insert_eq.
    + by rewrite !lookup_insert_ne by done.
Qed.

Lemma merge_loop_rep fuel a s i j A B c1 c2 :
  rep a s →
  i ≠ j →
  a !! i = Some A →
  a !! j = Some B →
  a_cells A = c1 ++ c2 →
  (length c2 + length (a_cells B) < fuel)%nat →
  Z.of_nat (length (a_cells A) + length (a_cells B)) < size_t_mod →
  ∃ s' tp cA cB,
    sjtu.merge_loop fuel i j (Some (first_of c2 (a_tail A)))
      (Some (first_of (a_cells B) (a_tail B))) s
    = Ok (tp, Some (first_of cB (a_tail B))) s'
    ∧ rep (<[i := with_cells A cA]> (<[j := with_cells B cB]> a)) s'
    ∧ cA ++ cB = c1 ++ merge_cells c2 (a_cells B)
    ∧ same_data (heap s) (heap s').
Proof.
  revert a s A B c1 c2. induction fuel as [|fuel IH];
    intros a s A B c1 c2 Hrep Hij Hi Hj Hc Hf Hb; [lia|].
  pose proof (rep_list _ _ Hrep _ _ Hi) as Hli.
  pose proof (rep_list _ _ Hrep _ _ Hj) as Hlj.
  destruct (is_list_head _ _ _ Hli) as (oi & _ & Hoi & _ & Hti & _).
  destruct (is_list_head _ _ _ Hlj) as (oj & _ & Hoj & _ & Htj & _).
  cbn [sjtu.merge_loop]. step_with (load_obj_ok s i oi Hoi).
  rewrite Hti. unfold ptr_eqb.
  destruct c2 as [|[p x] c2].
  { (* this list is exhausted *)
    cbn [first_of]. rewrite bool_decide_eq_true_2 by done. cbn [negb].
    unfold ret at 1. unfold bind at 1.
    exists s, (Some (a_tail A)), (a_cells A), (a_cells B).
    split; [done|]. split; [|split; [|apply same_data_refl]].
    - unfold with_cells. destruct A as [hA cA tA], B as [hB cB tB].
      cbn [a_head a_cells a_tail].
      rewrite (insert_id a j) by done. by rewrite insert_id.
    - rewrite Hc, merge_cells_nil_l, app_nil_r. done. }
  destruct (is_list_node_ne s i A c1 p x c2 Hli Hc) as [_ Hpne].
  cbn [first_of fst]. rewrite bool_decide_eq_false_2 by congruence. cbn [negb].
  unfold bind at 1. step_with (load_obj_ok s j oj Hoj). unfold ret at 1.
  rewrite Htj.
  destruct (a_cells B) as [|[q y] d2] eqn:Hd.
  { (* the other list is exhausted *)
    cbn [first_of]. rewrite bool_decide_eq_true_2 by done. cbn [negb].
    exists s, (Some p), (a_cells A), [].
    split; [done|]. split; [|split; [|apply same_data_refl]].
    - unfold with_cells. destruct A as [hA cA tA], B as [hB cB tB].
      cbn [a_head a_cells a_tail] in *. subst.
      rewrite (insert_id a j) by done. by rewrite insert_id.
    - rewrite Hc, merge_cells_nil_r, app_nil_r. done. }
  destruct (is_list_node_ne s j B [] q y d2 Hlj Hd) as [_ Hqne].
  cbn [first_of fst]. rewrite bool_decide_eq_false_2 by congruence. cbn [negb].
  destruct (is_list_node s j B [] q y d2 Hlj Hd) as (nq & Hq & Hdq & _ & Hnq).
  destruct (is_list_node s i A c1 p x c2 Hli Hc) as (np & Hp & Hdp & _ & Hnp).
  step_with (load_node_ok s q nq Hq). step_with (load_node_ok s p np Hp).
  rewrite Hdq, Hdp, merge_cells_cons. cbn [snd].
  destruct (elt_lt y x) eqn:Hlt.
  - (* move the node of the other list before the current node *)
    destruct (erase_node_rep a s j B [] q y d2 Hrep Hj Hd)
      as (s1 & Her & Hrep1 & Hsame1 & Hfree1 & Hq1).
    cbn [app] in *. fold (with_cells B d2) in *.
    set (a1 := <[j := with_cells B d2]> a) in *.
    assert (a1 !! i = Some A) as Hi1 by (unfold a1; by rewrite lookup_insert_ne).
    destruct (insert_node_rep a1 s1 i A c1 ((p, x) :: c2) q nq y Hrep1 Hi1 Hc)
      as (s2 & Hins & Hrep2 & Hsame2).
    { by rewrite Hq1. }
    { done. }
    { done. }
    { cbn [length] in Hb. lia. }
    fold (with_cells A (c1 ++ (q, y) :: (p, x) :: c2)) in *.
    set (A2 := with_cells A (c1 ++ (q, y) :: (p, x) :: c2)) in *.
    set (a2 := <[i := A2]> a1) in *.
    destruct (IH a2 s2 A2 (with_cells B d2) (c1 ++ [(q, y)]) ((p, x) :: c2) Hrep2 Hij)
      as (s3 & tp & cA & cB & Hloop & Hrep3 & Heq & Hsame3).
    { unfold a2. apply lookup_insert_eq. }
    { unfold a2, a1. rewrite lookup_insert_ne by done. apply lookup_insert_eq. }
    { unfold A2. cbn [with_cells a_cells]. by rewrite <- app_assoc. }
    { cbn [with_cells a_cells]. simpl in Hf |- *. lia. }
    { unfold A2. cbn [with_cells a_cells]. rewrite Hc in Hb.
      rewrite !length_app in *. cbn [length] in *. lia. }
    exists s3, tp, cA, cB. split; [|split; [|split]].
    + rewrite Hnq. step_with Her. cbn [first_of fst] in Hins. step_with Hins.
      exact Hloop.
    + unfold a2, a1, A2, with_cells in Hrep3. cbn [a_head a_cells a_tail] in Hrep3.
      by rewrite insert2_absorb in Hrep3.
    + rewrite Heq. cbn [with_cells a_cells]. by rewrite <- app_assoc.
    + eapply same_data_trans; [|exact Hsame3].
      eapply same_data_trans; [exact Hsame1|exact Hsame2].
  - (* keep the current node and advance *)
    destruct (IH a s A B (c1 ++ [(p, x)]) c2 Hrep Hij Hi Hj)
      as (s3 & tp & cA & cB & Hloop & Hrep3 & Heq & Hsame3).
    { rewrite <- app_assoc. exact Hc. }
    { rewrite Hd. simpl in Hf |- *. lia. }
    { by rewrite Hd. }
    exists s3, tp, cA, cB. split; [|split; [done|split; [|done]]].
    + rewrite Hnp. rewrite Hd in Hloop. exact Hloop.
    + rewrite Heq, Hd. by rewrite <- app_assoc.
Qed.

Lemma merge_drain_rep fuel a s i j A B :
  rep a s →
  i ≠ j →
  a !! i = Some A →
  a !! j = Some B →
  (length (a_cells B) < fuel)%nat →
  Z.of_nat (length (a_cells A) + length (a_cells B)) < size_t_mod →
  ∃ s',
    sjtu.merge_drain fuel i j (Some (first_of (a_cells B) (a_tail B))) s = Ok tt s'
    ∧ rep (<[i := with_cells A (a_cells A ++ a_cells B)]> (<[j := with_cells B []]> a)) s'
    ∧ same_data (heap s) (heap s').
Proof.
  revert a s A B. induction fuel as [|fuel IH];
    intros a s A B Hrep Hij Hi Hj Hf Hb; [lia|].
  pose proof (rep_list _ _ Hrep _ _ Hi) as Hli.
  pose proof (rep_list _ _ Hrep _ _ Hj) as Hlj.
  destruct (is_list_head _ _ _ Hlj) as (oj & _ & Hoj & _ & Htj & _).
  cbn [sjtu.merge_drain]. step_with (load_obj_ok s j oj Hoj).
  rewrite Htj. unfold ptr_eqb.
  destruct (a_cells B) as [|[q y] d2] eqn:Hd.
  { cbn [first_of]. rewrite bool_decide_eq_true_2 by done. cbn [negb].
    exists s. split; [done|]. split; [|apply same_data_refl].
    unfold with_cells. destruct A as [hA cA tA], B as [hB cB tB].
    cbn [a_head a_cells a_tail] in *. subst. rewrite app_nil_r.
    rewrite (insert_id a j) by done. by rewrite insert_id. }
  destruct (is_list_node_ne s j B [] q y d2 Hlj Hd) as [_ Hqne].
  cbn [first_of fst]. rewrite bool_decide_eq_false_2 by congruence. cbn [negb].
  destruct (is_list_node s j B [] q y d2 Hlj Hd) as (nq & Hq & Hdq & _ & Hnq).
  step_with (load_node_ok s q nq Hq).
  destruct (erase_node_rep a s j B [] q y d2 Hrep Hj Hd)
    as (s1 & Her & Hrep1 & Hsame1 & Hfree1 & Hq1).
  cbn [app] in *. fold (with_cells B d2) in *.
  set (a1 := <[j := with_cells B d2]> a) in *.
  assert (a1 !! i = Some A) as Hi1 by (unfold a1; by rewrite lookup_insert_ne).
  destruct (is_list_head _ _ _ (rep_list _ _ Hrep1 _ _ Hi1)) as (oi & _ & Hoi & _ & Hti & _).
  destruct (insert_node_rep a1 s1 i A (a_cells A) [] q nq y Hrep1 Hi1)
    as (s2 & Hins & Hrep2 & Hsame2).
  { by rewrite app_nil_r. }
  { by rewrite Hq1. }
  { done. }
  { done. }
  { cbn [length] in Hb. lia. }
  fold (with_cells A (a_cells A ++ [(q, y)])) in *.
  set (A2 := with_cells A (a_cells A ++ [(q, y)])) in *.
  set (a2 := <[i := A2]> a1) in *.
  destruct (IH a2 s2 A2 (with_cells B d2) Hrep2 Hij) as (s3 & Hloop & Hrep3 & Hsame3).
  { unfold a2. apply lookup_insert_eq. }
  { unfold a2, a1. rewrite lookup_insert_ne by done. apply lookup_insert_eq. }
  { cbn [with_cells a_cells]. simpl in Hf. lia. }
  { unfold A2. cbn [with_cells a_cells].
    rewrite !length_app in *. cbn [length] in *. lia. }
  exists s3. split; [|split].
  - rewrite Hnq. step_with Her. step_with (load_obj_ok s1 i oi Hoi). rewrite Hti.
    cbn [first_of] in Hins. step_with Hins. exact Hloop.
  - unfold a2, a1, A2, with_cells in Hrep3. cbn [a_head a_cells a_tail] in Hrep3.
    rewrite insert2_absorb in Hrep3 by done.
    by rewrite <- app_assoc in Hrep3.
  - eapply same_data_trans; [|exact Hsame3].
    eapply same_data_trans; [exact Hsame1|exact Hsame2].
Qed.

Lemma merge_rep fuel a s i j A B :
  rep a s →
  i ≠ j →
  a !! i = Some A →
  a !! j = Some B →
  (length (a_cells A) + length (a_cells B) < fuel)%nat →
  Z.of_nat (length (a_cells A) + length (a_cells B)) < size_t_mod →
  ∃ s',
    sjtu.merge fuel i j s = Ok tt s'
    ∧ rep (<[i := with_cells A (merge_cells (a_cells A) (a_cells B))]>
             (<[j := with_cells B []]> a)) s'
    ∧ same_data (heap s) (heap s').
Proof.
  intros Hrep Hij Hi Hj Hf Hb.
  pose proof (rep_list _ _ Hrep _ _ Hi) as Hli.
  pose proof (rep_list _ _ Hrep _ _ Hj) as Hlj.
  destruct (is_list_head _ _ _ Hli) as (oi & ni & Hoi & Hhi & _ & _ & Hni & _ & Hnxi).
  destruct (is_list_head _ _ _ Hlj) as (oj & nj & Hoj & Hhj & _ & _ & Hnj & _ & Hnxj).
  destruct (merge_loop_rep fuel a s i j A B [] (a_cells A) Hrep Hij Hi Hj)
    as (s1 & tp & cA & cB & Hloop & Hrep1 & Heq & Hsame1); try done.
  set (a1 := <[i:=with_cells A cA]> (<[j:=with_cells B cB]> a)) in *.
  assert (length cA + length cB = length (a_cells A) + length (a_cells B))%nat as Hlen.
  { rewrite <- length_app, Heq. cbn [app]. apply merge_cells_length. }
  destruct (merge_drain_rep fuel a1 s1 i j (with_cells A cA) (with_cells B cB) Hrep1 Hij)
    as (s2 & Hdrain & Hrep2 & Hsame2).
  { unfold a1. apply lookup_insert_eq. }
  { unfold a1. rewrite lookup_insert_ne by done. apply lookup_insert_eq. }
  { cbn [with_cells a_cells]. lia. }
  { cbn [with_cells a_cells]. lia. }
  exists s2. split; [|split].
  - unfold sjtu.merge. rewrite bool_decide_eq_false_2 by done.
    step_with (load_obj_ok s i oi Hoi). rewrite Hhi.
    step_with (load_node_ok s _ ni Hni). rewrite Hnxi.
    step_with (load_obj_ok s j oj Hoj). rewrite Hhj.
    step_with (load_node_ok s _ nj Hnj). rewrite Hnxj.
    step_with Hloop. exact Hdrain.
  - unfold a1, with_cells in Hrep2. cbn [a_head a_cells a_tail] in Hrep2.
    rewrite insert2_absorb in Hrep2 by done. by rewrite Heq in Hrep2.
  - by eapply same_data_trans.
Qed.

Lemma merge_self fuel s i : sjtu.merge fuel i i s = Ok tt s.
Proof. unfold sjtu.merge. by rewrite bool_decide_eq_true_2. Qed.
End Merge.

(** ** The merge order *)

Section MergeOrder.
Context {T : Type} {E : Elem T}.
Implicit Types (xs ys : list (positive * T)).

(** [operator<] as a strict weak order. *)
Record strict_weak_order : Prop := {
  swo_irrefl : ∀ x : T, elt_lt x x = false;
  swo_trans : ∀ x y z : T, elt_lt x y = true → elt_lt y z = true → elt_lt x z = true;
  swo_cotrans : ∀ x y z : T,
      elt_lt x z = true → elt_lt x y = true ∨ elt_lt y z = true
}.

(** Ascending by [operator<]: no value is less than an earlier one. *)
Definition ascending (l : list T) : Prop :=
  StronglySorted (λ x y, elt_lt y x = false) l.

(** [c] occurs somewhere before [d] in [l]. *)
Fixpoint precedes (c d : positive * T) (l : list (positive * T)) : Prop :=
  match l with
  | [] => False
  | z :: r => (z = c ∧ d ∈ r) ∨ precedes c d r
  end.

Lemma merge_cells_perm xs ys : merge_cells xs ys ≡ₚ xs ++ ys.
Proof.
  revert ys. induction xs as [|x xs IHx]; intros ys; [by rewrite merge_cells_nil_l|].
  induction ys as [|y ys IHy]; [by rewrite merge_cells_nil_r, app_nil_r|].
  rewrite merge_cells_cons. destruct (elt_lt y.2 x.2).
  - rewrite IHy. by rewrite (Permutation_middle (x :: xs) ys y).
  - rewrite IHx. done.
Qed.

Lemma merge_cells_sublist_l xs ys : xs `sublist_of` merge_cells xs ys.
Proof.
  revert ys. induction xs as [|x xs IHx]; intros ys; [apply sublist_nil_l|].
  induction ys as [|y ys IHy]; [by rewrite merge_cells_nil_r|].
  rewrite merge_cells_cons. destruct (elt_lt y.2 x.2).
  - by apply sublist_cons.
  - by apply sublist_skip.
Qed.

Lemma merge_cells_sublist_r xs ys : ys `sublist_of` merge_cells xs ys.
Proof.
  revert ys. induction xs as [|x xs IHx]; intros ys; [by rewrite merge_cells_nil_l|].
  induction ys as [|y ys IHy]; [apply sublist_nil_l|].
  rewrite merge_cells_cons. destruct (elt_lt y.2 x.2).
  - by apply sublist_skip.
  - by apply sublist_cons.
Qed.

Lemma ascending_cons_inv (x : T) l :
  ascending (x :: l) → ascending l ∧ ∀ y, y ∈ l → elt_lt y x = false.
Proof.
  intros Hs. apply StronglySorted_inv in Hs as [Hl Hx]. split; [done|].
  intros y Hy. rewrite List.Forall_forall in Hx. apply Hx. by apply list_elem_of_In.
Qed.

Lemma ascending_cons (x : T) l :
  ascending l → (∀ y, y ∈ l → elt_lt y x = false) → ascending (x :: l).
Proof.
  intros Hl Hx. apply SSorted_cons; [done|]. apply List.Forall_forall.
  intros y Hy. apply Hx. by apply list_elem_of_In.
Qed.

Lemma merge_cells_ascending xs ys :
  strict_weak_order →
  ascending xs.*2 → ascending ys.*2 → ascending (merge_cells xs ys).*2.
Proof.
  intros [Hirr Htr Hco].
  revert ys. induction xs as [|x xs IHx]; intros ys Hxs Hys;
    [by rewrite merge_cells_nil_l|].
  induction ys as [|y ys IHy]; [by rewrite merge_cells_nil_r|].
  rewrite merge_cells_cons. rewrite !fmap_cons in Hxs, Hys.
  apply ascending_cons_inv in Hxs as Hxs'. destruct Hxs' as [Hxs' Hx].
  apply ascending_cons_inv in Hys as Hys'. destruct Hys' as [Hys' Hy].
  destruct (elt_lt y.2 x.2) eqn:Hlt; rewrite fmap_cons.
  - apply ascending_cons; [by apply IHy|].
    intros z Hz. rewrite merge_cells_perm, fmap_app, fmap_cons in Hz.
    apply elem_of_app in Hz as [Hz|Hz]; [|by apply Hy].
    destruct (elt_lt z y.2) eqn:Hzy; [|done]. exfalso.
    apply elem_of_cons in Hz as [->|Hz].
    + pose proof (Htr _ _ _ Hlt Hzy) as Hbad. by rewrite Hirr in Hbad.
    + pose proof (Htr _ _ _ Hzy Hlt) as Hbad. by rewrite (Hx z Hz) in Hbad.
  - apply ascending_cons; [by apply IHx|].
    intros z Hz. rewrite merge_cells_perm, fmap_app, fmap_cons in Hz.
    apply elem_of_app in Hz as [Hz|Hz]; [by apply Hx|].
    destruct (elt_lt z x.2) eqn:Hzx; [|done]. exfalso.
    destruct (Hco _ y.2 _ Hzx) as [Hzy|Hyx]; [|congruence].
    apply elem_of_cons in Hz as [->|Hz].
    + by rewrite Hirr in Hzy.
    + by rewrite (Hy z Hz) in Hzy.
Qed.

(** Ties go to the first list: a node of [ys] that ends up before a node
    of [xs] holds a strictly smaller value. *)
Lemma merge_cells_tie_break xs ys c d :
  strict_weak_order →
  ascending xs.*2 →
  (∀ z, z ∈ xs → z ∉ ys) →
  c ∈ ys → d ∈ xs →
  precedes c d (merge_cells xs ys) →
  elt_lt c.2 d.2 = true.
Proof.
  intros [Hirr Htr Hco].
  revert ys. induction xs as [|x xs IHx]; intros ys Hxs Hdisj Hc Hd Hpre.
  { by apply elem_of_nil in Hd. }
  induction ys as [|y ys IHy].
  { by apply elem_of_nil in Hc. }
  rewrite merge_cells_cons in Hpre. rewrite fmap_cons in Hxs.
  apply ascending_cons_inv in Hxs as Hxs'. destruct Hxs' as [Hxs' Hx].
  assert (c ∉ x :: xs) as Hcx by (intros Hin; by apply (Hdisj c)).
  assert (d ∉ y :: ys) as Hdy by (by apply Hdisj).
  destruct (elt_lt y.2 x.2) eqn:Hlt; cbn [precedes] in Hpre.
  - destruct Hpre as [[-> _]|Hpre].
    + apply elem_of_cons in Hd as [->|Hd]; [done|].
      destruct (Hco _ d.2 _ Hlt) as [?|Hbad]; [done|].
      rewrite Hx in Hbad; [done|]. apply list_elem_of_fmap. by exists d.
    + apply IHy; [| |done].
      * intros z Hz Hz'. apply (Hdisj z Hz). by right.
      * assert (c ∈ merge_cells (x :: xs) ys) as Hcin.
        { clear -Hpre. induction (merge_cells (x :: xs) ys) as [|z r IH]; [done|].
          cbn [precedes] in Hpre. destruct Hpre as [[-> _]|Hpre]; [by left|].
          right. by apply IH. }
        rewrite merge_cells_perm in Hcin. apply elem_of_app in Hcin as [?|?]; done.
  - destruct Hpre as [[-> _]|Hpre].
    + exfalso. apply Hcx. by left.
    + apply (IHx (y :: ys)); [done| |done| |done].
      * intros z Hz. apply Hdisj. by right.
      * assert (d ∈ merge_cells xs (y :: ys)) as Hdin.
        { clear -Hpre. induction (merge_cells xs (y :: ys)) as [|z r IH]; [done|].
          cbn [precedes] in Hpre. destruct Hpre as [[_ Hd]|Hpre]; [by right|].
          right. by apply IH. }
        rewrite merge_cells_perm in Hdin. apply elem_of_app in Hdin as [?|?]; done.
Qed.
End MergeOrder.

(** ** unique *)

Section Unique.
Context {T : Type} {E : Elem T}.
Implicit Types (s : state T) (a : gmap positive (@alist T)) (al : @alist T).

(** The survivors of the loop of [unique] when [x] is the element the
    first cursor rests on and [l] is what follows it. *)
Fixpoint unique_cells (x : positive * T) (l : list (positive * T))
  : list (positive * T) :=
  match l with
  | [] => [x]
  | y :: r =>
      if elt_eq x.2 y.2 then unique_cells x r
      else x :: unique_cells y r
  end.

Definition unique_list (l : list (positive * T)) : list (positive * T) :=
  match l with
  | [] => []
  | x :: r => unique_cells x r
  end.

Lemma unique_loop_rep fuel a s i al c1 p x c2 :
  rep a s →
  a !! i = Some al →
  a_cells al = c1 ++ (p, x) :: c2 →
  (length c2 < fuel)%nat →
  ∃ s',
    sjtu.unique_loop fuel i (Iter (Some p) (Some i))
      (Iter (Some (first_of c2 (a_tail al))) (Some i)) s = Ok tt s'
    ∧ rep (<[i := with_cells al (c1 ++ unique_cells (p, x) c2)]> a) s'.
Proof.
  revert a s al c1 p x c2. induction fuel as [|fuel IH];
    intros a s al c1 p x c2 Hrep Hi Hc Hf; [lia|].
  pose proof (rep_list _ _ Hrep _ _ Hi) as Hl.
  destruct (is_list_head _ _ _ Hl) as (o & _ & Ho & _ & Ht & _).
  cbn [sjtu.unique_loop]. step_with (end_ok s i o Ho).
  unfold iterator.neq, ptr_eqb. cbn [current]. rewrite Ht.
  destruct c2 as [|[q y] c2].
  { cbn [first_of]. rewrite bool_decide_eq_true_2 by done. cbn [negb].
    exists s. split; [done|]. cbn [unique_cells]. rewrite <- Hc.
    unfold with_cells. destruct al as [hA cA tA]. cbn [a_head a_cells a_tail].
    by rewrite insert_id. }
  assert (a_cells al = (c1 ++ [(p, x)]) ++ (q, y) :: c2) as Hc'
    by (by rewrite <- app_assoc).
  destruct (is_list_node_ne s i al _ q y c2 Hl Hc') as [_ Hqne].
  cbn [first_of fst]. rewrite bool_decide_eq_false_2 by congruence. cbn [negb].
  step_with (iter_deref_node s i al c1 p x _ Hl Hc).
  step_with (load_data_node s i al c1 p x _ Hl Hc).
  step_with (iter_deref_node s i al _ q y c2 Hl Hc').
  step_with (load_data_node s i al _ q y c2 Hl Hc').
  cbn [unique_cells snd].
  destruct (elt_eq x y) eqn:Heq.
  - destruct (erase_rep a s i al _ q y c2 Hrep Hi Hc') as (s1 & Her & Hrep1 & _).
    rewrite <- app_assoc in Hrep1. cbn [app] in Hrep1.
    fold (with_cells al (c1 ++ (p, x) :: c2)) in Hrep1.
    destruct (IH _ s1 (with_cells al (c1 ++ (p, x) :: c2)) c1 p x c2 Hrep1)
      as (s2 & Hloop & Hrep2).
    { apply lookup_insert_eq. }
    { done. }
    { simpl in Hf. lia. }
    exists s2. split.
    + step_with Her. exact Hloop.
    + rewrite insert_insert_eq in Hrep2. exact Hrep2.
  - destruct (IH a s al (c1 ++ [(p, x)]) q y c2 Hrep Hi Hc')
      as (s2 & Hloop & Hrep2).
    { simpl in Hf. lia. }
    exists s2. split.
    + step_with (iter_preinc_node s i al c1 p x _ Hl Hc). cbn [first_of fst].
      step_with (iter_preinc_node s i al _ q y c2 Hl Hc').
      exact Hloop.
    + by rewrite <- app_assoc in Hrep2.
Qed.

Lemma unique_rep fuel a s i al :
  rep a s →
  a !! i = Some al →
  (length (a_cells al) < fuel)%nat →
  ∃ s', sjtu.unique fuel i s = Ok tt s'
      ∧ rep (<[i := with_cells al (unique_list (a_cells al))]> a) s'.
Proof.
  intros Hrep Hi Hf.
  pose proof (rep_list _ _ Hrep _ _ Hi) as Hl.
  destruct (is_list_head _ _ _ Hl) as (o & _ & Ho & _ & Ht & Hsz & _).
  unfold sjtu.unique. step_with (size_ok s i o Ho). rewrite Hsz.
  destruct (a_cells al) as [|[p x] c2] eqn:Hc.
  { exists s. split; [done|]. cbn [unique_list]. rewrite <- Hc.
    unfold with_cells. destruct al as [hA cA tA]. cbn [a_head a_cells a_tail].
    by rewrite insert_id. }
  destruct c2 as [|[q y] c2].
  { exists s. split; [done|]. cbn [unique_list unique_cells]. rewrite <- Hc.
    unfold with_cells. destruct al as [hA cA tA]. cbn [a_head a_cells a_tail].
    by rewrite insert_id. }
  rewrite (proj2 (Z.leb_gt _ _)) by (cbn [length]; lia).
  step_with (begin_ok s i al Hl). rewrite Hc. cbn [first_of fst].
  step_with (iter_preinc_node s i al [] p x _ Hl Hc).
  destruct (unique_loop_rep fuel a s i al [] p x ((q, y) :: c2) Hrep Hi Hc)
    as (s' & Hloop & Hrep').
  { simpl in Hf |- *. lia. }
  exists s'. split; [exact Hloop|exact Hrep'].
Qed.

(** *** The survivors, in the words of the specification *)

(** Of every maximal run of adjacent equal elements the first one
    survives: an element is dropped exactly when it equals the element
    just before it. *)
Fixpoint drop_repeats (before : T) (l : list (positive * T))
  : list (positive * T) :=
  match l with
  | [] => []
  | y :: r =>
      if elt_eq before y.2 then drop_repeats y.2 r
      else y :: drop_repeats y.2 r
  end.

Definition run_heads (l : list (positive * T)) : list (positive * T) :=
  match l with
  | [] => []
  | x :: r => x :: drop_repeats x.2 r
  end.

(** [operator==] relates the same elements from either side and through
    a common element. *)
Record equality_like : Prop := {
  eq_sym : ∀ x y : T, elt_eq x y = true → elt_eq y x = true;
  eq_trans : ∀ x y z : T, elt_eq x y = true → elt_eq y z = true → elt_eq x z = true
}.

Lemma drop_repeats_equal x y l :
  equality_like → elt_eq x y = true → drop_repeats x l = drop_repeats y l.
Proof.
  intros [Hsym Htrans] Hxy. destruct l as [|z r]; [done|]. cbn [drop_repeats].
  destruct (elt_eq x z.2) eqn:Hxz, (elt_eq y z.2) eqn:Hyz; try done.
  - pose proof (Htrans _ _ _ (Hsym _ _ Hxy) Hxz). congruence.
  - pose proof (Htrans _ _ _ Hxy Hyz). congruence.
Qed.

Lemma unique_cells_run_heads x l :
  equality_like → unique_cells x l = x :: drop_repeats x.2 l.
Proof.
  intros Heq. revert x. induction l as [|y r IH]; intros x; [done|].
  cbn [unique_cells drop_repeats]. destruct (elt_eq x.2 y.2) eqn:Hxy.
  - rewrite IH. f_equal. by apply drop_repeats_equal.
  - by rewrite IH.
Qed.

Lemma unique_list_run_heads l : equality_like → unique_list l = run_heads l.
Proof. intros Heq. destruct l as [|x r]; [done|]. by apply unique_cells_run_heads. Qed.

Lemma unique_cells_sublist x l : unique_cells x l `sublist_of` x :: l.
Proof.
  revert x. induction l as [|y r IH]; intros x; [done|].
  cbn [unique_cells]. destruct (elt_eq x.2 y.2).
  - etrans; [apply IH|]. by apply sublist_skip, sublist_cons.
  - apply sublist_skip, IH.
Qed.

Lemma unique_list_sublist l : unique_list l `sublist_of` l.
Proof. destruct l; [done|]. apply unique_cells_sublist. Qed.
End Unique.

(** ** sort *)

Section Sort.
Context {T : Type} {E : Elem T}.
Implicit Types (h : gmap positive (node T)) (s : state T)
  (a : gmap positive (@alist T)) (al : @alist T).

(** Heaps that differ in stored values only. *)
Definition same_links h h' : Prop :=
  ∀ q, (λ nd, (prev nd, next nd)) <$> (h' !! q)
       = (λ nd, (prev nd, next nd)) <$> (h !! q).

Lemma same_links_refl h : same_links h h.
Proof. by intros q. Qed.

Lemma same_links_trans h1 h2 h3 :
  same_links h1 h2 → same_links h2 h3 → same_links h1 h3.
Proof. intros H12 H23 q. by rewrite H23, H12. Qed.

Lemma same_links_dom h h' : same_links h h' → dom h' = dom h.
Proof.
  intros Hd. apply set_eq. intros q. rewrite !elem_of_dom.
  specialize (Hd q).
  destruct (h' !! q), (h !! q); simpl in *; try done;
    split; intros [? ?]; done.
Qed.

Lemma dseg_same_links h h' pv ps nx :
  same_links h h' → dseg h pv ps nx → dseg h' pv ps nx.
Proof.
  intros Hs. revert pv. induction ps as [|p r IH]; intros pv; [done|].
  simpl. intros [(nd & Hp & Hpv & Hnx) Hr]. split; [|by apply IH].
  specialize (Hs p). rewrite Hp in Hs. simpl in Hs.
  destruct (h' !! p) as [nd'|]; [|done]. simpl in Hs.
  exists nd'. split; [done|]. split; congruence.
Qed.

(** [*it = v] on a node of a list. *)
Lemma store_data_rep a s i al c1 p v c2 v' :
  rep a s →
  a !! i = Some al →
  a_cells al = c1 ++ (p, v) :: c2 →
  ∃ s', store_data p v' s = Ok tt s'
      ∧ rep (<[i := with_cells al (c1 ++ (p, v') :: c2)]> a) s'
      ∧ same_links (heap s) (heap s').
Proof.
  intros Hrep Hi Hc.
  pose proof (rep_list _ _ Hrep _ _ Hi) as Hl.
  destruct (is_list_node s i al c1 p v c2 Hl Hc) as (nd & Hp & Hd & Hpv & Hnx).
  destruct Hl as (o & Ho & Hh & Ht & Hsz & Hlt & Hnd & Hseg & Hval).
  assert (chain (with_cells al (c1 ++ (p, v') :: c2)) = chain al) as Hchain.
  { unfold chain, with_cells. cbn [a_head a_cells a_tail].
    by rewrite Hc, !fmap_app, !fmap_cons. }
  set (h' := <[p := Node (Some v') (prev nd) (next nd)]> (heap s)).
  assert (same_links (heap s) h') as Hsl.
  { intros q. unfold h'. destruct (decide (p = q)) as [<-|Hne].
    - by rewrite lookup_insert_eq, Hp.
    - by rewrite lookup_insert_ne. }
  exists (State h' (objs s)). split; [|split; [|done]].
  - unfold store_data. by rewrite (store_node_ok s p nd _ Hp).
  - apply (rep_update a s); [done| | |].
    + apply (is_list_intro _ _ _ o);
        cbn [with_cells a_head a_cells a_tail heap objs]; try done.
      * rewrite Hsz, Hc, !length_app. done.
      * rewrite Hc, !length_app in Hlt. by rewrite !length_app.
      * by rewrite Hchain.
      * rewrite Hchain. by eapply dseg_same_links.
      * rewrite Hc in Hval. apply holds_app in Hval as [Hv1 Hv2].
        apply Forall_cons in Hv2 as [_ Hv2].
        unfold chain in Hnd. rewrite Hc, fmap_app, fmap_cons in Hnd. cbn [fst] in Hnd.
        apply NoDup_cons in Hnd as [_ Hnd]. rewrite <- app_assoc in Hnd.
        apply NoDup_app in Hnd as (_ & Hp1 & Hnd). cbn [app] in Hnd.
        apply NoDup_cons in Hnd as [Hp2 _].
        apply holds_app. split; [|apply Forall_cons; split].
        -- eapply holds_frame; [|exact Hv1]. intros q Hq. unfold h'.
           apply lookup_insert_ne. intros <-. apply (Hp1 p Hq). by left.
        -- exists (Node (Some v') (prev nd) (next nd)). split; [|done].
           unfold h'. apply lookup_insert_eq.
        -- eapply holds_frame; [|exact Hv2]. intros q Hq. unfold h'.
           apply lookup_insert_ne. intros <-. apply Hp2.
           apply elem_of_app. by left.
    + intros j aj q Hj Haj Hq. cbn [heap]. rewrite Hchain. split.
      * unfold h'. apply lookup_insert_ne. intros <-.
        eapply (rep_disj _ _ Hrep j i); [done..| |]; [exact Hq|].
        unfold chain. rewrite Hc, fmap_app, fmap_cons.
        rewrite elem_of_cons, !elem_of_app, elem_of_cons. tauto.
      * by eapply (rep_disj _ _ Hrep j i).
    + done.
Qed.

(** The first loop reads the values out, in list order. *)
Lemma sort_fill_run fuel s i al n c1 c2 acc :
  is_list s i al →
  a_cells al = c1 ++ c2 →
  (length c2 < fuel)%nat →
  (length acc + length c2 ≤ n)%nat →
  sjtu.sort_fill fuel i n (Iter (Some (first_of c2 (a_tail al))) (Some i))
    acc (length acc) s
  = Ok (acc ++ c2.*2) s.
Proof.
  revert c1 c2 acc. induction fuel as [|fuel IH]; intros c1 c2 acc Hl Hc Hf Hn; [lia|].
  destruct (is_list_head _ _ _ Hl) as (o & _ & Ho & _ & Ht & _).
  cbn [sjtu.sort_fill]. step_with (end_ok s i o Ho).
  unfold iterator.neq, ptr_eqb. cbn [current]. rewrite Ht.
  destruct c2 as [|[p v] c2].
  { cbn [first_of]. rewrite bool_decide_eq_true_2 by done. cbn [negb].
    by rewrite app_nil_r. }
  destruct (is_list_node_ne s i al c1 p v c2 Hl Hc) as [_ Hne].
  cbn [first_of fst]. rewrite bool_decide_eq_false_2 by congruence. cbn [negb].
  step_with (iter_deref_node s i al c1 p v c2 Hl Hc).
  step_with (load_data_node s i al c1 p v c2 Hl Hc).
  rewrite bool_decide_eq_true_2 by (cbn [length] in Hn; lia).
  step_with (iter_preinc_node s i al c1 p v c2 Hl Hc).
  assert (S (length acc) = length (acc ++ [v])) as ->
    by (rewrite length_app; simpl; lia).
  rewrite (IH (c1 ++ [(p, v)]) c2 (acc ++ [v])); try done.
  - by rewrite fmap_cons, <- app_assoc.
  - by rewrite <- app_assoc.
  - simpl in Hf. lia.
  - rewrite length_app. simpl in *. lia.
Qed.

(** The second loop writes [arr] over the nodes, in list order. *)
Lemma sort_write_back_rep fuel a s i al c1 c2 arr :
  rep a s →
  a !! i = Some al →
  a_cells al = c1 ++ c2 →
  (length c2 < fuel)%nat →
  length arr = length (a_cells al) →
  ∃ s',
    sjtu.sort_write_back fuel i (Iter (Some (first_of c2 (a_tail al))) (Some i))
      arr (length c1) s = Ok tt s'
    ∧ rep (<[i := with_cells al (c1 ++ zip c2.*1 (drop (length c1) arr))]> a) s'
    ∧ same_links (heap s) (heap s').
Proof.
  revert a s al c1 c2. induction fuel as [|fuel IH];
    intros a s al c1 c2 Hrep Hi Hc Hf Hlen; [lia|].
  pose proof (rep_list _ _ Hrep _ _ Hi) as Hl.
  destruct (is_list_head _ _ _ Hl) as (o & _ & Ho & _ & Ht & _).
  cbn [sjtu.sort_write_back]. step_with (end_ok s i o Ho).
  unfold iterator.neq, ptr_eqb. cbn [current]. rewrite Ht.
  destruct c2 as [|[p v] c2].
  { cbn [first_of]. rewrite bool_decide_eq_true_2 by done. cbn [negb].
    exists s. split; [done|]. split; [|apply same_links_refl].
    cbn [fmap list_fmap zip zip_with]. rewrite <- Hc.
    unfold with_cells. destruct al as [hA cA tA]. cbn [a_head a_cells a_tail].
    by rewrite insert_id. }
  destruct (is_list_node_ne s i al c1 p v c2 Hl Hc) as [_ Hne].
  cbn [first_of fst]. rewrite bool_decide_eq_false_2 by congruence. cbn [negb].
  step_with (iter_deref_node s i al c1 p v c2 Hl Hc).
  destruct (lookup_lt_is_Some_2 arr (length c1)) as [v' Hv'].
  { rewrite Hlen, Hc, length_app. simpl. lia. }
  rewrite Hv'.
  destruct (store_data_rep a s i al c1 p v c2 v' Hrep Hi Hc) as (s1 & Hst & Hrep1 & Hsl1).
  set (al1 := with_cells al (c1 ++ (p, v') :: c2)) in *.
  assert (a_cells al1 = (c1 ++ [(p, v')]) ++ c2) as Hc1
    by (unfold al1; cbn [with_cells a_cells]; by rewrite <- app_assoc).
  destruct (IH _ s1 al1 (c1 ++ [(p, v')]) c2 Hrep1) as (s2 & Hloop & Hrep2 & Hsl2).
  { apply lookup_insert_eq. }
  { done. }
  { simpl in Hf. lia. }
  { rewrite Hlen, Hc, Hc1, !length_app. simpl. lia. }
  exists s2. split; [|split].
  - step_with Hst.
    assert (is_list s1 i al1) as Hl1 by (eapply rep_list; [done|apply lookup_insert_eq]).
    assert (a_cells al1 = c1 ++ (p, v') :: c2) as Hc1' by done.
    step_with (iter_preinc_node s1 i al1 c1 p v' c2 Hl1 Hc1').
    rewrite length_app in Hloop. simpl in Hloop.
    replace (length c1 + 1)%nat with (S (length c1)) in Hloop by lia.
    exact Hloop.
  - rewrite insert_insert_eq in Hrep2. unfold al1, with_cells in Hrep2 |- *.
    cbn [a_head a_cells a_tail] in Hrep2 |- *.
    rewrite <- app_assoc, length_app in Hrep2. simpl in Hrep2.
    rewrite (drop_S _ _ _ Hv'). rewrite fmap_cons. cbn [zip zip_with fst].
    replace (length c1 + 1)%nat with (S (length c1)) in Hrep2 by lia.
    exact Hrep2.
  - by eapply same_links_trans.
Qed.

(** What [sort] leaves in the nodes. *)
Definition sort_cells (S : sorter T) (cs : list (positive * T)) : list (positive * T) :=
  if bool_decide (length cs ≤ 1)%nat then cs
  else zip cs.*1 (sort_buf S (λ x y, elt_lt x y) cs.*2).

Lemma sort_rep (S : sorter T) fuel a s i al :
  rep a s →
  a !! i = Some al →
  (length (a_cells al) < fuel)%nat →
  ∃ s', sjtu.sort S fuel i s = Ok tt s'
      ∧ rep (<[i := with_cells al (sort_cells S (a_cells al))]> a) s'
      ∧ same_links (heap s) (heap s').
Proof.
  intros Hrep Hi Hf.
  pose proof (rep_list _ _ Hrep _ _ Hi) as Hl.
  destruct (is_list_head _ _ _ Hl) as (o & _ & Ho & _ & Ht & Hsz & _).
  unfold sjtu.sort, sort_cells. step_with (size_ok s i o Ho). rewrite Hsz.
  case_bool_decide as Hlen.
  - rewrite (proj2 (Z.leb_le _ _)) by lia.
    exists s. split; [done|]. split; [|apply same_links_refl].
    unfold with_cells. destruct al as [hA cA tA]. cbn [a_head a_cells a_tail].
    by rewrite insert_id.
  - rewrite (proj2 (Z.leb_gt _ _)) by lia.
    step_with (size_ok s i o Ho). rewrite Hsz, Nat2Z.id.
    step_with (begin_ok s i al Hl).
    change 0%nat with (length (@nil T)).
    rewrite (bind_ok _ _ _ _ _ (sort_fill_run fuel s i al (length (a_cells al)) []
                                (a_cells al) [] Hl eq_refl Hf ltac:(simpl; lia))).
    cbv beta. cbn [app].
    rewrite bool_decide_eq_true_2 by (by rewrite length_fmap).
    step_with (begin_ok s i al Hl).
    destruct (sort_write_back_rep fuel a s i al [] (a_cells al)
                (sort_buf S (λ x y, elt_lt x y) (a_cells al).*2) Hrep Hi eq_refl Hf)
      as (s' & Hwb & Hrep' & Hsl).
    { by rewrite sort_buf_length, length_fmap. }
    exists s'. split; [exact Hwb|]. split; [|done].
    cbn [app length drop] in Hrep'. exact Hrep'.
Qed.
End Sort.

(** ** What an observer sees of a represented list *)

Section Observation.
Context {T : Type} {E : Elem T}.
Implicit Types (h : gmap positive (node T)) (s : state T)
  (a : gmap positive (@alist T)) (al : @alist T).

Lemma walk_dseg fuel h pv ps stop :
  dseg h pv ps (Some stop) →
  stop ∉ ps →
  (length ps < fuel)%nat →
  walk fuel h (hd_ptr ps (Some stop)) (Some stop) = Some ps.
Proof.
  revert pv ps. induction fuel as [|fuel IH]; intros pv ps Hseg Hstop Hf; [lia|].
  destruct ps as [|p r]; cbn [walk hd_ptr].
  - unfold ptr_eqb. by rewrite bool_decide_eq_true_2.
  - destruct Hseg as [(nd & Hp & _ & Hnx) Hr].
    apply not_elem_of_cons in Hstop as [Hne Hstop].
    unfold ptr_eqb. rewrite bool_decide_eq_false_2 by congruence.
    rewrite Hp, Hnx, (IH (Some p) r); [done..|]. simpl in Hf. lia.
Qed.

Lemma chain_length_heap h pv ps nx :
  NoDup ps → dseg h pv ps nx → (length ps ≤ base.size h)%nat.
Proof.
  intros Hnd Hseg.
  rewrite <- (size_list_to_set (C := gset positive) ps) by done.
  rewrite <- (size_dom (D := gset positive) h).
  apply subseteq_size. intros q Hq. apply elem_of_list_to_set in Hq.
  apply elem_of_dom. by eapply dseg_dom.
Qed.

Lemma is_list_length_heap s i al :
  is_list s i al → (length (a_cells al) + 2 ≤ base.size (heap s))%nat.
Proof.
  intros (o & _ & _ & _ & _ & _ & Hnd & Hseg & _).
  pose proof (chain_length_heap _ _ _ _ Hnd Hseg) as Hlen.
  unfold chain in Hlen. cbn [length] in Hlen.
  rewrite length_app, length_fmap in Hlen. simpl in Hlen. lia.
Qed.

Lemma is_list_nodes_of s i al :
  is_list s i al → nodes_of s i = Some (a_cells al).*1.
Proof.
  intros Hl. pose proof (is_list_length_heap _ _ _ Hl) as Hlen.
  destruct (is_list_head _ _ _ Hl) as (o & nd & Ho & Hh & Ht & Hsz & Hn & Hp & Hnx).
  destruct Hl as (o' & Ho' & _ & _ & _ & _ & Hnd & Hseg & _).
  unfold nodes_of. rewrite Ho, Hh, Hn, Ht.
  unfold chain in Hseg, Hnd.
  change (a_head al :: (a_cells al).*1 ++ [a_tail al])
    with ((a_head al :: (a_cells al).*1) ++ [a_tail al]) in Hseg, Hnd.
  apply dseg_app in Hseg as [Hseg _]. cbn [hd_ptr] in Hseg.
  destruct Hseg as [(nd' & Hn' & _ & Hnx') Hseg].
  rewrite Hn in Hn'. injection Hn' as <-. rewrite Hnx'.
  apply (walk_dseg _ _ (Some (a_head al))); [done| |rewrite length_fmap; lia].
  apply NoDup_app in Hnd as (_ & Hdisj & _). intros Hin.
  apply (Hdisj (a_tail al)); [by right|by left].
Qed.

Lemma is_list_values_of s i al :
  is_list s i al → values_of s i = Some (a_cells al).*2.
Proof.
  intros Hl. unfold values_of. rewrite (is_list_nodes_of _ _ _ Hl).
  destruct Hl as (_ & _ & _ & _ & _ & _ & _ & _ & Hval).
  apply mapM_Some_2. induction Hval as [|[p v] cs (nd & Hp & Hd) _ IH];
    [constructor|].
  rewrite !fmap_cons. constructor; [|done].
  unfold value_at. simpl in *. by rewrite Hp.
Qed.

Lemma is_list_size_of s i al :
  is_list s i al → size_of s i = Some (Z.of_nat (length (a_cells al))).
Proof.
  intros (o & Ho & _ & _ & Hsz & _). unfold size_of. by rewrite Ho, Hsz.
Qed.

(** *** The invariant of §3, stated on what the links show *)

(** [p]'s neighbours point back at [p]. *)
Definition links_consistent h (p : positive) : Prop :=
  ∃ nd, h !! p = Some nd
      ∧ (∀ q, next nd = Some q → ∃ nq, h !! q = Some nq ∧ prev nq = Some p)
      ∧ (∀ q, prev nd = Some q → ∃ nq, h !! q = Some nq ∧ next nq = Some p).

Definition list_inv s (i : lid) : Prop :=
  ∃ o hd tl ns hn tn,
    objs s !! i = Some o ∧ head o = Some hd ∧ tail o = Some tl
    ∧ nodes_of s i = Some ns
    ∧ list_size o = Z.of_nat (length ns)
    ∧ Forall (links_consistent (heap s)) (hd :: ns ++ [tl])
    ∧ heap s !! hd = Some hn ∧ prev hn = None
    ∧ heap s !! tl = Some tn ∧ next tn = None
    ∧ Forall (λ p, is_Some (value_at s p)) ns.

Lemma last_ptr_snoc l p pv : last_ptr (l ++ [p]) pv = Some p.
Proof. by rewrite last_ptr_app. Qed.

Lemma dseg_links_consistent h ps :
  dseg h None ps None → Forall (links_consistent h) ps.
Proof.
  intros Hseg. apply Forall_forall. intros p Hp.
  apply list_elem_of_split in Hp as (l1 & l2 & ->).
  destruct (dseg_lookup _ _ _ _ _ _ Hseg) as (nd & Hn & Hpv & Hnx).
  exists nd. split; [done|]. split.
  - intros q Hq. rewrite Hnx in Hq. destruct l2 as [|q' l2]; [done|].
    injection Hq as ->.
    rewrite cons_middle, app_assoc in Hseg.
    destruct (dseg_lookup _ _ _ _ _ _ Hseg) as (nq & Hnq & Hpq & _).
    exists nq. split; [done|]. by rewrite Hpq, last_ptr_snoc.
  - intros q Hq. rewrite Hpv in Hq.
    destruct l1 as [|x l1 _] using rev_ind; [done|].
    rewrite last_ptr_snoc in Hq. injection Hq as ->.
    rewrite <- app_assoc in Hseg. cbn [app] in Hseg.
    destruct (dseg_lookup _ _ _ _ _ _ Hseg) as (nq & Hnq & _ & Hnq').
    exists nq. split; [done|]. by rewrite Hnq'.
Qed.

Lemma is_list_inv s i al : is_list s i al → list_inv s i.
Proof.
  intros Hl.
  destruct (is_list_head _ _ _ Hl) as (o & hn & Ho & Hh & Ht & Hsz & Hn & Hp & Hnx).
  destruct (is_list_tail _ _ _ Hl) as (tn & Htn & _ & Htnx).
  exists o, (a_head al), (a_tail al), (a_cells al).*1, hn, tn.
  split; [done|]. split; [done|]. split; [done|].
  split; [by apply is_list_nodes_of|].
  split; [by rewrite length_fmap|].
  destruct Hl as (_ & _ & _ & _ & _ & _ & _ & Hseg & Hval).
  split; [by apply dseg_links_consistent|].
  split; [done|]. split; [done|]. split; [done|]. split; [done|].
  apply Forall_fmap. eapply Forall_impl; [exact Hval|].
  intros [p v] (nd & Hnd & Hd). simpl in *. unfold value_at, compose.
  rewrite Hnd, Hd. by eexists.
Qed.

Lemma rep_inv a s i : rep a s → is_Some (objs s !! i) → list_inv s i.
Proof.
  intros Hrep Hi. destruct (rep_dom _ _ Hrep i Hi) as [al Hal].
  eapply is_list_inv. by eapply rep_list.
Qed.

Lemma rep_empty : rep (∅ : gmap positive (@alist T)) empty_state.
Proof.
  split.
  - intros i [o Ho]. cbn [empty_state objs] in Ho. by rewrite lookup_empty in Ho.
  - intros i al Hal. by rewrite lookup_empty in Hal.
  - intros i j ai aj p _ Hai. by rewrite lookup_empty in Hai.
Qed.

Lemma wf_empty : wf (@empty_state T).
Proof. exists ∅. apply rep_empty. Qed.
End Observation.

(** ** Programs over the public interface *)

(** One call of a public member function; iterators are passed as the
    values the caller holds. *)
Inductive op (T : Type) : Type :=
| Ctor (i : lid)
| CopyCtor (i j : lid)
| Assign (i j : lid)
| PushBack (i : lid) (v : T)
| PushFront (i : lid) (v : T)
| PopBack (i : lid)
| PopFront (i : lid)
| Insert (i : lid) (pos : iterator) (v : T)
| Erase (i : lid) (pos : iterator)
| Clear (i : lid)
| Merge (i j : lid)
| Reverse (i : lid)
| Sort (i : lid)
| Unique (i : lid).
Arguments Ctor {T} _.
Arguments CopyCtor {T} _ _.
Arguments Assign {T} _ _.
Arguments PushBack {T} _ _.
Arguments PushFront {T} _ _.
Arguments PopBack {T} _.
Arguments PopFront {T} _.
Arguments Insert {T} _ _ _.
Arguments Erase {T} _ _.
Arguments Clear {T} _.
Arguments Merge {T} _ _.
Arguments Reverse {T} _.
Arguments Sort {T} _.
Arguments Unique {T} _.

Section Programs.
Context {T : Type} {E : Elem T} (S : sorter T).
Implicit Types (s : state T) (a : gmap positive (@alist T)) (al : @alist T)
  (o : op T).

Definition run_op (fuel : nat) o : M T unit :=
  match o with
  | Ctor i => sjtu.ctor i
  | CopyCtor i j => sjtu.copy_ctor fuel i j
  | Assign i j => sjtu.assign fuel i j
  | PushBack i v => sjtu.push_back i v
  | PushFront i v => sjtu.push_front i v
  | PopBack i => sjtu.pop_back i
  | PopFront i => sjtu.pop_front i
  | Insert i pos v => run sjtu.insert i pos v then ret tt
  | Erase i pos => run sjtu.erase i pos then ret tt
  | Clear i => sjtu.clear fuel i
  | Merge i j => sjtu.merge fuel i j
  | Reverse i => sjtu.reverse fuel i
  | Sort i => sjtu.sort S fuel i
  | Unique i => sjtu.unique fuel i
  end.

(** The lists whose contents a call may change. *)
Definition mutates o (j : lid) : bool :=
  match o with
  | Ctor i | CopyCtor i _ | Assign i _ | PushBack i _ | PushFront i _
  | PopBack i | PopFront i | Insert i _ _ | Erase i _ | Clear i
  | Reverse i | Sort i | Unique i => bool_decide (j = i)
  | Merge i k => bool_decide (j = i) || bool_decide (j = k)
  end.

Definition live s (i : lid) : bool := bool_decide (is_Some (objs s !! i)).

(** Room for [extra] more elements in the [size_t] counter. *)
Definition has_room s (i : lid) (extra : Z) : bool :=
  match size_of s i with
  | Some n => bool_decide (n + extra < size_t_mod)
  | None => false
  end.

(** An iterator that names the container [i] addresses one of its
    elements or its [end()]. *)
Definition iter_ok s (i : lid) (pos : iterator) : bool :=
  if bool_decide (container pos = Some i) then
    match current pos, nodes_of s i, objs s !! i with
    | Some p, Some ns, Some ob => bool_decide (p ∈ ns ∨ Some p = tail ob)
    | _, _, _ => false
    end
  else true.

Definition valid_op s o : bool :=
  match o with
  | Ctor i => true
  | CopyCtor i j => bool_decide (i ≠ j) && live s j
  | Assign i j => live s i && live s j
  | PushBack i _ | PushFront i _ => has_room s i 1
  | PopBack i | PopFront i | Clear i | Reverse i | Sort i | Unique i => live s i
  | Insert i pos _ => has_room s i 1 && iter_ok s i pos
  | Erase i pos => live s i && iter_ok s i pos
  | Merge i j =>
      live s i && live s j
      && (bool_decide (i = j)
          || match size_of s i, size_of s j with
             | Some n, Some m => bool_decide (n + m < size_t_mod)
             | _, _ => false
             end)
  end.

(** Loop fuel that suffices for any well-formed store. *)
Definition fuel_for s : nat := (2 * base.size (heap s))%nat.

(** A program: the calls in order; an exception is caught by the caller,
    who carries on with the next call. *)
Fixpoint run_ops (os : list (op T)) s : outcome T unit :=
  match os with
  | [] => Ok tt s
  | o :: r =>
      match run_op (fuel_for s) o s with
      | Ok _ s' => run_ops r s'
      | Throw _ s' => run_ops r s'
      | UB => UB
      | OutOfFuel => OutOfFuel
      end
  end.

Fixpoint valid_ops (os : list (op T)) s : bool :=
  match os with
  | [] => true
  | o :: r =>
      valid_op s o
      && match run_op (fuel_for s) o s with
         | Ok _ s' => valid_ops r s'
         | Throw _ s' => valid_ops r s'
         | _ => true
         end
  end.

Lemma live_rep a s i : rep a s → live s i = true → ∃ al, a !! i = Some al.
Proof.
  intros Hrep Hl. apply bool_decide_eq_true in Hl.
  by destruct (rep_dom _ _ Hrep i Hl) as [al Hal]; eauto.
Qed.

Lemma has_room_rep a s i k :
  rep a s → has_room s i k = true →
  ∃ al, a !! i = Some al ∧ Z.of_nat (length (a_cells al)) + k < size_t_mod.
Proof.
  intros Hrep Hr. unfold has_room in Hr.
  destruct (size_of s i) as [n|] eqn:Hsz; [|done].
  apply bool_decide_eq_true in Hr.
  assert (is_Some (objs s !! i)) as Hlive.
  { unfold size_of in Hsz. destruct (objs s !! i); [by eexists|done]. }
  destruct (rep_dom _ _ Hrep i Hlive) as [al Hal]. exists al. split; [done|].
  rewrite (is_list_size_of _ _ _ (rep_list _ _ Hrep _ _ Hal)) in Hsz.
  by injection Hsz as <-.
Qed.

Lemma fuel_for_enough s i al :
  is_list s i al → (length (a_cells al) + 2 < fuel_for s)%nat.
Proof.
  intros Hl. pose proof (is_list_length_heap _ _ _ Hl). unfold fuel_for. lia.
Qed.

(** Where a valid iterator of [i] rests. *)
Lemma iter_ok_rep s i al pos :
  is_list s i al →
  iter_ok s i pos = true →
  container pos = Some i →
  (∃ c1 p v c2, a_cells al = c1 ++ (p, v) :: c2 ∧ pos = Iter (Some p) (Some i))
  ∨ pos = Iter (Some (a_tail al)) (Some i).
Proof.
  intros Hl Hok Hc. unfold iter_ok in Hok.
  rewrite bool_decide_eq_true_2 in Hok by done.
  rewrite (is_list_nodes_of _ _ _ Hl) in Hok.
  destruct (is_list_head _ _ _ Hl) as (ob & _ & Hob & _ & Ht & _).
  rewrite Hob in Hok. destruct pos as [[p|] ct]; [|done]. cbn [current container] in *.
  subst ct. apply bool_decide_eq_true in Hok as [Hin|Heq].
  - left. apply list_elem_of_fmap in Hin as ([p' v] & -> & Hin).
    apply list_elem_of_split in Hin as (c1 & c2 & ->).
    by exists c1, p', v, c2.
  - right. rewrite Ht in Heq. by injection Heq as ->.
Qed.

(** A call returns to its caller, normally or by an exception. *)
Definition returns (r : outcome T unit) s' : Prop :=
  r = Ok tt s' ∨ ∃ e, r = Throw e s'.

Lemma frame_insert a i al' o :
  (∀ j, mutates o j = false → j ≠ i) →
  ∀ j, mutates o j = false → <[i := al']> a !! j = a !! j.
Proof. intros Hm j Hj. apply lookup_insert_ne. intros <-. by apply (Hm i). Qed.

(** Every valid call returns, and keeps the store represented; the lists
    it does not mutate keep their representation. *)
Lemma run_op_rep a s o :
  rep a s →
  valid_op s o = true →
  ∃ a' s',
    returns (run_op (fuel_for s) o s) s'
    ∧ rep a' s'
    ∧ (∀ j, mutates o j = false → a' !! j = a !! j).
Proof.
  intros Hrep Hv. destruct o as [i|i j|i j|i v|i v|i|i|i pos v|i pos|i|i j|i|i|i];
    cbn [valid_op run_op] in *.
  - (* Ctor *)
    destruct (ctor_rep a s i Hrep) as (hd & tl & s' & Hrun & Hrep' & _).
    eexists _, s'. split; [by left|]. split; [done|].
    apply frame_insert. intros j Hj. cbn in Hj. by apply bool_decide_eq_false in Hj.
  - (* CopyCtor *)
    apply andb_true_iff in Hv as [Hij Hj]. apply bool_decide_eq_true in Hij.
    destruct (live_rep a s j Hrep Hj) as [src Hsrc].
    pose proof (fuel_for_enough s j src (rep_list _ _ Hrep _ _ Hsrc)) as Hf.
    destruct (copy_ctor_rep (fuel_for s) a s i j src Hrep Hij Hsrc)
      as (s' & hd & new & tl & Hrun & Hrep' & _); [lia|].
    eexists _, s'. split; [by left|]. split; [done|].
    apply frame_insert. intros k Hk. cbn in Hk. by apply bool_decide_eq_false in Hk.
  - (* Assign *)
    apply andb_true_iff in Hv as [Hi Hj].
    destruct (decide (i = j)) as [->|Hij].
    { exists a, s. split; [|done]. left. unfold sjtu.assign.
      by rewrite bool_decide_eq_true_2. }
    destruct (live_rep a s i Hrep Hi) as [dst Hdst].
    destruct (live_rep a s j Hrep Hj) as [src Hsrc].
    pose proof (fuel_for_enough s j src (rep_list _ _ Hrep _ _ Hsrc)) as Hf.
    pose proof (fuel_for_enough s i dst (rep_list _ _ Hrep _ _ Hdst)) as Hf'.
    destruct (assign_rep (fuel_for s) a s i j dst src Hrep Hij Hdst Hsrc)
      as (s' & new & Hrun & Hrep' & _); [lia..|].
    eexists _, s'. split; [by left|]. split; [done|].
    apply frame_insert. intros k Hk. cbn in Hk. by apply bool_decide_eq_false in Hk.
  - (* PushBack *)
    destruct (has_room_rep a s i 1 Hrep Hv) as (al & Hal & Hb).
    destruct (push_back_rep a s i al v Hrep Hal Hb) as (c & s' & Hrun & Hrep' & _).
    eexists _, s'. split; [by left|]. split; [done|].
    apply frame_insert. intros k Hk. cbn in Hk. by apply bool_decide_eq_false in Hk.
  - (* PushFront *)
    destruct (has_room_rep a s i 1 Hrep Hv) as (al & Hal & Hb).
    destruct (push_front_rep a s i al v Hrep Hal Hb) as (c & s' & Hrun & Hrep' & _).
    eexists _, s'. split; [by left|]. split; [done|].
    apply frame_insert. intros k Hk. cbn in Hk. by apply bool_decide_eq_false in Hk.
  - (* PopBack *)
    destruct (live_rep a s i Hrep Hv) as [al Hal].
    pose proof (rep_list _ _ Hrep _ _ Hal) as Hl.
    destruct (a_cells al) as [|c0 cs0] eqn:Hc.
    { exists a, s. split; [|done]. right. exists container_is_empty.
      by apply (pop_back_empty s i al). }
    destruct (exists_last (l := c0 :: cs0)) as (cs & [p x] & Hsplit); [done|].
    rewrite Hsplit in Hc.
    destruct (pop_back_rep a s i al p x cs Hrep Hal Hc) as (s' & Hrun & Hrep' & _).
    eexists _, s'. split; [by left|]. split; [done|].
    apply frame_insert. intros k Hk. cbn in Hk. by apply bool_decide_eq_false in Hk.
  - (* PopFront *)
    destruct (live_rep a s i Hrep Hv) as [al Hal].
    pose proof (rep_list _ _ Hrep _ _ Hal) as Hl.
    destruct (a_cells al) as [|[p x] cs] eqn:Hc.
    { exists a, s. split; [|done]. right. exists container_is_empty.
      by apply (pop_front_empty s i al). }
    destruct (pop_front_rep a s i al p x cs Hrep Hal Hc) as (s' & Hrun & Hrep' & _).
    eexists _, s'. split; [by left|]. split; [done|].
    apply frame_insert. intros k Hk. cbn in Hk. by apply bool_decide_eq_false in Hk.
  - (* Insert *)
    apply andb_true_iff in Hv as [Hroom Hit].
    destruct (has_room_rep a s i 1 Hrep Hroom) as (al & Hal & Hb).
    pose proof (rep_list _ _ Hrep _ _ Hal) as Hl.
    destruct (decide (container pos = Some i)) as [Hc|Hc]; cycle 1.
    { exists a, s. split; [|done]. right. exists invalid_iterator.
      by rewrite (bind_throw _ _ _ _ _ (insert_foreign s i pos v Hc)). }
    destruct (iter_ok_rep s i al pos Hl Hit Hc)
      as [(c1 & p & x & c2 & Hcells & ->)| ->].
    + destruct (insert_rep a s i al c1 ((p, x) :: c2) v Hrep Hal Hcells Hb)
        as (c & s' & Hrun & Hrep' & _).
      eexists _, s'. split; [left; by step_with Hrun|]. split; [done|].
      apply frame_insert. intros k Hk. cbn in Hk. by apply bool_decide_eq_false in Hk.
    + destruct (insert_rep a s i al (a_cells al) [] v Hrep Hal) as (c & s' & Hrun & Hrep' & _);
        [by rewrite app_nil_r|done|].
      eexists _, s'. split; [left; by step_with Hrun|]. split; [done|].
      apply frame_insert. intros k Hk. cbn in Hk. by apply bool_decide_eq_false in Hk.
  - (* Erase *)
    apply andb_true_iff in Hv as [Hlive Hit].
    destruct (live_rep a s i Hrep Hlive) as [al Hal].
    pose proof (rep_list _ _ Hrep _ _ Hal) as Hl.
    destruct (decide (a_cells al = [])) as [Hnil|Hnil].
    { exists a, s. split; [|done]. right. exists container_is_empty.
      by rewrite (bind_throw _ _ _ _ _ (erase_empty s i al pos Hl Hnil)). }
    destruct (decide (container pos = Some i)) as [Hc|Hc]; cycle 1.
    { exists a, s. split; [|done]. right. exists invalid_iterator.
      rewrite (bind_throw _ _ _ _ _ (erase_invalid s i al pos Hl Hnil (or_introl Hc))).
      done. }
    destruct (iter_ok_rep s i al pos Hl Hit Hc)
      as [(c1 & p & x & c2 & Hcells & ->)| ->].
    + destruct (erase_rep a s i al c1 p x c2 Hrep Hal Hcells) as (s' & Hrun & Hrep' & _).
      eexists _, s'. split; [left; by step_with Hrun|]. split; [done|].
      apply frame_insert. intros k Hk. cbn in Hk. by apply bool_decide_eq_false in Hk.
    + exists a, s. split; [|done]. right. exists invalid_iterator.
      rewrite (bind_throw _ _ _ _ _
                 (erase_invalid s i al (Iter (Some (a_tail al)) (Some i)) Hl Hnil
                    (or_intror eq_refl))).
      done.
  - (* Clear *)
    destruct (live_rep a s i Hrep Hv) as [al Hal].
    pose proof (fuel_for_enough s i al (rep_list _ _ Hrep _ _ Hal)) as Hf.
    destruct (clear_rep a s i al (fuel_for s) Hrep Hal) as (s' & Hrun & Hrep'); [lia|].
    eexists _, s'. split; [by left|]. split; [done|].
    apply frame_insert. intros k Hk. cbn in Hk. by apply bool_decide_eq_false in Hk.
  - (* Merge *)
    apply andb_true_iff in Hv as [Hv Hb]. apply andb_true_iff in Hv as [Hi Hj].
    destruct (decide (i = j)) as [->|Hij].
    { exists a, s. split; [|done]. left. apply merge_self. }
    rewrite bool_decide_eq_false_2 in Hb by done. cbn [orb] in Hb.
    destruct (live_rep a s i Hrep Hi) as [A HA].
    destruct (live_rep a s j Hrep Hj) as [B HB].
    pose proof (rep_list _ _ Hrep _ _ HA) as HlA.
    pose proof (rep_list _ _ Hrep _ _ HB) as HlB.
    rewrite (is_list_size_of _ _ _ HlA), (is_list_size_of _ _ _ HlB) in Hb.
    apply bool_decide_eq_true in Hb.
    pose proof (is_list_length_heap s i A HlA) as Hf.
    pose proof (is_list_length_heap s j B HlB) as Hf'.
    destruct (merge_rep (fuel_for s) a s i j A B Hrep Hij HA HB)
      as (s' & Hrun & Hrep' & _).
    { unfold fuel_for in *. lia. }
    { lia. }
    eexists _, s'. split; [by left|]. split; [done|].
    intros k Hk. cbn in Hk. apply orb_false_iff in Hk as [Hk1 Hk2].
    apply bool_decide_eq_false in Hk1, Hk2.
    by rewrite !lookup_insert_ne.
  - (* Reverse *)
    destruct (live_rep a s i Hrep Hv) as [al Hal].
    pose proof (fuel_for_enough s i al (rep_list _ _ Hrep _ _ Hal)) as Hf.
    destruct (reverse_rep (fuel_for s) a s i al Hrep Hal Hf) as (s' & Hrun & Hrep' & _).
    eexists _, s'. split; [by left|]. split; [done|].
    apply frame_insert. intros k Hk. cbn in Hk. by apply bool_decide_eq_false in Hk.
  - (* Sort *)
    destruct (live_rep a s i Hrep Hv) as [al Hal].
    pose proof (fuel_for_enough s i al (rep_list _ _ Hrep _ _ Hal)) as Hf.
    destruct (sort_rep S (fuel_for s) a s i al Hrep Hal) as (s' & Hrun & Hrep' & _); [lia|].
    eexists _, s'. split; [by left|]. split; [done|].
    apply frame_insert. intros k Hk. cbn in Hk. by apply bool_decide_eq_false in Hk.
  - (* Unique *)
    destruct (live_rep a s i Hrep Hv) as [al Hal].
    pose proof (fuel_for_enough s i al (rep_list _ _ Hrep _ _ Hal)) as Hf.
    destruct (unique_rep (fuel_for s) a s i al Hrep Hal) as (s' & Hrun & Hrep'); [lia|].
    eexists _, s'. split; [by left|]. split; [done|].
    apply frame_insert. intros k Hk. cbn in Hk. by apply bool_decide_eq_false in Hk.
Qed.

(** Every valid program runs to its end on a represented store. *)
Lemma run_ops_rep os a s :
  rep a s →
  valid_ops os s = true →
  ∃ a' s',
    run_ops os s = Ok tt s'
    ∧ rep a' s'
    ∧ (∀ j, Forall (λ o, mutates o j = false) os → a' !! j = a !! j).
Proof.
  revert a s. induction os as [|o os IH]; intros a s Hrep Hv.
  { exists a, s. by split. }
  cbn [valid_ops run_ops] in *. apply andb_true_iff in Hv as [Hvo Hvr].
  destruct (run_op_rep a s o Hrep Hvo) as (a1 & s1 & Hret & Hrep1 & Hframe1).
  destruct Hret as [Hrun|[e Hrun]]; rewrite Hrun in Hvr |- *;
    destruct (IH a1 s1 Hrep1 Hvr) as (a2 & s2 & Hrun2 & Hrep2 & Hframe2);
    exists a2, s2; (split; [done|]); (split; [done|]);
    intros j Hj; apply Forall_cons in Hj as [Hj1 Hj2];
    rewrite Hframe2 by done; by apply Hframe1.
Qed.
End Programs.

(** ** Observations that the theorems are stated on *)

Section Cells.
Context {T : Type} {E : Elem T}.
Implicit Types (s : state T) (a : gmap positive (@alist T)) (al : @alist T).

(** The elements of the list at [i], front to back: each node with the
    value it holds. *)
Definition cells_of s (i : lid) : option (list (positive * T)) :=
  match nodes_of s i, values_of s i with
  | Some ns, Some vs => Some (zip ns vs)
  | _, _ => None
  end.

(** The two sentinels of the list at [i]. *)
Definition sentinels_of s (i : lid) : option (ptr * ptr) :=
  match objs s !! i with
  | Some o => Some (head o, tail o)
  | None => None
  end.

(** [head->next == tail] and [tail->prev == head]. *)
Definition sentinels_linked s (i : lid) : Prop :=
  ∃ o hn tn,
    objs s !! i = Some o
    ∧ load_node (head o) s = Ok hn s ∧ next hn = tail o ∧ prev hn = None
    ∧ load_node (tail o) s = Ok tn s ∧ prev tn = head o ∧ next tn = None.

Lemma is_list_cells_of s i al : is_list s i al → cells_of s i = Some (a_cells al).
Proof.
  intros Hl. unfold cells_of.
  rewrite (is_list_nodes_of _ _ _ Hl), (is_list_values_of _ _ _ Hl).
  by rewrite zip_fst_snd.
Qed.

Lemma is_list_sentinels_of s i al :
  is_list s i al → sentinels_of s i = Some (Some (a_head al), Some (a_tail al)).
Proof.
  intros (o & Ho & Hh & Ht & _). unfold sentinels_of. by rewrite Ho, Hh, Ht.
Qed.

Lemma rep_cells_of a s i cs :
  rep a s → cells_of s i = Some cs → ∃ al, a !! i = Some al ∧ a_cells al = cs.
Proof.
  intros Hrep Hc.
  assert (is_Some (objs s !! i)) as Hlive.
  { unfold cells_of, nodes_of in Hc. destruct (objs s !! i); [by eexists|done]. }
  destruct (rep_dom _ _ Hrep i Hlive) as [al Hal]. exists al. split; [done|].
  rewrite (is_list_cells_of _ _ _ (rep_list _ _ Hrep _ _ Hal)) in Hc. congruence.
Qed.

Lemma rep_lookup_cells_of a s i al :
  rep a s → a !! i = Some al → cells_of s i = Some (a_cells al).
Proof. intros Hrep Hal. apply is_list_cells_of. by eapply rep_list. Qed.

Lemma is_list_empty_linked s i al :
  is_list s i al → a_cells al = [] → sentinels_linked s i.
Proof.
  intros Hl Hc.
  destruct (is_list_head _ _ _ Hl) as (o & hn & Ho & Hh & Ht & Hsz & Hn & Hp & Hnx).
  destruct (is_list_tail _ _ _ Hl) as (tn & Htn & Hpt & Hnt).
  exists o, hn, tn. rewrite Hh, Ht. rewrite Hc in Hnx, Hpt. cbn in Hnx, Hpt.
  split; [done|]. split; [by apply load_node_ok|]. split; [done|]. split; [done|].
  split; [by apply load_node_ok|]. done.
Qed.

(** Lists of one store share no node. *)
Lemma rep_cells_disjoint a s i j ai aj c d :
  rep a s → i ≠ j → a !! i = Some ai → a !! j = Some aj →
  c ∈ a_cells ai → d ∈ a_cells aj → c.1 ≠ d.1.
Proof.
  intros Hrep Hij Hi Hj Hc Hd Heq.
  eapply (rep_disj _ _ Hrep i j ai aj c.1); [done..| |].
  - unfold chain. apply elem_of_cons. right. apply elem_of_app. left.
    apply list_elem_of_fmap. by exists c.
  - unfold chain. apply elem_of_cons. right. apply elem_of_app. left.
    rewrite Heq. apply list_elem_of_fmap. by exists d.
Qed.
End Cells.

(** ** A concrete sort collaborator for the worked examples *)

Section InsertionSort.
Context {T : Type}.

Fixpoint sort_insert (cmp : T → T → bool) (x : T) (l : list T) : list T :=
  match l with
  | [] => [x]
  | y :: r => if cmp x y then x :: y :: r else y :: sort_insert cmp x r
  end.

Fixpoint insertion_sort (cmp : T → T → bool) (l : list T) : list T :=
  match l with
  | [] => []
  | x :: r => sort_insert cmp x (insertion_sort cmp r)
  end.

Lemma sort_insert_length cmp x l : length (sort_insert cmp x l) = Datatypes.S (length l).
Proof.
  induction l as [|y r IH]; [done|]. simpl. destruct (cmp x y); simpl; [done|].
  by rewrite IH.
Qed.

Lemma insertion_sort_length cmp l : length (insertion_sort cmp l) = length l.
Proof.
  induction l as [|x r IH]; [done|]. simpl. by rewrite sort_insert_length, IH.
Qed.

Definition insertion_sorter : sorter T :=
  Sorter T insertion_sort insertion_sort_length.

Lemma sort_insert_perm cmp x l : sort_insert cmp x l ≡ₚ x :: l.
Proof.
  induction l as [|y r IH]; [done|]. simpl. destruct (cmp x y); [done|].
  rewrite IH. apply perm_swap.
Qed.

Lemma insertion_sort_perm cmp l : insertion_sort cmp l ≡ₚ l.
Proof.
  induction l as [|x r IH]; [done|]. simpl. by rewrite sort_insert_perm, IH.
Qed.
End InsertionSort.

Section SortOrder.
Context {T : Type} {E : Elem T}.

(** The collaborator sorts: its output is an ascending rearrangement of
    its input. *)
Definition sorter_correct (S : sorter T) : Prop :=
  ∀ l, sort_buf S (λ x y, elt_lt x y) l ≡ₚ l
       ∧ ascending (sort_buf S (λ x y, elt_lt x y) l).

(** [operator<] tells any two different values apart. *)
Definition total_order : Prop :=
  ∀ x y : T, elt_lt x y = false → elt_lt y x = false → x = y.

Lemma sort_insert_ascending x l :
  strict_weak_order → ascending l → ascending (sort_insert (λ x y, elt_lt x y) x l).
Proof.
  intros [Hirr Htr Hco]. induction l as [|y r IH]; intros Hl.
  { simpl. apply ascending_cons; [done|]. intros z Hz. by apply elem_of_nil in Hz. }
  apply ascending_cons_inv in Hl as Hl'. destruct Hl' as [Hr Hy].
  simpl. destruct (elt_lt x y) eqn:Hxy.
  - apply ascending_cons; [done|]. intros z Hz.
    destruct (elt_lt z x) eqn:Hzx; [|done]. exfalso.
    pose proof (Htr _ _ _ Hzx Hxy) as Hzy.
    apply elem_of_cons in Hz as [->|Hz].
    + by rewrite Hirr in Hzy.
    + by rewrite (Hy z Hz) in Hzy.
  - apply ascending_cons; [by apply IH|]. intros z Hz.
    rewrite sort_insert_perm in Hz. apply elem_of_cons in Hz as [->|Hz]; [done|].
    by apply Hy.
Qed.

Lemma insertion_sorter_correct : strict_weak_order → sorter_correct insertion_sorter.
Proof.
  intros Hswo l. split; [apply insertion_sort_perm|]. cbn [sort_buf insertion_sorter].
  induction l as [|x r IH]; [constructor|].
  simpl. by apply sort_insert_ascending.
Qed.

(** Under a total order an ascending arrangement is unique. *)
Lemma ascending_perm_unique (l1 l2 : list T) :
  total_order → ascending l1 → ascending l2 → l1 ≡ₚ l2 → l1 = l2.
Proof.
  intros Htot. revert l2. induction l1 as [|x1 r1 IH]; intros l2 H1 H2 Hp.
  { by apply Permutation_nil in Hp. }
  destruct l2 as [|x2 r2]; [by apply Permutation_sym, Permutation_nil in Hp|].
  apply ascending_cons_inv in H1 as H1'. destruct H1' as [Hr1 Hx1].
  apply ascending_cons_inv in H2 as H2'. destruct H2' as [Hr2 Hx2].
  assert (x1 = x2) as ->.
  { assert (x1 ∈ x2 :: r2) as Hin1 by (rewrite <- Hp; by left).
    assert (x2 ∈ x1 :: r1) as Hin2 by (rewrite Hp; by left).
    apply elem_of_cons in Hin1 as [?|Hin1]; [done|].
    apply elem_of_cons in Hin2 as [?|Hin2]; [done|].
    apply Htot; [by apply Hx2|by apply Hx1]. }
  f_equal. apply IH; [done..|]. by apply Permutation_cons_inv in Hp.
Qed.

Lemma ascending_short (l : list T) : (length l ≤ 1)%nat → ascending l.
Proof.
  destruct l as [|x [|y r]]; simpl; intros Hlen; [constructor| |lia].
  apply ascending_cons; [constructor|]. intros z Hz. by apply elem_of_nil in Hz.
Qed.
End SortOrder.

Lemma Z_strict_weak_order : @strict_weak_order Z Z_elem.
Proof.
  split; cbn [elt_lt Z_elem].
  - intros x. apply Z.ltb_irrefl.
  - intros x y z Hxy Hyz. apply Z.ltb_lt in Hxy, Hyz. apply Z.ltb_lt. lia.
  - intros x y z Hxz. apply Z.ltb_lt in Hxz.
    destruct (Z.ltb_spec x y); [by left|]. right. apply Z.ltb_lt. lia.
Qed.

Lemma Z_total_order : @total_order Z Z_elem.
Proof.
  intros x y Hxy Hyx. cbn [elt_lt Z_elem] in *.
  apply Z.ltb_ge in Hxy, Hyx. lia.
Qed.

Lemma Z_equality_like : @equality_like Z Z_elem.
Proof.
  split; cbn [elt_eq Z_elem].
  - intros x y Hxy. apply Z.eqb_eq in Hxy. apply Z.eqb_eq. lia.
  - intros x y z Hxy Hyz. apply Z.eqb_eq in Hxy, Hyz. apply Z.eqb_eq. lia.
Qed.

(** ** Where exceptions can come from *)

Section Atomicity.
Context {T : Type} {E : Elem T}.

(** A command that leaves the store as it was whenever it throws. *)
Definition atomic {A} (m : M T A) : Prop :=
  ∀ s e s', m s = Throw e s' → s' = s.

(** A command that never throws. *)
Definition quiet {A} (m : M T A) : Prop :=
  ∀ s e s', m s ≠ Throw e s'.

(** A command that only reads the store. *)
Definition readonly {A} (m : M T A) : Prop :=
  ∀ s r s', m s = Ok r s' → s' = s.

Lemma quiet_atomic {A} (m : M T A) : quiet m → atomic m.
Proof. intros Hq s e s' H. by apply Hq in H. Qed.

Lemma quiet_bind {A B} (m : M T A) (k : A → M T B) :
  quiet m → (∀ x, quiet (k x)) → quiet (bind m k).
Proof.
  intros Hm Hk s e s'. unfold bind. destruct (m s) as [x s1|e1 s1| |] eqn:Hms; try done.
  - apply Hk.
  - by apply Hm in Hms.
Qed.

Lemma atomic_bind {A B} (m : M T A) (k : A → M T B) :
  readonly m → atomic m → (∀ x, atomic (k x)) → atomic (bind m k).
Proof.
  intros Hr Hm Hk s e s'. unfold bind.
  destruct (m s) as [x s1|e1 s1| |] eqn:Hms; try done.
  - apply Hr in Hms as ->. apply Hk.
  - intros [= <- <-]. by apply Hm in Hms.
Qed.

Lemma readonly_bind {A B} (m : M T A) (k : A → M T B) :
  readonly m → (∀ x, readonly (k x)) → readonly (bind m k).
Proof.
  intros Hm Hk s r s'. unfold bind.
  destruct (m s) as [x s1|e1 s1| |] eqn:Hms; try done.
  apply Hm in Hms as ->. apply Hk.
Qed.

Lemma atomic_throw {A} e : atomic (@throw T A e).
Proof. intros s e' s'. unfold throw. by intros [= _ <-]. Qed.

Lemma quiet_ret {A} (x : A) : quiet (@ret T A x).
Proof. by intros s e s'. Qed.
Lemma readonly_ret {A} (x : A) : readonly (@ret T A x).
Proof. intros s r s'. unfold ret. by intros [= _ <-]. Qed.
Lemma quiet_undefined {A} : quiet (@undefined T A).
Proof. by intros s e s'. Qed.

Lemma quiet_load_node p : quiet (@load_node T p).
Proof. intros s e s'. unfold load_node. by repeat case_match. Qed.
Lemma readonly_load_node p : readonly (@load_node T p).
Proof. intros s r s'. unfold load_node. repeat case_match; try done. by intros [= _ <-]. Qed.
Lemma quiet_store_node p f : quiet (@store_node T p f).
Proof. intros s e s'. unfold store_node. by repeat case_match. Qed.
Lemma quiet_load_obj c : quiet (@load_obj T c).
Proof. intros s e s'. unfold load_obj. by repeat case_match. Qed.
Lemma readonly_load_obj c : readonly (@load_obj T c).
Proof. intros s r s'. unfold load_obj. repeat case_match; try done. by intros [= _ <-]. Qed.
Lemma quiet_store_obj i o : quiet (@store_obj T i o).
Proof. by intros s e s'. Qed.
Lemma quiet_new_node v : quiet (@new_node T v).
Proof. by intros s e s'. Qed.
Lemma quiet_delete_node p : quiet (@delete_node T p).
Proof. intros s e s'. unfold delete_node. by repeat case_match. Qed.

Lemma quiet_ref_data p : quiet (@ref_data T p).
Proof.
  unfold ref_data. apply quiet_bind; [apply quiet_load_node|]. intros _.
  destruct p; [apply quiet_ret|apply quiet_undefined].
Qed.

Lemma quiet_insert_node this pos cur : quiet (sjtu.insert_node (T := T) this pos cur).
Proof.
  unfold sjtu.insert_node, store_prev, store_next.
  repeat first [ apply quiet_ret | apply quiet_load_node | apply quiet_store_node
               | apply quiet_load_obj | apply quiet_store_obj
               | (apply quiet_bind; [|intros ?]) ].
Qed.

Lemma quiet_erase_node this pos : quiet (sjtu.erase_node (T := T) this pos).
Proof.
  unfold sjtu.erase_node, store_prev, store_next.
  repeat first [ apply quiet_ret | apply quiet_load_node | apply quiet_store_node
               | apply quiet_load_obj | apply quiet_store_obj
               | (apply quiet_bind; [|intros ?]) ].
Qed.

Lemma quiet_empty this : quiet (sjtu.empty (T := T) this).
Proof. unfold sjtu.empty. apply quiet_bind; [apply quiet_load_obj|]. intros ?. apply quiet_ret. Qed.
Lemma readonly_empty this : readonly (sjtu.empty (T := T) this).
Proof.
  unfold sjtu.empty. apply readonly_bind; [apply readonly_load_obj|].
  intros ?. apply readonly_ret.
Qed.
Lemma quiet_end this : quiet (sjtu.end_ (T := T) this).
Proof. unfold sjtu.end_. apply quiet_bind; [apply quiet_load_obj|]. intros ?. apply quiet_ret. Qed.
Lemma readonly_end this : readonly (sjtu.end_ (T := T) this).
Proof.
  unfold sjtu.end_. apply readonly_bind; [apply readonly_load_obj|].
  intros ?. apply readonly_ret.
Qed.

(** The guard of a throwing operation: it reads, never throws, and the
    operation throws at once or goes on without throwing again. *)
Lemma atomic_guarded {A} (g : M T bool) e (k : M T A) :
  readonly g → quiet g → quiet k →
  atomic (bind g (λ bad, if bad then throw e else k)).
Proof.
  intros Hr Hq Hk. apply atomic_bind; [done|by apply quiet_atomic|].
  intros [|]; [apply atomic_throw|by apply quiet_atomic].
Qed.

Lemma atomic_front this : atomic (sjtu.front (T := T) this).
Proof.
  unfold sjtu.front. apply atomic_guarded; [apply readonly_empty|apply quiet_empty|].
  repeat first [ apply quiet_ref_data | apply quiet_load_node | apply quiet_load_obj
               | (apply quiet_bind; [|intros ?]) ].
Qed.

Lemma atomic_back this : atomic (sjtu.back (T := T) this).
Proof.
  unfold sjtu.back. apply atomic_guarded; [apply readonly_empty|apply quiet_empty|].
  repeat first [ apply quiet_ref_data | apply quiet_load_node | apply quiet_load_obj
               | (apply quiet_bind; [|intros ?]) ].
Qed.

Lemma atomic_pop_front this : atomic (sjtu.pop_front (T := T) this).
Proof.
  unfold sjtu.pop_front. apply atomic_guarded; [apply readonly_empty|apply quiet_empty|].
  repeat first [ apply quiet_erase_node | apply quiet_delete_node
               | apply quiet_load_node | apply quiet_load_obj
               | (apply quiet_bind; [|intros ?]) ].
Qed.

Lemma atomic_pop_back this : atomic (sjtu.pop_back (T := T) this).
Proof.
  unfold sjtu.pop_back. apply atomic_guarded; [apply readonly_empty|apply quiet_empty|].
  repeat first [ apply quiet_erase_node | apply quiet_delete_node
               | apply quiet_load_node | apply quiet_load_obj
               | (apply quiet_bind; [|intros ?]) ].
Qed.

Lemma atomic_insert this pos v : atomic (sjtu.insert (T := T) this pos v).
Proof.
  unfold sjtu.insert. case_bool_decide; [apply atomic_throw|].
  apply quiet_atomic.
  repeat first [ apply quiet_ret | apply quiet_insert_node | apply quiet_new_node
               | (apply quiet_bind; [|intros ?]) ].
Qed.

Lemma atomic_erase this pos : atomic (sjtu.erase (T := T) this pos).
Proof.
  unfold sjtu.erase.
  apply atomic_bind; [apply readonly_empty|apply quiet_atomic, quiet_empty|].
  intros [|]; [apply atomic_throw|].
  apply atomic_guarded.
  - case_bool_decide; [apply readonly_ret|].
    apply readonly_bind; [apply readonly_end|]. intros ?. apply readonly_ret.
  - case_bool_decide; [apply quiet_ret|].
    apply quiet_bind; [apply quiet_end|]. intros ?. apply quiet_ret.
  - repeat first [ apply quiet_ret | apply quiet_erase_node | apply quiet_delete_node
                 | apply quiet_load_node
                 | (apply quiet_bind; [|intros ?]) ].
Qed.
End Atomicity.

(** ** C5, C9, C10 *)

Section IteratorErrors.
Context {T : Type} {E : Elem T}.
Implicit Types (s : state T).

(** The cursor is unset. *)
Definition unset (it : iterator) : Prop := current it = None.

(** The container the iterator names is a live list. *)
Definition attached s (it : iterator) : Prop :=
  ∃ i o hn, container it = Some i ∧ objs s !! i = Some o
          ∧ load_node (head o) s = Ok hn s.

(** The iterator compares equal to [end()] of its container. *)
Definition at_end_pos s (it : iterator) : Prop :=
  ∃ i en, container it = Some i ∧ sjtu.end_ i s = Ok en s
        ∧ iterator.eq it en = true.

(** The iterator compares equal to [begin()] of its container. *)
Definition at_begin_pos s (it : iterator) : Prop :=
  ∃ i b, container it = Some i ∧ sjtu.begin i s = Ok b s
       ∧ iterator.eq it b = true.

(** The cursor rests on one of the two sentinels of its container. *)
Definition on_sentinel s (it : iterator) : Prop :=
  ∃ i o, container it = Some i ∧ objs s !! i = Some o
       ∧ (current it = head o ∨ current it = tail o).

Lemma at_end_run s it :
  unset it ∨ attached s it →
  ∃ b, iterator.at_end it s = Ok b s ∧ (b = true ↔ unset it ∨ at_end_pos s it).
Proof.
  unfold unset, attached, at_end_pos, iterator.at_end.
  destruct it as [[p|] c]; cbn [current container].
  - intros [?|(i & o & hn & -> & Ho & Hn)]; [done|].
    rewrite (bind_ok _ _ _ _ _ (load_obj_ok s i o Ho)). eexists. split; [done|].
    unfold ptr_eqb. rewrite bool_decide_eq_true. split.
    + intros Heq. right. exists i, (Iter (tail o) (Some i)).
      split; [done|]. split; [by apply end_ok|].
      unfold iterator.eq, ptr_eqb. cbn [current]. by apply bool_decide_eq_true.
    + intros [?|(i' & en & [= <-] & Hen & Heq)]; [done|].
      rewrite (end_ok s i o Ho) in Hen. injection Hen as <-.
      unfold iterator.eq, ptr_eqb in Heq. cbn [current] in Heq.
      by apply bool_decide_eq_true in Heq.
  - intros _. exists true. split; [done|]. split; [by left|done].
Qed.

Lemma at_begin_run s it :
  unset it ∨ attached s it →
  ∃ b, iterator.at_begin it s = Ok b s ∧ (b = true ↔ unset it ∨ at_begin_pos s it).
Proof.
  unfold unset, attached, at_begin_pos, iterator.at_begin.
  destruct it as [[p|] c]; cbn [current container].
  - intros [?|(i & o & hn & -> & Ho & Hn)]; [done|].
    rewrite (bind_ok _ _ _ _ _ (load_obj_ok s i o Ho)).
    rewrite (bind_ok _ _ _ _ _ Hn). eexists. split; [done|].
    assert (sjtu.begin i s = Ok (Iter (next hn) (Some i)) s) as Hb.
    { unfold sjtu.begin. rewrite (bind_ok _ _ _ _ _ (load_obj_ok s i o Ho)).
      by rewrite (bind_ok _ _ _ _ _ Hn). }
    unfold ptr_eqb. rewrite bool_decide_eq_true. split.
    + intros Heq. right. exists i, (Iter (next hn) (Some i)).
      split; [done|]. split; [done|].
      unfold iterator.eq, ptr_eqb. cbn [current]. by apply bool_decide_eq_true.
    + intros [?|(i' & b & [= <-] & Hb' & Heq)]; [done|].
      rewrite Hb in Hb'. injection Hb' as <-.
      unfold iterator.eq, ptr_eqb in Heq. cbn [current] in Heq.
      by apply bool_decide_eq_true in Heq.
  - intros _. exists true. split; [done|]. split; [by left|done].
Qed.

Lemma at_sentinel_run s it :
  unset it ∨ attached s it →
  ∃ b, iterator.at_sentinel it s = Ok b s ∧ (b = true ↔ unset it ∨ on_sentinel s it).
Proof.
  unfold unset, attached, on_sentinel, iterator.at_sentinel.
  destruct it as [[p|] c]; cbn [current container].
  - intros [?|(i & o & hn & -> & Ho & Hn)]; [done|].
    rewrite (bind_ok _ _ _ _ _ (load_obj_ok s i o Ho)).
    unfold ptr_eqb. case_bool_decide as Hh.
    + exists true. split; [done|]. split; [|done]. intros _. right.
      exists i, o. by auto.
    + rewrite (bind_ok _ _ _ _ _ (load_obj_ok s i o Ho)). eexists. split; [done|].
      rewrite bool_decide_eq_true. split.
      * intros Heq. right. exists i, o. by auto.
      * intros [?|(i' & o' & [= <-] & Ho' & Hor)]; [done|].
        rewrite Ho in Ho'. injection Ho' as <-. by destruct Hor.
  - intros _. exists true. split; [done|]. split; [by left|done].
Qed.

(** A guarded step throws exactly when its guard holds. *)
Lemma guarded_throws {A} (g : M T bool) (k : M T A) s b :
  g s = Ok b s → quiet k →
  (bind g (λ bad, if bad then throw invalid_iterator else k) s
   = Throw invalid_iterator s) ↔ b = true.
Proof.
  intros Hg Hk. rewrite (bind_ok _ _ _ _ _ Hg). destruct b.
  - by split.
  - split; [|done]. intros Hbad. by apply Hk in Hbad.
Qed.

Lemma quiet_move (p : ptr) {A} (f : node T → A) :
  quiet (bind (load_node p) (λ nd, ret (f nd)) : M T A).
Proof. apply quiet_bind; [apply quiet_load_node|]. intros ?. apply quiet_ret. Qed.

(** The const_iterator operators do what the iterator operators do. *)
Definition outcome_map {A B} (f : A → B) (r : outcome T A) : outcome T B :=
  match r with
  | Ok x s => Ok (f x) s
  | Throw e s => Throw e s
  | UB => UB
  | OutOfFuel => OutOfFuel
  end.

Ltac unfold_iter :=
  unfold const_iterator.preinc, const_iterator.postinc, const_iterator.predec,
    const_iterator.postdec, const_iterator.deref, const_iterator.arrow,
    const_iterator.at_end, const_iterator.at_begin, const_iterator.at_sentinel,
    iterator.preinc, iterator.postinc, iterator.predec, iterator.postdec,
    iterator.deref, iterator.arrow, iterator.at_end, iterator.at_begin,
    iterator.at_sentinel, const_iterator.of_iterator, outcome_map,
    ref_data, bind, ret, throw, undefined, load_obj, load_node;
  cbn [current container ccurrent ccontainer fst snd].

Lemma const_preinc_as_iterator s it :
  const_iterator.preinc (const_iterator.of_iterator it) s
  = outcome_map const_iterator.of_iterator (iterator.preinc it s).
Proof. destruct it as [[p|] [c|]]; unfold_iter; by repeat case_match. Qed.

Lemma const_postinc_as_iterator s it :
  const_iterator.postinc (const_iterator.of_iterator it) s
  = outcome_map (λ r, (const_iterator.of_iterator r.1, const_iterator.of_iterator r.2))
      (iterator.postinc it s).
Proof. destruct it as [[p|] [c|]]; unfold_iter; by repeat case_match. Qed.

Lemma const_predec_as_iterator s it :
  const_iterator.predec (const_iterator.of_iterator it) s
  = outcome_map const_iterator.of_iterator (iterator.predec it s).
Proof. destruct it as [[p|] [c|]]; unfold_iter; by repeat case_match. Qed.

Lemma const_postdec_as_iterator s it :
  const_iterator.postdec (const_iterator.of_iterator it) s
  = outcome_map (λ r, (const_iterator.of_iterator r.1, const_iterator.of_iterator r.2))
      (iterator.postdec it s).
Proof. destruct it as [[p|] [c|]]; unfold_iter; by repeat case_match. Qed.

Lemma const_deref_as_iterator s it :
  const_iterator.deref (const_iterator.of_iterator it) s = iterator.deref it s.
Proof. destruct it as [[p|] [c|]]; unfold_iter; by repeat case_match. Qed.

Lemma const_arrow_as_iterator s it :
  const_iterator.arrow (const_iterator.of_iterator it) s = iterator.arrow it s.
Proof. destruct it as [[p|] [c|]]; unfold_iter; by repeat case_match. Qed.

(** Every const_iterator is the read-only view of an iterator with the same
    node and container. *)
Lemma const_iterator_is_view (cit : const_iterator) :
  cit = const_iterator.of_iterator (Iter (ccurrent cit) (ccontainer cit)).
Proof. by destruct cit. Qed.

Lemma outcome_map_throws {A B} (f : A → B) (r : outcome T A) e s :
  outcome_map f r = Throw e s ↔ r = Throw e s.
Proof. destruct r; simpl; split; congruence. Qed.

(** C5. Increment (pre and post) raises invalid_iterator exactly when the
    cursor is unset or at [end()]; decrement exactly when it is unset or
    at [begin()]; dereference and member access exactly when it is unset
    or rests on a sentinel; the same holds for the const_iterator with the
    same cursor; and dereferencing [end()] raises invalid_iterator.  The
    iterator is unset or names a live container. *)
Theorem iterator_errors s (it : iterator) :
  unset it ∨ attached s it →
  let cit := const_iterator.of_iterator it in
  (iterator.preinc it s = Throw invalid_iterator s ↔ unset it ∨ at_end_pos s it)
  ∧ (iterator.postinc it s = Throw invalid_iterator s ↔ unset it ∨ at_end_pos s it)
  ∧ (iterator.predec it s = Throw invalid_iterator s ↔ unset it ∨ at_begin_pos s it)
  ∧ (iterator.postdec it s = Throw invalid_iterator s ↔ unset it ∨ at_begin_pos s it)
  ∧ (iterator.deref it s = Throw invalid_iterator s ↔ unset it ∨ on_sentinel s it)
  ∧ (iterator.arrow it s = Throw invalid_iterator s ↔ unset it ∨ on_sentinel s it)
  ∧ (const_iterator.preinc cit s = Throw invalid_iterator s ↔ unset it ∨ at_end_pos s it)
  ∧ (const_iterator.postinc cit s = Throw invalid_iterator s ↔ unset it ∨ at_end_pos s it)
  ∧ (const_iterator.predec cit s = Throw invalid_iterator s ↔ unset it ∨ at_begin_pos s it)
  ∧ (const_iterator.postdec cit s = Throw invalid_iterator s
     ↔ unset it ∨ at_begin_pos s it)
  ∧ (const_iterator.deref cit s = Throw invalid_iterator s ↔ unset it ∨ on_sentinel s it)
  ∧ (const_iterator.arrow cit s = Throw invalid_iterator s ↔ unset it ∨ on_sentinel s it)
  ∧ (∀ i en, sjtu.end_ i s = Ok en s →
             iterator.deref en s = Throw invalid_iterator s
             ∧ const_iterator.deref (const_iterator.of_iterator en) s
               = Throw invalid_iterator s).
Proof.
  intros Hatt cit.
  destruct (at_end_run s it Hatt) as (be & Hbe & Hend).
  destruct (at_begin_run s it Hatt) as (bb & Hbb & Hbegin).
  destruct (at_sentinel_run s it Hatt) as (bs & Hbs & Hsent).
  assert (iterator.preinc it s = Throw invalid_iterator s ↔ unset it ∨ at_end_pos s it) as H1.
  { rewrite <- Hend. apply guarded_throws; [done|apply quiet_move]. }
  assert (iterator.postinc it s = Throw invalid_iterator s ↔ unset it ∨ at_end_pos s it) as H2.
  { rewrite <- Hend. apply guarded_throws; [done|apply quiet_move]. }
  assert (iterator.predec it s = Throw invalid_iterator s ↔ unset it ∨ at_begin_pos s it) as H3.
  { rewrite <- Hbegin. apply guarded_throws; [done|apply quiet_move]. }
  assert (iterator.postdec it s = Throw invalid_iterator s ↔ unset it ∨ at_begin_pos s it)
    as H4.
  { rewrite <- Hbegin. apply guarded_throws; [done|apply quiet_move]. }
  assert (iterator.deref it s = Throw invalid_iterator s ↔ unset it ∨ on_sentinel s it) as H5.
  { rewrite <- Hsent. apply guarded_throws; [done|apply quiet_ref_data]. }
  assert (iterator.arrow it s = Throw invalid_iterator s ↔ unset it ∨ on_sentinel s it) as H6.
  { rewrite <- Hsent. apply guarded_throws; [done|apply quiet_ref_data]. }
  unfold cit.
  rewrite const_preinc_as_iterator, const_postinc_as_iterator, const_predec_as_iterator,
    const_postdec_as_iterator, const_deref_as_iterator, const_arrow_as_iterator.
  rewrite !outcome_map_throws.
  repeat (split; [assumption|]).
  intros i en Hen. rewrite const_deref_as_iterator.
  assert (iterator.deref en s = Throw invalid_iterator s) as Hd; [|done].
  unfold sjtu.end_, bind, load_obj, ret in Hen.
  destruct (objs s !! i) as [o|] eqn:Ho; [|done]. injection Hen as <-.
  unfold iterator.deref, iterator.at_sentinel. cbn [current container].
  destruct (tail o) as [t|] eqn:Ht; [|done].
  unfold bind, load_obj, ret, throw, ptr_eqb. rewrite Ho.
  case_bool_decide; [done|]. rewrite Ho, Ht. by rewrite bool_decide_eq_true_2.
Qed.
End IteratorErrors.

(** The operations that can raise an error, with their arguments. *)
Inductive raising_call (T : Type) : Type :=
| CallFront (i : lid)
| CallBack (i : lid)
| CallPopFront (i : lid)
| CallPopBack (i : lid)
| CallInsert (i : lid) (pos : iterator) (v : T)
| CallErase (i : lid) (pos : iterator)
| CallPreInc (it : iterator)
| CallPostInc (it : iterator)
| CallPreDec (it : iterator)
| CallPostDec (it : iterator)
| CallDeref (it : iterator)
| CallArrow (it : iterator)
| CallConstPreInc (it : const_iterator)
| CallConstPostInc (it : const_iterator)
| CallConstPreDec (it : const_iterator)
| CallConstPostDec (it : const_iterator)
| CallConstDeref (it : const_iterator)
| CallConstArrow (it : const_iterator).
Arguments CallFront {T} _.
Arguments CallBack {T} _.
Arguments CallPopFront {T} _.
Arguments CallPopBack {T} _.
Arguments CallInsert {T} _ _ _.
Arguments CallErase {T} _ _.
Arguments CallPreInc {T} _.
Arguments CallPostInc {T} _.
Arguments CallPreDec {T} _.
Arguments CallPostDec {T} _.
Arguments CallDeref {T} _.
Arguments CallArrow {T} _.
Arguments CallConstPreInc {T} _.
Arguments CallConstPostInc {T} _.
Arguments CallConstPreDec {T} _.
Arguments CallConstPostDec {T} _.
Arguments CallConstDeref {T} _.
Arguments CallConstArrow {T} _.

Section ErrorAtomicity.
Context {T : Type} {E : Elem T}.
Implicit Types (s : state T).

(** The call, run for its effect on the store. *)
Definition run_call (c : raising_call T) : M T unit :=
  match c with
  | CallFront i => run sjtu.front i then ret tt
  | CallBack i => run sjtu.back i then ret tt
  | CallPopFront i => sjtu.pop_front i
  | CallPopBack i => sjtu.pop_back i
  | CallInsert i pos v => run sjtu.insert i pos v then ret tt
  | CallErase i pos => run sjtu.erase i pos then ret tt
  | CallPreInc it => run iterator.preinc it then ret tt
  | CallPostInc it => run iterator.postinc it then ret tt
  | CallPreDec it => run iterator.predec it then ret tt
  | CallPostDec it => run iterator.postdec it then ret tt
  | CallDeref it => run iterator.deref it then ret tt
  | CallArrow it => run iterator.arrow it then ret tt
  | CallConstPreInc it => run const_iterator.preinc it then ret tt
  | CallConstPostInc it => run const_iterator.postinc it then ret tt
  | CallConstPreDec it => run const_iterator.predec it then ret tt
  | CallConstPostDec it => run const_iterator.postdec it then ret tt
  | CallConstDeref it => run const_iterator.deref it then ret tt
  | CallConstArrow it => run const_iterator.arrow it then ret tt
  end.

Lemma atomic_then_ret {A} (m : M T A) : atomic m → atomic (bind m (λ _, ret tt)).
Proof.
  intros Hm s e s'. unfold bind. destruct (m s) as [x s1|e1 s1| |] eqn:Hms; try done.
  intros [= <- <-]. by apply Hm in Hms.
Qed.

Ltac iter_guard :=
  match goal with
  | |- readonly (match ?p with _ => _ end) => destruct p
  | |- quiet (match ?p with _ => _ end) => destruct p
  | |- readonly (if ?b then _ else _) => destruct b
  | |- quiet (if ?b then _ else _) => destruct b
  | |- readonly (bind _ _) => apply readonly_bind; [|intros ?]
  | |- quiet (bind _ _) => apply quiet_bind; [|intros ?]
  | |- readonly (ret _) => apply readonly_ret
  | |- quiet (ret _) => apply quiet_ret
  | |- readonly (load_obj _) => apply readonly_load_obj
  | |- quiet (load_obj _) => apply quiet_load_obj
  | |- readonly (load_node _) => apply readonly_load_node
  | |- quiet (load_node _) => apply quiet_load_node
  | |- quiet (ref_data _) => apply quiet_ref_data
  end.

Lemma atomic_iterator_ops (it : iterator) :
  atomic (iterator.preinc (T := T) it) ∧ atomic (iterator.postinc (T := T) it)
  ∧ atomic (iterator.predec (T := T) it) ∧ atomic (iterator.postdec (T := T) it)
  ∧ atomic (iterator.deref (T := T) it) ∧ atomic (iterator.arrow (T := T) it).
Proof.
  unfold iterator.preinc, iterator.postinc, iterator.predec, iterator.postdec,
    iterator.deref, iterator.arrow, iterator.at_end, iterator.at_begin,
    iterator.at_sentinel.
  repeat split; apply atomic_guarded; repeat iter_guard.
Qed.

Lemma atomic_const_iterator_ops (it : const_iterator) :
  atomic (const_iterator.preinc (T := T) it)
  ∧ atomic (const_iterator.postinc (T := T) it)
  ∧ atomic (const_iterator.predec (T := T) it)
  ∧ atomic (const_iterator.postdec (T := T) it)
  ∧ atomic (const_iterator.deref (T := T) it)
  ∧ atomic (const_iterator.arrow (T := T) it).
Proof.
  unfold const_iterator.preinc, const_iterator.postinc, const_iterator.predec,
    const_iterator.postdec, const_iterator.deref, const_iterator.arrow,
    const_iterator.at_end, const_iterator.at_begin, const_iterator.at_sentinel.
  repeat split; apply atomic_guarded; repeat iter_guard.
Qed.

(** C9. Whenever front, back, pop_front, pop_back, insert, erase or an
    iterator move or dereference raises an error, the store (values,
    sizes and links of every list) is what it was before the call. *)
Theorem errors_leave_state_unchanged (c : raising_call T) s e s' :
  run_call c s = Throw e s' → s' = s.
Proof.
  revert s e s'. change (atomic (run_call c)).
  destruct c as [i|i|i|i|i pos v|i pos|it|it|it|it|it|it|it|it|it|it|it|it];
    cbn [run_call];
    try (destruct (atomic_iterator_ops it) as (? & ? & ? & ? & ? & ?);
         by apply atomic_then_ret);
    try (destruct (atomic_const_iterator_ops it) as (? & ? & ? & ? & ? & ?);
         by apply atomic_then_ret).
  - apply atomic_then_ret, atomic_front.
  - apply atomic_then_ret, atomic_back.
  - apply atomic_pop_front.
  - apply atomic_pop_back.
  - apply atomic_then_ret, atomic_insert.
  - apply atomic_then_ret, atomic_erase.
Qed.

(** C10. Assigning a list to itself returns normally and leaves the whole
    store, hence the size and the values of the list, as it was. *)
Theorem self_assignment_is_noop (fuel : nat) (a : lid) s :
  sjtu.assign fuel a a s = Ok tt s.
Proof. unfold sjtu.assign. by rewrite bool_decide_eq_true_2. Qed.
End ErrorAtomicity.

(** ** Worked stores *)

(** The store a program leaves. *)
Definition final {T} (r : outcome T unit) : state T :=
  match r with
  | Ok _ s => s
  | Throw _ s => s
  | _ => empty_state
  end.

Lemma wf_final {T} `{Elem T} (S : sorter T) (os : list (op T)) :
  valid_ops S os empty_state = true → wf (final (run_ops S os empty_state)).
Proof.
  intros Hv. destruct (run_ops_rep S os ∅ empty_state rep_empty Hv) as (a & s & -> & Hrep & _).
  by exists a.
Qed.

(** [1] holds [5,1,4,2,3]. *)
Definition demo_ops : list (op Z) :=
  [Ctor 1%positive; PushBack 1%positive 5; PushBack 1%positive 1;
   PushBack 1%positive 4; PushBack 1%positive 2; PushBack 1%positive 3].
Definition demo_state : state Z := final (run_ops insertion_sorter demo_ops empty_state).

(** [1] is empty. *)
Definition blank_state : state Z :=
  final (run_ops insertion_sorter [Ctor 1%positive] empty_state).

(** [1] holds [1,3,3,5] and [2] holds [2,3,4]. *)
Definition pair_ops : list (op Z) :=
  [Ctor 1%positive; PushBack 1%positive 1; PushBack 1%positive 3;
   PushBack 1%positive 3; PushBack 1%positive 5;
   Ctor 2%positive; PushBack 2%positive 2; PushBack 2%positive 3;
   PushBack 2%positive 4].
Definition pair_state : state Z := final (run_ops insertion_sorter pair_ops empty_state).

Lemma wf_demo_state : wf demo_state.
Proof. apply wf_final. by vm_compute. Qed.

Lemma wf_blank_state : wf blank_state.
Proof. apply wf_final. by vm_compute. Qed.

Lemma wf_pair_state : wf pair_state.
Proof. apply wf_final. by vm_compute. Qed.

Definition demo_end : iterator :=
  match sjtu.end_ 1%positive demo_state with
  | Ok it _ => it
  | _ => Iter None None
  end.

Lemma iterator_errors_witness :
  iterator.deref demo_end demo_state = Throw invalid_iterator demo_state.
Proof.
  assert (unset demo_end ∨ attached demo_state demo_end) as Hatt.
  { right. unfold attached. eexists _, _, _. vm_compute. repeat split. }
  destruct (iterator_errors demo_state demo_end Hatt)
    as (_ & _ & _ & _ & [_ Hderef] & _).
  apply Hderef. right. unfold on_sentinel. eexists _, _. vm_compute.
  split; [reflexivity|]. split; [reflexivity|]. by right.
Defined.

Lemma errors_leave_state_unchanged_witness :
  run_call (CallPopFront 1%positive) blank_state = Throw container_is_empty blank_state
  ∧ blank_state = blank_state.
Proof.
  split; [vm_compute; reflexivity|].
  apply (errors_leave_state_unchanged (CallPopFront 1%positive) blank_state
           container_is_empty blank_state).
  vm_compute; reflexivity.
Defined.

(** ** C1: the container invariant *)

Section Invariant.
Context {T : Type} {E : Elem T} (S : sorter T).

(** C1 (as amended). From a well-formed store, every program over the
    public operations whose calls are valid where they are made (a live
    list, room in the size counter, and for insert and erase an iterator
    that addresses an element or end() of the container it names) runs to
    its end, and then every list satisfies the invariant: size() is the
    number of nodes met between the sentinels by following next, every
    node's neighbours point back at it, head.prev and tail.next are
    null. *)
Theorem invariant_preserved (os : list (op T)) (s : state T) :
  wf s →
  valid_ops S os s = true →
  ∃ s', run_ops S os s = Ok tt s'
      ∧ wf s'
      ∧ ∀ i, live s' i = true → list_inv s' i.
Proof.
  intros [a Hrep] Hv.
  destruct (run_ops_rep S os a s Hrep Hv) as (a' & s' & Hrun & Hrep' & _).
  exists s'. split; [done|]. split; [by exists a'|].
  intros i Hi. apply bool_decide_eq_true in Hi. by eapply rep_inv.
Qed.
End Invariant.

(** A program that inserts, erases, merges, reverses, sorts and
    deduplicates with valid iterators. *)
Definition busy_ops : list (op Z) :=
  pair_ops
  ++ [Merge 1%positive 2%positive; Reverse 1%positive; Unique 1%positive;
      PushFront 2%positive 8; Sort 1%positive; PopBack 1%positive;
      Clear 2%positive; PopFront 2%positive].

Lemma invariant_preserved_witness :
  ∃ s', run_ops insertion_sorter busy_ops empty_state = Ok tt s'
      ∧ wf s'
      ∧ ∀ i, live s' i = true → list_inv s' i.
Proof.
  apply (invariant_preserved insertion_sorter busy_ops empty_state).
  - apply wf_empty.
  - by vm_compute.
Defined.

(** [end()] taken before [reverse()] rests on the node that has become the
    head sentinel; inserting at it dereferences a null [prev]. *)
Example end_is_stale_after_reverse :
  let en := Iter (Some 2%positive) (Some 1%positive) in
  let s' := final (sjtu.reverse 8 1%positive demo_state) in
  sjtu.end_ 1%positive demo_state = Ok en demo_state
  ∧ sentinels_of s' 1%positive = Some (Some 2%positive, Some 1%positive)
  ∧ iter_ok s' 1%positive en = false
  ∧ sjtu.insert 1%positive en 7 s' = UB.
Proof. repeat split; vm_compute; reflexivity. Qed.

(** The iterator [begin()] of list [2] in [pair_state]. *)
Definition stale_begin : iterator :=
  match sjtu.begin 2%positive pair_state with
  | Ok it _ => it
  | _ => Iter None None
  end.

(** [it = B.begin(); A.merge(B); B.insert(it, 9)]. *)
Definition stale_ops : list (op Z) :=
  [Merge 1%positive 2%positive; Insert 2%positive stale_begin 9].
Definition stale_state : state Z :=
  final (run_ops insertion_sorter stale_ops pair_state).

(** C1 as stated fails: after [merge] has moved the nodes of [2] into [1],
    an iterator obtained from [2] before the merge still names [2], so
    [insert] accepts it, links the new node into the chain of [1] and
    counts it in [2]: list [2] reports size 1 with no node between its
    sentinels, list [1] reports size 7 with 8 nodes. *)
Lemma invariant_broken_by_stale_iterator :
  wf pair_state
  ∧ sjtu.begin 2%positive pair_state = Ok stale_begin pair_state
  ∧ run_ops insertion_sorter stale_ops pair_state = Ok tt stale_state
  ∧ size_of stale_state 2%positive = Some 1
  ∧ nodes_of stale_state 2%positive = Some []
  ∧ size_of stale_state 1%positive = Some 7
  ∧ length <$> nodes_of stale_state 1%positive = Some 8%nat
  ∧ ¬ list_inv stale_state 2%positive.
Proof.
  split; [apply wf_pair_state|].
  split; [vm_compute; reflexivity|]. split; [vm_compute; reflexivity|].
  split; [vm_compute; reflexivity|]. split; [vm_compute; reflexivity|].
  split; [vm_compute; reflexivity|]. split; [vm_compute; reflexivity|].
  intros (o & hd & tl & ns & hn & tn & Ho & _ & _ & Hns & Hsz & _).
  assert (nodes_of stale_state 2%positive = Some []) as Hns'
    by (vm_compute; reflexivity).
  assert (size_of stale_state 2%positive = Some 1) as Hsz'
    by (vm_compute; reflexivity).
  rewrite Hns' in Hns. injection Hns as <-.
  unfold size_of in Hsz'. rewrite Ho in Hsz'. injection Hsz' as Hsz'.
  rewrite Hsz' in Hsz. discriminate Hsz.
Qed.

(** ** C2: merge *)

Section MergeClaim.
Context {T : Type} {E : Elem T}.

(** C2. For distinct lists [i] and [j], both ascending by operator< (a
    strict weak order), [i.merge(j)] returns and leaves in [i] the stable
    merge of the two node sequences: the same nodes relinked, no value
    copied and no node allocated or freed; a node of [j] goes before a
    node of [i] only when its value is strictly less, so on ties the
    elements of [i] come first; the order within each list is kept; the
    result is ascending; [j] ends with size 0 and its own two sentinels
    linked to each other. *)
Theorem merge_is_stable (fuel : nat) (s : state T) (i j : lid)
    (cA cB : list (positive * T)) :
  wf s →
  i ≠ j →
  cells_of s i = Some cA →
  cells_of s j = Some cB →
  (length cA + length cB < fuel)%nat →
  Z.of_nat (length cA + length cB) < size_t_mod →
  strict_weak_order →
  ascending cA.*2 →
  ascending cB.*2 →
  ∃ s',
    sjtu.merge fuel i j s = Ok tt s'
    ∧ wf s'
    ∧ cells_of s' i = Some (merge_cells cA cB)
    ∧ size_of s' i = Some (Z.of_nat (length cA + length cB))
    ∧ cells_of s' j = Some []
    ∧ size_of s' j = Some 0
    ∧ sentinels_of s' j = sentinels_of s j
    ∧ sentinels_linked s' j
    ∧ same_data (heap s) (heap s')
    ∧ dom (heap s') = dom (heap s)
    ∧ merge_cells cA cB ≡ₚ cA ++ cB
    ∧ cA `sublist_of` merge_cells cA cB
    ∧ cB `sublist_of` merge_cells cA cB
    ∧ ascending (merge_cells cA cB).*2
    ∧ (∀ c d, c ∈ cB → d ∈ cA → precedes c d (merge_cells cA cB) →
              elt_lt c.2 d.2 = true).
Proof.
  intros [a Hrep] Hij HcA HcB Hf Hb Hswo HsA HsB.
  destruct (rep_cells_of a s i cA Hrep HcA) as (A & HA & <-).
  destruct (rep_cells_of a s j cB Hrep HcB) as (B & HB & <-).
  destruct (merge_rep fuel a s i j A B Hrep Hij HA HB Hf Hb)
    as (s' & Hrun & Hrep' & Hsame).
  set (a' := <[i:=with_cells A (merge_cells (a_cells A) (a_cells B))]>
               (<[j:=with_cells B []]> a)) in *.
  assert (a' !! i = Some (with_cells A (merge_cells (a_cells A) (a_cells B)))) as Hi'
    by (unfold a'; apply lookup_insert_eq).
  assert (a' !! j = Some (with_cells B [])) as Hj'
    by (unfold a'; rewrite lookup_insert_ne by done; apply lookup_insert_eq).
  pose proof (rep_list _ _ Hrep' _ _ Hi') as Hli'.
  pose proof (rep_list _ _ Hrep' _ _ Hj') as Hlj'.
  exists s'. split; [done|]. split; [by exists a'|].
  split; [by rewrite (is_list_cells_of _ _ _ Hli')|].
  split.
  { rewrite (is_list_size_of _ _ _ Hli'). cbn [with_cells a_cells].
    by rewrite merge_cells_length. }
  split; [by rewrite (is_list_cells_of _ _ _ Hlj')|].
  split; [by rewrite (is_list_size_of _ _ _ Hlj')|].
  split.
  { rewrite (is_list_sentinels_of _ _ _ Hlj').
    by rewrite (is_list_sentinels_of _ _ _ (rep_list _ _ Hrep _ _ HB)). }
  split; [by apply (is_list_empty_linked s' j _ Hlj')|].
  split; [done|]. split; [by apply same_data_dom|].
  split; [apply merge_cells_perm|].
  split; [apply merge_cells_sublist_l|].
  split; [apply merge_cells_sublist_r|].
  split; [by apply merge_cells_ascending|].
  intros c d Hc Hd Hpre. apply (merge_cells_tie_break (a_cells A) (a_cells B)); try done.
  intros z Hz Hz'.
  by apply (rep_cells_disjoint a s i j A B z z Hrep Hij HA HB Hz Hz').
Qed.
End MergeClaim.

Lemma merge_is_stable_witness :
  ∃ s', sjtu.merge 8 1%positive 2%positive pair_state = Ok tt s'
      ∧ values_of s' 1%positive = Some [1; 2; 3; 3; 3; 4; 5]
      ∧ values_of s' 2%positive = Some []
      ∧ size_of s' 2%positive = Some 0.
Proof.
  destruct (merge_is_stable 8 pair_state 1%positive 2%positive
              [(3%positive, 1); (4%positive, 3); (5%positive, 3); (6%positive, 5)]
              [(9%positive, 2); (10%positive, 3); (11%positive, 4)])
    as (s' & Hrun & _ & Hcells & _ & Hcells' & Hsz & _).
  - apply wf_pair_state.
  - done.
  - vm_compute; reflexivity.
  - vm_compute; reflexivity.
  - simpl; lia.
  - vm_compute; reflexivity.
  - apply Z_strict_weak_order.
  - repeat constructor.
  - repeat constructor.
  - exists s'. split; [exact Hrun|].
    remember (final (sjtu.merge 8 1%positive 2%positive pair_state)) as sf eqn:Hsf.
    assert (sjtu.merge 8 1%positive 2%positive pair_state = Ok tt sf) as Hrun'
      by (subst sf; vm_compute; reflexivity).
    rewrite Hrun in Hrun'. injection Hrun' as ->. subst sf.
    split; [vm_compute; reflexivity|]. split; [vm_compute; reflexivity|].
    vm_compute; reflexivity.
Defined.

(** The example of the specification: A = [1,3,3,5], B = [2,3,4]; the 3 of
    B (node 10) comes after both 3s of A (nodes 4 and 5). *)
Example merge_example :
  let s' := final (sjtu.merge 8 1%positive 2%positive pair_state) in
  values_of pair_state 1%positive = Some [1; 3; 3; 5]
  ∧ values_of pair_state 2%positive = Some [2; 3; 4]
  ∧ cells_of s' 1%positive
    = Some [(3%positive, 1); (9%positive, 2); (4%positive, 3); (5%positive, 3);
            (10%positive, 3); (11%positive, 4); (6%positive, 5)]
  ∧ cells_of s' 2%positive = Some []
  ∧ sjtu.empty 2%positive s' = Ok true s'.
Proof. repeat split; vm_compute; reflexivity. Qed.

(** ** C3: erase *)

Section EraseClaim.
Context {T : Type} {E : Elem T}.

(** [pos == end()] for the list [i]. *)
Definition is_end_of (s : state T) (i : lid) (pos : iterator) : Prop :=
  ∃ en, sjtu.end_ i s = Ok en s ∧ iterator.eq pos en = true.

(** C3. On an empty list erase raises container_is_empty whatever the
    iterator is (the emptiness check comes first).  On a non-empty list
    it raises invalid_iterator when the iterator names another container
    or equals end().  On an iterator of the list that addresses an
    element it removes exactly that element, releases its node, and
    returns the iterator that incrementing [pos] gave before the call,
    which is end() when the element was the last. *)
Theorem erase_contract (s : state T) (i : lid) (cs : list (positive * T))
    (pos : iterator) :
  wf s →
  cells_of s i = Some cs →
  (cs = [] → sjtu.erase i pos s = Throw container_is_empty s)
  ∧ (cs ≠ [] → container pos ≠ Some i ∨ is_end_of s i pos →
     sjtu.erase i pos s = Throw invalid_iterator s)
  ∧ (∀ c1 p v c2,
       cs = c1 ++ (p, v) :: c2 →
       pos = Iter (Some p) (Some i) →
       ∃ s' r,
         sjtu.erase i pos s = Ok r s'
         ∧ iterator.preinc pos s = Ok r s
         ∧ (c2 = [] → sjtu.end_ i s' = Ok r s')
         ∧ wf s'
         ∧ cells_of s' i = Some (c1 ++ c2)
         ∧ size_of s' i = Some (Z.of_nat (length cs) - 1)
         ∧ heap s' !! p = None
         ∧ is_Some (heap s !! p)).
Proof.
  intros [a Hrep] Hcs.
  destruct (rep_cells_of a s i cs Hrep Hcs) as (al & Hal & <-).
  pose proof (rep_list _ _ Hrep _ _ Hal) as Hl.
  destruct (is_list_head _ _ _ Hl) as (o & _ & Ho & _ & Ht & _).
  split; [|split].
  - intros Hnil. by apply (erase_empty s i al).
  - intros Hne [Hc|(en & Hen & Heq)].
    + apply (erase_invalid s i al); [done..|]. by left.
    + apply (erase_invalid s i al); [done..|]. right.
      rewrite (end_ok s i o Ho) in Hen. injection Hen as <-.
      unfold iterator.eq, ptr_eqb in Heq. cbn [current] in Heq.
      apply bool_decide_eq_true in Heq. by rewrite Heq.
  - intros c1 p v c2 Hsplit ->.
    destruct (erase_rep a s i al c1 p v c2 Hrep Hal Hsplit) as (s' & Hrun & Hrep' & Hfreed).
    set (al' := AList (a_head al) (c1 ++ c2) (a_tail al)) in *.
    assert (<[i := al']> a !! i = Some al') as Hal' by apply lookup_insert_eq.
    pose proof (rep_list _ _ Hrep' _ _ Hal') as Hl'.
    exists s', (Iter (Some (first_of c2 (a_tail al))) (Some i)).
    split; [done|]. split; [by apply (iter_preinc_node s i al c1 p v c2)|].
    split.
    { intros ->. destruct (is_list_head _ _ _ Hl') as (o' & _ & Ho' & _ & Ht' & _).
      rewrite (end_ok s' i o' Ho'), Ht'. done. }
    split; [by eexists|].
    split; [by rewrite (is_list_cells_of _ _ _ Hl')|].
    split.
    { rewrite (is_list_size_of _ _ _ Hl'). unfold al'. cbn [a_cells].
      rewrite Hsplit, !length_app. cbn [length]. f_equal. lia. }
    split; [done|].
    destruct (is_list_node s i al c1 p v c2 Hl Hsplit) as (nd & -> & _). by eexists.
Qed.
End EraseClaim.

(** Erasing the 4 of [5,1,4,2,3] (node 5) returns the iterator at the 2. *)
Lemma erase_contract_witness :
  ∃ s' r,
    sjtu.erase 1%positive (Iter (Some 5%positive) (Some 1%positive)) demo_state = Ok r s'
    ∧ iterator.preinc (Iter (Some 5%positive) (Some 1%positive)) demo_state = Ok r demo_state
    ∧ cells_of s' 1%positive
      = Some ([(3%positive, 5); (4%positive, 1)] ++ [(6%positive, 2); (7%positive, 3)]).
Proof.
  destruct (erase_contract demo_state 1%positive
              [(3%positive, 5); (4%positive, 1); (5%positive, 4); (6%positive, 2);
               (7%positive, 3)]
              (Iter (Some 5%positive) (Some 1%positive)))
    as (_ & _ & Herase).
  - apply wf_demo_state.
  - vm_compute; reflexivity.
  - destruct (Herase [(3%positive, 5); (4%positive, 1)] 5%positive 4
                [(6%positive, 2); (7%positive, 3)] eq_refl eq_refl)
      as (s' & r & Hrun & Hinc & _ & _ & Hcells & _).
    exists s', r. by repeat split.
Defined.

(** ** C4: sort *)

Section SortClaim.
Context {T : Type} {E : Elem T} (S : sorter T).

Lemma sort_cells_nodes (cs : list (positive * T)) : (sort_cells S cs).*1 = cs.*1.
Proof.
  unfold sort_cells. case_bool_decide; [done|].
  apply fst_zip. by rewrite sort_buf_length, !length_fmap.
Qed.

Lemma sort_cells_values (cs : list (positive * T)) :
  (sort_cells S cs).*2
  = if bool_decide (length cs ≤ 1)%nat then cs.*2
    else sort_buf S (λ x y, elt_lt x y) cs.*2.
Proof.
  unfold sort_cells. case_bool_decide; [done|].
  apply snd_zip. by rewrite sort_buf_length, !length_fmap.
Qed.

Lemma sort_cells_sorted (cs : list (positive * T)) :
  sorter_correct S →
  (sort_cells S cs).*2 ≡ₚ cs.*2 ∧ ascending (sort_cells S cs).*2.
Proof.
  intros Hok. rewrite sort_cells_values. case_bool_decide as Hlen.
  - split; [done|]. apply ascending_short. by rewrite length_fmap.
  - apply Hok.
Qed.

(** C4 (as amended). With a collaborator that sorts, sort() returns and
    leaves the same nodes in the same order with the same links (nothing
    allocated or freed), holding an ascending rearrangement of the old
    values; and when operator< is a total order (two values neither of
    which is less than the other are equal), sorting again leaves the
    sequence unchanged. *)
Theorem sort_sorts_in_place (fuel : nat) (s : state T) (i : lid)
    (cs : list (positive * T)) :
  wf s →
  cells_of s i = Some cs →
  (length cs < fuel)%nat →
  sorter_correct S →
  ∃ s' vs',
    sjtu.sort S fuel i s = Ok tt s'
    ∧ wf s'
    ∧ nodes_of s' i = Some cs.*1
    ∧ same_links (heap s) (heap s')
    ∧ dom (heap s') = dom (heap s)
    ∧ sentinels_of s' i = sentinels_of s i
    ∧ size_of s' i = size_of s i
    ∧ values_of s' i = Some vs'
    ∧ vs' ≡ₚ cs.*2
    ∧ ascending vs'
    ∧ (total_order →
       ∃ s'', sjtu.sort S fuel i s' = Ok tt s''
            ∧ nodes_of s'' i = Some cs.*1
            ∧ values_of s'' i = Some vs').
Proof.
  intros [a Hrep] Hcs Hf Hok.
  destruct (rep_cells_of a s i cs Hrep Hcs) as (al & Hal & <-).
  pose proof (rep_list _ _ Hrep _ _ Hal) as Hl.
  destruct (sort_rep S fuel a s i al Hrep Hal Hf) as (s' & Hrun & Hrep' & Hlinks).
  set (al' := with_cells al (sort_cells S (a_cells al))) in *.
  assert (<[i := al']> a !! i = Some al') as Hal' by apply lookup_insert_eq.
  pose proof (rep_list _ _ Hrep' _ _ Hal') as Hl'.
  destruct (sort_cells_sorted (a_cells al) Hok) as [Hperm Hasc].
  exists s', (sort_cells S (a_cells al)).*2.
  split; [done|]. split; [by eexists|].
  split.
{ rewrite (is_list_nodes_of _ _ _ Hl'). unfold al'. cbn [with_cells a_cells].
by rewrite sort_cells_nodes. }
  split; [done|]. split; [by apply same_links_dom|].
  split.
  { by rewrite (is_list_sentinels_of _ _ _ Hl'), (is_list_sentinels_of _ _ _ Hl). }
  split.
  { rewrite (is_list_size_of _ _ _ Hl'), (is_list_size_of _ _ _ Hl). unfold al'.
    cbn [with_cells a_cells].
    by rewrite <- (length_fmap fst (sort_cells _ _)), sort_cells_nodes, length_fmap. }
  split; [by rewrite (is_list_values_of _ _ _ Hl')|].
  split; [done|]. split; [done|].
  intros Htot.
  destruct (sort_rep S fuel _ s' i al' Hrep' Hal') as (s'' & Hrun' & Hrep'' & _).
  { unfold al'. cbn [with_cells a_cells].
    by rewrite <- (length_fmap fst (sort_cells _ _)), sort_cells_nodes, length_fmap. }
  set (al'' := with_cells al' (sort_cells S (a_cells al'))) in *.
  assert (<[i := al'']> (<[i := al']> a) !! i = Some al'') as Hal'' by apply lookup_insert_eq.
  pose proof (rep_list _ _ Hrep'' _ _ Hal'') as Hl''.
  exists s''. split; [done|].
  split.
  { rewrite (is_list_nodes_of _ _ _ Hl''). unfold al''. cbn [with_cells a_cells].
    rewrite sort_cells_nodes. unfold al'. cbn [with_cells a_cells].
    by rewrite sort_cells_nodes. }
  rewrite (is_list_values_of _ _ _ Hl''). f_equal.
  unfold al''. cbn [with_cells a_cells].
  destruct (sort_cells_sorted (a_cells al') Hok) as [Hperm' Hasc'].
  unfold al' in *. cbn [with_cells a_cells] in *.
  by apply ascending_perm_unique.
Qed.
End SortClaim.

(** The example of the specification: [5,1,4,2,3] becomes [1,2,3,4,5] and
    stays so when sorted again. *)
Lemma sort_sorts_in_place_witness :
  ∃ s' s'',
    sjtu.sort insertion_sorter 6 1%positive demo_state = Ok tt s'
    ∧ values_of s' 1%positive = Some [1; 2; 3; 4; 5]
    ∧ nodes_of s' 1%positive = nodes_of demo_state 1%positive
    ∧ sjtu.sort insertion_sorter 6 1%positive s' = Ok tt s''
    ∧ values_of s'' 1%positive = Some [1; 2; 3; 4; 5].
Proof.
  destruct (sort_sorts_in_place insertion_sorter 6 demo_state 1%positive
              [(3%positive, 5); (4%positive, 1); (5%positive, 4); (6%positive, 2);
               (7%positive, 3)])
    as (s' & vs' & Hrun & _ & Hnodes & _ & _ & _ & _ & Hvals & _ & _ & Hagain).
  - apply wf_demo_state.
  - vm_compute; reflexivity.
  - simpl; lia.
  - apply insertion_sorter_correct, Z_strict_weak_order.
  - destruct (Hagain Z_total_order) as (s'' & Hrun' & _ & Hvals').
    exists s', s''.
    remember (final (sjtu.sort insertion_sorter 6 1%positive demo_state)) as sf eqn:Hsf.
    assert (sjtu.sort insertion_sorter 6 1%positive demo_state = Ok tt sf) as Hrunf
      by (subst sf; vm_compute; reflexivity).
    rewrite Hrun in Hrunf. injection Hrunf as ->.
    assert (values_of sf 1%positive = Some [1; 2; 3; 4; 5]) as Hv
      by (subst sf; vm_compute; reflexivity).
    rewrite Hv in Hvals. injection Hvals as <-.
    split; [done|]. split; [done|].
    split; [subst sf; vm_compute; reflexivity|]. by split.
Defined.

(** Pairs ordered by their first component: a strict weak order under which
    different values can be tied. *)
Definition by_key : Elem (Z * Z) :=
  {| elt_lt := λ x y, x.1 <? y.1; elt_eq := λ x y, x.1 =? y.1 |}.

Lemma by_key_strict_weak_order : @strict_weak_order (Z * Z) by_key.
Proof.
  split; cbn [elt_lt by_key].
  - intros x. apply Z.ltb_irrefl.
  - intros x y z Hxy Hyz. apply Z.ltb_lt in Hxy, Hyz. apply Z.ltb_lt. lia.
  - intros x y z Hxz. apply Z.ltb_lt in Hxz.
    destruct (Z.ltb_spec x.1 y.1); [by left|]. right. apply Z.ltb_lt. lia.
Qed.

(** [1] holds the two tied values (1,0), (1,1). *)
Definition tied_state : state (Z * Z) :=
  final (@run_ops _ by_key insertion_sorter
           [Ctor 1%positive; PushBack 1%positive (1, 0); PushBack 1%positive (1, 1)]
           empty_state).
Definition tied_sorted : state (Z * Z) :=
  final (@sjtu.sort _ by_key insertion_sorter 3 1%positive tied_state).
Definition tied_sorted_again : state (Z * Z) :=
  final (@sjtu.sort _ by_key insertion_sorter 3 1%positive tied_sorted).

(** C4 as stated fails: a collaborator that sorts correctly may still order
    tied values differently on each run, so a second sort() can change the
    sequence. *)
Lemma sort_not_idempotent :
  @sorter_correct (Z * Z) by_key insertion_sorter
  ∧ values_of tied_state 1%positive = Some [(1, 0); (1, 1)]
  ∧ @sjtu.sort _ by_key insertion_sorter 3 1%positive tied_state = Ok tt tied_sorted
  ∧ values_of tied_sorted 1%positive = Some [(1, 1); (1, 0)]
  ∧ @sjtu.sort _ by_key insertion_sorter 3 1%positive tied_sorted = Ok tt tied_sorted_again
  ∧ values_of tied_sorted_again 1%positive = Some [(1, 0); (1, 1)]
  ∧ values_of tied_sorted_again 1%positive ≠ values_of tied_sorted 1%positive.
Proof.
  split; [apply (@insertion_sorter_correct _ by_key), by_key_strict_weak_order|].
  repeat split; try (vm_compute; reflexivity).
  vm_compute. discriminate.
Qed.

(** ** C6: unique *)

Section UniqueClaim.
Context {T : Type} {E : Elem T}.

(** C6. With operator== symmetric and transitive, unique() returns and
    keeps, of every maximal run of adjacent equal elements, the first one
    only: an element goes exactly when it equals the element just before
    it, so equal elements that are not adjacent all stay; the survivors
    are the original nodes in their original order. *)
Theorem unique_keeps_run_heads (fuel : nat) (s : state T) (i : lid)
    (cs : list (positive * T)) :
  wf s →
  cells_of s i = Some cs →
  (length cs < fuel)%nat →
  equality_like →
  ∃ s',
    sjtu.unique fuel i s = Ok tt s'
    ∧ wf s'
    ∧ cells_of s' i = Some (run_heads cs)
    ∧ size_of s' i = Some (Z.of_nat (length (run_heads cs)))
    ∧ run_heads cs `sublist_of` cs.
Proof.
  intros [a Hrep] Hcs Hf Heq.
  destruct (rep_cells_of a s i cs Hrep Hcs) as (al & Hal & <-).
  destruct (unique_rep fuel a s i al Hrep Hal Hf) as (s' & Hrun & Hrep').
  set (al' := with_cells al (unique_list (a_cells al))) in *.
  assert (<[i := al']> a !! i = Some al') as Hal' by apply lookup_insert_eq.
  pose proof (rep_list _ _ Hrep' _ _ Hal') as Hl'.
  rewrite <- (unique_list_run_heads (a_cells al) Heq).
  exists s'. split; [done|]. split; [by eexists|].
  split; [by rewrite (is_list_cells_of _ _ _ Hl')|].
  split; [by rewrite (is_list_size_of _ _ _ Hl')|].
  apply unique_list_sublist.
Qed.
End UniqueClaim.

(** [1] holds [1,1,2,1,1]. *)
Definition runs_state : state Z :=
  final (run_ops insertion_sorter
           [Ctor 1%positive; PushBack 1%positive 1; PushBack 1%positive 1;
            PushBack 1%positive 2; PushBack 1%positive 1; PushBack 1%positive 1]
           empty_state).

Lemma wf_runs_state : wf runs_state.
Proof. apply wf_final. by vm_compute. Qed.

(** The example of the specification: [1,1,2,1,1] becomes [1,2,1]. *)
Lemma unique_keeps_run_heads_witness :
  ∃ s', sjtu.unique 6 1%positive runs_state = Ok tt s'
      ∧ cells_of s' 1%positive = Some [(3%positive, 1); (5%positive, 2); (6%positive, 1)].
Proof.
  destruct (unique_keeps_run_heads 6 runs_state 1%positive
              [(3%positive, 1); (4%positive, 1); (5%positive, 2); (6%positive, 1);
               (7%positive, 1)])
    as (s' & Hrun & _ & Hcells & _).
  - apply wf_runs_state.
  - vm_compute; reflexivity.
  - simpl; lia.
  - apply Z_equality_like.
  - exists s'. split; [exact Hrun|]. exact Hcells.
Defined.

Example unique_example :
  values_of runs_state 1%positive = Some [1; 1; 2; 1; 1]
  ∧ values_of (final (sjtu.unique 6 1%positive runs_state)) 1%positive = Some [1; 2; 1].
Proof. split; vm_compute; reflexivity. Qed.

(** ** C7: reverse *)

Section ReverseClaim.
Context {T : Type} {E : Elem T}.

(** C7. reverse() returns and leaves the nodes in exactly the reverse
    order, each holding the value it held; nothing is allocated, freed or
    copied; a second reverse() restores the original sequence of nodes
    and values and the original sentinels. *)
Theorem reverse_is_involution (fuel : nat) (s : state T) (i : lid)
    (cs : list (positive * T)) :
  wf s →
  cells_of s i = Some cs →
  (length cs + 2 < fuel)%nat →
  ∃ s1 s2,
    sjtu.reverse fuel i s = Ok tt s1
    ∧ wf s1
    ∧ cells_of s1 i = Some (rev cs)
    ∧ size_of s1 i = size_of s i
    ∧ ((1 < length cs)%nat →
       sentinels_of s1 i = (λ p, (p.2, p.1)) <$> sentinels_of s i)
    ∧ same_data (heap s) (heap s1)
    ∧ dom (heap s1) = dom (heap s)
    ∧ sjtu.reverse fuel i s1 = Ok tt s2
    ∧ wf s2
    ∧ cells_of s2 i = Some cs
    ∧ sentinels_of s2 i = sentinels_of s i
    ∧ same_data (heap s) (heap s2).
Proof.
  intros [a Hrep] Hcs Hf.
  destruct (rep_cells_of a s i cs Hrep Hcs) as (al & Hal & <-).
  pose proof (rep_list _ _ Hrep _ _ Hal) as Hl.
  destruct (reverse_rep fuel a s i al Hrep Hal Hf) as (s1 & Hrun1 & Hrep1 & Hsame1).
  set (al1 := reverse_alist al) in *.
  assert (<[i := al1]> a !! i = Some al1) as Hal1 by apply lookup_insert_eq.
  pose proof (rep_list _ _ Hrep1 _ _ Hal1) as Hl1.
  assert (a_cells al1 = rev (a_cells al)) as Hc1.
  { unfold al1, reverse_alist. case_bool_decide as Hlen; [|done].
    destruct (a_cells al) as [|c [|d r]]; simpl in *; [done|done|lia]. }
  assert (length (a_cells al1) = length (a_cells al)) as Hlen1
    by (by rewrite Hc1, length_rev).
  destruct (reverse_rep fuel _ s1 i al1 Hrep1 Hal1) as (s2 & Hrun2 & Hrep2 & Hsame2);
    [lia|].
  set (al2 := reverse_alist al1) in *.
  assert (<[i := al2]> (<[i := al1]> a) !! i = Some al2) as Hal2 by apply lookup_insert_eq.
  pose proof (rep_list _ _ Hrep2 _ _ Hal2) as Hl2.
  assert (al2 = al) as Hback.
  { unfold al2, al1, reverse_alist.
    destruct (bool_decide (length (a_cells al) ≤ 1)%nat) eqn:Hb.
    - by rewrite Hb.
    - cbn [a_cells a_head a_tail]. rewrite length_rev, Hb, rev_involutive.
      by destruct al. }
  exists s1, s2. split; [done|]. split; [by eexists|].
  split; [by rewrite (is_list_cells_of _ _ _ Hl1), Hc1|].
  split; [by rewrite (is_list_size_of _ _ _ Hl1), (is_list_size_of _ _ _ Hl), Hlen1|].
  split.
  { intros Hlong.
    rewrite (is_list_sentinels_of _ _ _ Hl1), (is_list_sentinels_of _ _ _ Hl).
    unfold al1, reverse_alist. by rewrite bool_decide_eq_false_2 by lia. }
  split; [done|]. split; [by apply same_data_dom|].
  split; [done|]. split; [by eexists|].
  rewrite Hback in Hl2.
  split; [by rewrite (is_list_cells_of _ _ _ Hl2)|].
  split; [by rewrite (is_list_sentinels_of _ _ _ Hl2), (is_list_sentinels_of _ _ _ Hl)|].
  by eapply same_data_trans.
Qed.
End ReverseClaim.

Lemma reverse_is_involution_witness :
  ∃ s1 s2,
    sjtu.reverse 8 1%positive demo_state = Ok tt s1
    ∧ cells_of s1 1%positive
      = Some (rev [(3%positive, 5); (4%positive, 1); (5%positive, 4); (6%positive, 2);
                   (7%positive, 3)])
    ∧ sjtu.reverse 8 1%positive s1 = Ok tt s2
    ∧ cells_of s2 1%positive = cells_of demo_state 1%positive.
Proof.
  destruct (reverse_is_involution 8 demo_state 1%positive
              [(3%positive, 5); (4%positive, 1); (5%positive, 4); (6%positive, 2);
               (7%positive, 3)])
    as (s1 & s2 & Hrun1 & _ & Hc1 & _ & _ & _ & _ & Hrun2 & _ & Hc2 & _).
  - apply wf_demo_state.
  - vm_compute; reflexivity.
  - simpl; lia.
  - exists s1, s2. split; [exact Hrun1|]. split; [exact Hc1|]. split; [exact Hrun2|].
    rewrite Hc2. vm_compute; reflexivity.
Defined.

Example reverse_example :
  let s1 := final (sjtu.reverse 8 1%positive demo_state) in
  let s2 := final (sjtu.reverse 8 1%positive s1) in
  values_of demo_state 1%positive = Some [5; 1; 4; 2; 3]
  ∧ values_of s1 1%positive = Some [3; 2; 4; 1; 5]
  ∧ s2 = demo_state.
Proof. repeat split; vm_compute; reflexivity. Qed.


(** ** C8: copies *)

Section CopyClaim.
Context {T : Type} {E : Elem T} (S : sorter T).

(** C8. The copy constructor and the assignment operator leave in the
    destination [i] a list of the same values as the source [j], held in
    nodes that are not nodes of the source, and leave the source as it
    was; afterwards no valid program that does not mutate the copy
    changes the copy's elements or size, and none that does not mutate
    the source changes the source's. *)
Theorem copy_is_deep (s : state T) (o : op T) (i j : lid)
    (cs : list (positive * T)) :
  wf s →
  cells_of s j = Some cs →
  o = CopyCtor i j ∨ o = Assign i j →
  i ≠ j →
  valid_op s o = true →
  ∃ s1 new,
    run_op S (fuel_for s) o s = Ok tt s1
    ∧ wf s1
    ∧ cells_of s1 i = Some new
    ∧ new.*2 = cs.*2
    ∧ size_of s1 i = Some (Z.of_nat (length cs))
    ∧ (∀ p, p ∈ new.*1 → p ∉ cs.*1)
    ∧ cells_of s1 j = Some cs
    ∧ ∀ os, valid_ops S os s1 = true →
        ∃ s2, run_ops S os s1 = Ok tt s2
            ∧ (Forall (λ o, mutates o i = false) os →
               cells_of s2 i = Some new
               ∧ size_of s2 i = Some (Z.of_nat (length cs)))
            ∧ (Forall (λ o, mutates o j = false) os →
               cells_of s2 j = Some cs
               ∧ size_of s2 j = Some (Z.of_nat (length cs))).
Proof.
  intros [a Hrep] Hcs Ho Hij Hv.
  destruct (rep_cells_of a s j cs Hrep Hcs) as (src & Hsrc & <-).
  pose proof (fuel_for_enough s j src (rep_list _ _ Hrep _ _ Hsrc)) as Hf.
  assert (∃ s1 hd new tl,
             run_op S (fuel_for s) o s = Ok tt s1
             ∧ rep (<[i := AList hd new tl]> a) s1
             ∧ new.*2 = (a_cells src).*2)
    as (s1 & hd & new & tl & Hrun & Hrep1 & Hnew).
  { destruct Ho as [-> | ->]; cbn [run_op valid_op] in *.
    - apply (copy_ctor_rep (fuel_for s) a s i j src Hrep Hij Hsrc). lia.
    - apply andb_true_iff in Hv as [Hi _].
      destruct (live_rep a s i Hrep Hi) as [dst Hdst].
      pose proof (fuel_for_enough s i dst (rep_list _ _ Hrep _ _ Hdst)) as Hf'.
      destruct (assign_rep (fuel_for s) a s i j dst src Hrep Hij Hdst Hsrc)
        as (s1 & new & Hrun & Hrep1 & Hnew); [lia..|].
      by exists s1, (a_head dst), new, (a_tail dst). }
  set (copy := AList hd new tl) in *.
  set (a1 := <[i := copy]> a) in *.
  assert (a1 !! i = Some copy) as Hi1 by apply lookup_insert_eq.
  assert (a1 !! j = Some src) as Hj1 by (unfold a1; by rewrite lookup_insert_ne).
  assert (length new = length (a_cells src)) as Hlen.
  { by rewrite <- (length_fmap snd new), Hnew, length_fmap. }
  exists s1, new. split; [done|]. split; [by exists a1|].
  split; [by rewrite (rep_lookup_cells_of a1 s1 i copy Hrep1 Hi1)|].
  split; [done|].
  split.
  { rewrite (is_list_size_of _ _ _ (rep_list _ _ Hrep1 _ _ Hi1)).
    cbn [copy a_cells]. by rewrite Hlen. }
  split.
  { intros p Hp Hp'.
    apply list_elem_of_fmap in Hp as (c & -> & Hc).
    apply list_elem_of_fmap in Hp' as (d & Heq & Hd).
    by apply (rep_cells_disjoint a1 s1 i j copy src c d Hrep1 Hij Hi1 Hj1 Hc Hd). }
  split; [by rewrite (rep_lookup_cells_of a1 s1 j src Hrep1 Hj1)|].
  intros os Hvs.
  destruct (run_ops_rep S os a1 s1 Hrep1 Hvs) as (a2 & s2 & Hrun2 & Hrep2 & Hframe).
  exists s2. split; [done|]. split.
  - intros Hkeep. assert (a2 !! i = Some copy) as Hi2 by (by rewrite Hframe).
    split; [by rewrite (rep_lookup_cells_of a2 s2 i copy Hrep2 Hi2)|].
    rewrite (is_list_size_of _ _ _ (rep_list _ _ Hrep2 _ _ Hi2)).
    cbn [copy a_cells]. by rewrite Hlen.
  - intros Hkeep. assert (a2 !! j = Some src) as Hj2 by (by rewrite Hframe).
    split; [by rewrite (rep_lookup_cells_of a2 s2 j src Hrep2 Hj2)|].
    by rewrite (is_list_size_of _ _ _ (rep_list _ _ Hrep2 _ _ Hj2)).
Qed.
End CopyClaim.

(** [1] holds [1,2,3]. *)
Definition abc_state : state Z :=
  final (run_ops insertion_sorter
           [Ctor 1%positive; PushBack 1%positive 1; PushBack 1%positive 2;
            PushBack 1%positive 3]
           empty_state).

Lemma wf_abc_state : wf abc_state.
Proof. apply wf_final. by vm_compute. Qed.

(** The example of the specification: A = [1,2,3]; B is copied from A;
    A.push_back(4); B still has size 3 and yields [1,2,3]. *)
Lemma copy_is_deep_witness :
  ∃ s1 s2 new,
    sjtu.copy_ctor (fuel_for abc_state) 2%positive 1%positive abc_state = Ok tt s1
    ∧ new.*2 = [1; 2; 3]
    ∧ run_ops insertion_sorter [PushBack 1%positive 4] s1 = Ok tt s2
    ∧ cells_of s2 2%positive = Some new
    ∧ size_of s2 2%positive = Some 3.
Proof.
  destruct (copy_is_deep insertion_sorter abc_state (CopyCtor 2%positive 1%positive)
              2%positive 1%positive [(3%positive, 1); (4%positive, 2); (5%positive, 3)])
    as (s1 & new & Hrun & _ & _ & Hnew & _ & _ & _ & Hafter).
  - apply wf_abc_state.
  - vm_compute; reflexivity.
  - by left.
  - done.
  - vm_compute; reflexivity.
  - destruct (Hafter [PushBack 1%positive 4]) as (s2 & Hrun2 & Hcopy & _).
    + remember (final (run_op insertion_sorter (fuel_for abc_state)
                         (CopyCtor 2%positive 1%positive) abc_state)) as sf eqn:Hsf.
      assert (run_op insertion_sorter (fuel_for abc_state)
                (CopyCtor 2%positive 1%positive) abc_state = Ok tt sf) as Hrunf
        by (subst sf; vm_compute; reflexivity).
      rewrite Hrun in Hrunf. injection Hrunf as ->. subst sf. vm_compute; reflexivity.
    + destruct Hcopy as [Hcells Hsize]; [repeat constructor|].
      exists s1, s2, new.
      split; [exact Hrun|]. split; [exact Hnew|]. split; [exact Hrun2|].
      split; [exact Hcells|exact Hsize].
Defined.

Example copy_example :
  let s1 := final (sjtu.copy_ctor 8 2%positive 1%positive abc_state) in
  let s2 := final (sjtu.push_back 1%positive 4 s1) in
  let s3 := final (sjtu.assign 8 1%positive 2%positive s2) in
  values_of s2 1%positive = Some [1; 2; 3; 4]
  ∧ values_of s2 2%positive = Some [1; 2; 3]
  ∧ size_of s2 2%positive = Some 3
  ∧ values_of s3 1%positive = Some [1; 2; 3]
  ∧ nodes_of s3 1%positive ≠ nodes_of s3 2%positive.
Proof. repeat split; try (vm_compute; reflexivity). vm_compute. discriminate. Qed.

(** * More of the interface

    The rest of this file states what the remaining member functions do, on
    the same model and the same representation. *)

(** ** Allocation and release, call by call *)

Section Footprint.
Context {T : Type} {E : Elem T}.
Implicit Types (s : state T) (a : gmap positive (@alist T)) (al : @alist T).

(** What an observer sees of a list is what the representation says. *)
Lemma rep_cells_of_lookup a s j : rep a s → cells_of s j = a_cells <$> (a !! j).
Proof.
  intros Hrep. destruct (a !! j) as [al|] eqn:Haj.
  - by erewrite rep_lookup_cells_of.
  - assert (objs s !! j = None) as Hnone.
    { destruct (objs s !! j) as [o|] eqn:Ho; [|done].
      destruct (rep_dom _ _ Hrep j) as [al Hal]; [by eexists|congruence]. }
    unfold cells_of, nodes_of. by rewrite Hnone.
Qed.

Lemma rep_sentinels_of_lookup a s j :
  rep a s →
  sentinels_of s j = (λ al, (Some (a_head al), Some (a_tail al))) <$> (a !! j).
Proof.
  intros Hrep. destruct (a !! j) as [al|] eqn:Haj.
  - apply is_list_sentinels_of. by eapply rep_list.
  - assert (objs s !! j = None) as Hnone.
    { destruct (objs s !! j) as [o|] eqn:Ho; [|done].
      destruct (rep_dom _ _ Hrep j) as [al Hal]; [by eexists|congruence]. }
    unfold sentinels_of. by rewrite Hnone.
Qed.

(** A step that re-represents only list [i] leaves the others as seen. *)
Lemma rep_others_unchanged a s s' i al' :
  rep a s → rep (<[i := al']> a) s' →
  ∀ j, j ≠ i → cells_of s' j = cells_of s j ∧ sentinels_of s' j = sentinels_of s j.
Proof.
  intros Hrep Hrep' j Hj.
  rewrite (rep_cells_of_lookup _ _ j Hrep'), (rep_cells_of_lookup _ _ j Hrep).
  rewrite (rep_sentinels_of_lookup _ _ j Hrep'), (rep_sentinels_of_lookup _ _ j Hrep).
  by rewrite lookup_insert_ne.
Qed.

Lemma rep_sentinels a s i hd tl :
  rep a s → sentinels_of s i = Some (Some hd, Some tl) →
  ∀ al, a !! i = Some al → a_head al = hd ∧ a_tail al = tl.
Proof.
  intros Hrep Hs al Hal. rewrite (rep_sentinels_of_lookup _ _ i Hrep), Hal in Hs.
  simpl in Hs. by injection Hs as -> ->.
Qed.

Lemma insert_rep_dom a s i al c1 c2 v :
  rep a s →
  a !! i = Some al →
  a_cells al = c1 ++ c2 →
  Z.of_nat (length (a_cells al)) + 1 < size_t_mod →
  ∃ c s', sjtu.insert i (Iter (Some (first_of c2 (a_tail al))) (Some i)) v s
          = Ok (Iter (Some c) (Some i)) s'
        ∧ rep (<[i := AList (a_head al) (c1 ++ (c, v) :: c2) (a_tail al)]> a) s'
        ∧ heap s !! c = None
        ∧ dom (heap s') = {[c]} ∪ dom (heap s).
Proof.
  intros Hrep Hi Hc Hb.
  destruct (new_node_rep a s v Hrep) as (c & s1 & Hnew & Hrep1 & Hfree & Hfresh & Hh1 & Ho1).
  destruct (insert_node_rep a s1 i al c1 c2 c (Node (Some v) None None) v)
    as (s2 & Hins & Hrep2 & Hsame); try done.
  { rewrite Hh1. apply lookup_insert_eq. }
  exists c, s2. split; [|split; [done|split; [done|]]].
  - unfold sjtu.insert. cbn [container current].
    rewrite bool_decide_eq_false_2 by (by intros ?).
    step_with Hnew. by step_with Hins.
  - rewrite (same_data_dom _ _ Hsame), Hh1. apply dom_insert_L.
Qed.

Lemma push_back_rep_dom a s i al v :
  rep a s →
  a !! i = Some al →
  Z.of_nat (length (a_cells al)) + 1 < size_t_mod →
  ∃ c s', sjtu.push_back i v s = Ok tt s'
        ∧ rep (<[i := AList (a_head al) (a_cells al ++ [(c, v)]) (a_tail al)]> a) s'
        ∧ heap s !! c = None
        ∧ dom (heap s') = {[c]} ∪ dom (heap s).
Proof.
  intros Hrep Hi Hb.
  destruct (new_node_rep a s v Hrep) as (c & s1 & Hnew & Hrep1 & Hfree & Hfresh & Hh1 & Ho1).
  destruct (is_list_head _ _ _ (rep_list _ _ Hrep1 _ _ Hi)) as (o & nd & Ho & Hh & Ht & _).
  destruct (insert_node_rep a s1 i al (a_cells al) [] c (Node (Some v) None None) v)
    as (s2 & Hins & Hrep2 & Hsame); try done.
  { by rewrite app_nil_r. }
  { rewrite Hh1. apply lookup_insert_eq. }
  exists c, s2. split; [|split; [done|split; [done|]]].
  - unfold sjtu.push_back. step_with Hnew. step_with (load_obj_ok s1 i o Ho).
    rewrite Ht. simpl in Hins. by step_with Hins.
  - rewrite (same_data_dom _ _ Hsame), Hh1. apply dom_insert_L.
Qed.

Lemma push_front_rep_dom a s i al v :
  rep a s →
  a !! i = Some al →
  Z.of_nat (length (a_cells al)) + 1 < size_t_mod →
  ∃ c s', sjtu.push_front i v s = Ok tt s'
        ∧ rep (<[i := AList (a_head al) ((c, v) :: a_cells al) (a_tail al)]> a) s'
        ∧ heap s !! c = None
        ∧ dom (heap s') = {[c]} ∪ dom (heap s).
Proof.
  intros Hrep Hi Hb.
  destruct (new_node_rep a s v Hrep) as (c & s1 & Hnew & Hrep1 & Hfree & Hfresh & Hh1 & Ho1).
  destruct (is_list_head _ _ _ (rep_list _ _ Hrep1 _ _ Hi))
    as (o & nd & Ho & Hh & Ht & Hsz & Hn & Hp & Hnx).
  destruct (insert_node_rep a s1 i al [] (a_cells al) c (Node (Some v) None None) v)
    as (s2 & Hins & Hrep2 & Hsame); try done.
  { rewrite Hh1. apply lookup_insert_eq. }
  exists c, s2. split; [|split; [done|split; [done|]]].
  - unfold sjtu.push_front. step_with Hnew. step_with (load_obj_ok s1 i o Ho).
    rewrite Hh. step_with (load_node_ok s1 _ nd Hn). rewrite Hnx.
    by step_with Hins.
  - rewrite (same_data_dom _ _ Hsame), Hh1. apply dom_insert_L.
Qed.

Lemma erase_rep_dom a s i al c1 p v c2 :
  rep a s →
  a !! i = Some al →
  a_cells al = c1 ++ (p, v) :: c2 →
  ∃ s', sjtu.erase i (Iter (Some p) (Some i)) s
        = Ok (Iter (Some (first_of c2 (a_tail al))) (Some i)) s'
      ∧ rep (<[i := AList (a_head al) (c1 ++ c2) (a_tail al)]> a) s'
      ∧ dom (heap s') = dom (heap s) ∖ {[p]}.
Proof.
  intros Hrep Hi Hc.
  pose proof (rep_list _ _ Hrep _ _ Hi) as Hl.
  destruct (is_list_head _ _ _ Hl) as (o & nd & Ho & Hh & Ht & Hsz & Hn & Hp & Hnx).
  destruct (erase_node_rep a s i al c1 p v c2 Hrep Hi Hc)
    as (s1 & Her & Hrep1 & Hsame & Hfree & Hp1).
  destruct (is_list_node s i al c1 p v c2 Hl Hc) as (np & Hnp & _ & _ & Hnxp).
  destruct (is_list_node_ne s i al c1 p v c2 Hl Hc) as [_ Hptl].
  destruct (delete_node_rep _ s1 p Hrep1 Hfree) as (s2 & Hdel & Hrep2 & Hh2 & Ho2).
  { rewrite Hp1, Hnp. by eexists. }
  exists s2. split; [|split; [done|]].
  - unfold sjtu.erase.
    assert (sjtu.empty i s = Ok false s) as He.
    { rewrite (empty_ok s i o Ho), (is_list_nonempty_size s i al o Hl Ho), Hc.
      rewrite bool_decide_eq_false_2; [done|]. by destruct c1. }
    step_with He. cbn [container current].
    rewrite bool_decide_eq_false_2 by (by intros ?).
    unfold bind at 1. step_with (end_ok s i o Ho). unfold ret at 1.
    unfold iterator.eq, ptr_eqb. cbn [current]. rewrite Ht.
    rewrite bool_decide_eq_false_2 by congruence.
    step_with (load_node_ok s _ np Hnp). rewrite Hnxp.
    step_with Her. by step_with Hdel.
  - rewrite Hh2, dom_delete_L. by rewrite (same_data_dom _ _ Hsame).
Qed.

Lemma pop_front_rep_dom a s i al p v cs :
  rep a s →
  a !! i = Some al →
  a_cells al = (p, v) :: cs →
  ∃ s', sjtu.pop_front i s = Ok tt s'
      ∧ rep (<[i := AList (a_head al) cs (a_tail al)]> a) s'
      ∧ dom (heap s') = dom (heap s) ∖ {[p]}.
Proof.
  intros Hrep Hi Hc.
  pose proof (rep_list _ _ Hrep _ _ Hi) as Hl.
  destruct (is_list_head _ _ _ Hl) as (o & nd & Ho & Hh & Ht & Hsz & Hn & Hp & Hnx).
  destruct (erase_node_rep a s i al [] p v cs Hrep Hi Hc)
    as (s1 & Her & Hrep1 & Hsame & Hfree & Hp1).
  destruct (is_list_node s i al [] p v cs Hl Hc) as (np & Hnp & _).
  destruct (delete_node_rep _ s1 p Hrep1 Hfree) as (s2 & Hdel & Hrep2 & Hh2 & Ho2).
  { rewrite Hp1, Hnp. by eexists. }
  exists s2. split; [|split; [done|]].
  - unfold sjtu.pop_front. step_with (nonempty_list s i al _ _ Hl Hc).
    step_with (load_obj_ok s i o Ho). rewrite Hh.
    step_with (load_node_ok s _ nd Hn). rewrite Hnx, Hc. simpl.
    step_with Her. exact Hdel.
  - rewrite Hh2, dom_delete_L. by rewrite (same_data_dom _ _ Hsame).
Qed.

Lemma pop_back_rep_dom a s i al p v cs :
  rep a s →
  a !! i = Some al →
  a_cells al = cs ++ [(p, v)] →
  ∃ s', sjtu.pop_back i s = Ok tt s'
      ∧ rep (<[i := AList (a_head al) cs (a_tail al)]> a) s'
      ∧ dom (heap s') = dom (heap s) ∖ {[p]}.
Proof.
  intros Hrep Hi Hc.
  pose proof (rep_list _ _ Hrep _ _ Hi) as Hl.
  destruct (is_list_head _ _ _ Hl) as (o & nd & Ho & Hh & Ht & Hsz & Hn & Hp & Hnx).
  destruct (is_list_tail _ _ _ Hl) as (nt & Hnt & Hpt & _).
  destruct (erase_node_rep a s i al cs p v [] Hrep Hi Hc)
    as (s1 & Her & Hrep1 & Hsame & Hfree & Hp1).
  rewrite app_nil_r in *.
  destruct (is_list_node s i al cs p v [] Hl Hc) as (np & Hnp & _).
  destruct (delete_node_rep _ s1 p Hrep1 Hfree) as (s2 & Hdel & Hrep2 & Hh2 & Ho2).
  { rewrite Hp1, Hnp. by eexists. }
  exists s2. split; [|split; [done|]].
  - unfold sjtu.pop_back.
    assert (sjtu.empty i s = Ok false s) as He.
    { rewrite (empty_ok s i o Ho), Hsz, Hc, length_app. simpl.
      f_equal. apply Z.eqb_neq. lia. }
    step_with He.
    step_with (load_obj_ok s i o Ho). rewrite Ht.
    step_with (load_node_ok s _ nt Hnt). rewrite Hpt, Hc, last_of_snoc. simpl.
    step_with Her. exact Hdel.
  - rewrite Hh2, dom_delete_L. by rewrite (same_data_dom _ _ Hsame).
Qed.
End Footprint.

(** ** Construction, access and the four end operations *)

(** The iterator of list [i] that addresses the first cell of [c2], and
    [en] (the list's end()) when [c2] has none. *)
Definition iter_at {T} (i : lid) (en : iterator) (c2 : list (positive * T)) : iterator :=
  match c2 with
  | [] => en
  | c :: _ => Iter (Some c.1) (Some i)
  end.

Section Access.
Context {T : Type}.
Implicit Types (s : state T) (a : gmap positive (@alist T)) (al : @alist T).

Lemma iter_at_first_of s i al en (c2 : list (positive * T)) :
  is_list s i al → sjtu.end_ i s = Ok en s →
  iter_at i en c2 = Iter (Some (first_of c2 (a_tail al))) (Some i).
Proof.
  intros Hl Hen.
  destruct (is_list_head _ _ _ Hl) as (o & _ & Ho & _ & Ht & _).
  rewrite (end_ok s i o Ho), Ht in Hen. injection Hen as <-.
  by destruct c2.
Qed.

Lemma rep_size_of a s i al :
  rep a s → a !! i = Some al → size_of s i = Some (Z.of_nat (length (a_cells al))).
Proof. intros Hrep Hal. eapply is_list_size_of, rep_list; eauto. Qed.

(** The store the default constructor leaves, whatever the store was. *)
Lemma ctor_run s i :
  ∃ hd tl h',
    sjtu.ctor i s
    = Ok tt (State h' (<[i := ListObj (Some hd) (Some tl) 0]> (objs s)))
    ∧ dom h' = {[hd; tl]} ∪ dom (heap s).
Proof.
  set (hd := alloc (heap s)).
  set (h1 := <[hd := Node None None None]> (heap s)).
  set (tl := alloc h1).
  assert (h1 !! tl = None) as Htl by apply alloc_fresh.
  assert (hd ≠ tl) as Hne.
  { intros Heq. unfold h1 in Htl. rewrite <- Heq, lookup_insert_eq in Htl. done. }
  assert (tl ≠ hd) as Hne' by done.
  exists hd, tl. eexists. split.
  - unfold sjtu.ctor, new_raw, store_prev, store_next.
    unfold bind at 1. fold hd. cbn [heap objs]. unfold bind at 1. cbn [heap objs].
    fold h1. fold tl.
    erewrite bind_ok; [|apply store_node_ok; cbn [heap];
      rewrite lookup_insert_ne by done; unfold h1; apply lookup_insert_eq].
    cbv beta. cbn [heap objs data next prev].
    erewrite bind_ok; [|apply store_node_ok; cbn [heap]; apply lookup_insert_eq].
    cbv beta. cbn [heap objs data next prev].
    erewrite bind_ok; [|apply store_node_ok; cbn [heap];
      rewrite !lookup_insert_ne by done; apply lookup_insert_eq].
    cbv beta. cbn [heap objs data next prev].
    erewrite bind_ok; [|apply store_node_ok; cbn [heap]; apply lookup_insert_eq].
    cbv beta. cbn [heap objs data next prev].
    unfold store_obj. cbn [heap objs]. reflexivity.
  - rewrite !dom_insert_L. unfold h1. rewrite dom_insert_L. set_solver.
Qed.

Lemma ctor_dom s i s' :
  sjtu.ctor i s = Ok tt s' →
  ∃ hd tl, sentinels_of s' i = Some (Some hd, Some tl)
         ∧ dom (heap s') = {[hd; tl]} ∪ dom (heap s).
Proof.
  destruct (ctor_run s i) as (hd & tl & h' & Hrun & Hdom).
  intros Hrun'. rewrite Hrun in Hrun'. injection Hrun' as <-.
  exists hd, tl. split; [|done].
  unfold sentinels_of. cbn [objs]. by rewrite lookup_insert_eq.
Qed.

(** X1. The default constructor allocates two fresh, distinct sentinels, links
    them to each other, and leaves an empty list: size 0, empty() true,
    begin() equal to end().  Every other list is as before. *)
Theorem ctor_makes_empty_list s i :
  wf s →
  ∃ hd tl s',
    sjtu.ctor i s = Ok tt s'
    ∧ wf s'
    ∧ heap s !! hd = None ∧ heap s !! tl = None ∧ hd ≠ tl
    ∧ dom (heap s') = {[hd; tl]} ∪ dom (heap s)
    ∧ sentinels_of s' i = Some (Some hd, Some tl)
    ∧ sentinels_linked s' i
    ∧ cells_of s' i = Some []
    ∧ sjtu.size i s' = Ok 0 s'
    ∧ sjtu.empty i s' = Ok true s'
    ∧ sjtu.begin i s' = Ok (Iter (Some tl) (Some i)) s'
    ∧ sjtu.end_ i s' = Ok (Iter (Some tl) (Some i)) s'
    ∧ (∀ j, j ≠ i → cells_of s' j = cells_of s j).
Proof.
  intros [a Hrep].
  destruct (ctor_rep a s i Hrep) as (hd & tl & s' & Hrun & Hrep' & Hhd & Htl).
  set (al' := AList hd [] tl) in *.
  assert (<[i := al']> a !! i = Some al') as Hal' by apply lookup_insert_eq.
  pose proof (rep_list _ _ Hrep' _ _ Hal') as Hl'.
  destruct (is_list_head _ _ _ Hl') as (o & nd & Ho & Hh & Ht & Hsz & _).
  assert (hd ≠ tl) as Hne.
  { destruct Hl' as (? & _ & _ & _ & _ & _ & Hnd & _).
    unfold chain, al' in Hnd. cbn [a_head a_cells a_tail fmap list_fmap app] in Hnd.
    apply NoDup_cons in Hnd as [Hnin _]. set_solver. }
  exists hd, tl, s'. repeat split.
  - done.
  - by exists (<[i := al']> a).
  - done.
  - done.
  - done.
  - destruct (ctor_dom s i s' Hrun) as (hd' & tl' & Hs & Hdom).
    rewrite (is_list_sentinels_of s' i al' Hl') in Hs. cbn [a_head a_tail al'] in Hs.
    by injection Hs as <- <-.
  - by apply (is_list_sentinels_of s' i al').
  - by apply (is_list_empty_linked s' i al').
  - by apply (is_list_cells_of s' i al').
  - rewrite (size_ok s' i o Ho). by rewrite Hsz.
  - by apply (empty_list_throws s' i al').
  - by apply (begin_ok s' i al').
  - rewrite (end_ok s' i o Ho). by rewrite Ht.
  - intros j Hj. by apply (rep_others_unchanged a s s' i al').
Qed.

Lemma front_rep s i al p v r :
  is_list s i al → a_cells al = (p, v) :: r → sjtu.front i s = Ok p s.
Proof.
  intros Hl Hc.
  destruct (is_list_head _ _ _ Hl) as (o & nd & Ho & Hh & Ht & Hsz & Hn & Hp & Hnx).
  destruct (is_list_node s i al [] p v r Hl Hc) as (np & Hnp & _).
  unfold sjtu.front. step_with (nonempty_list s i al _ _ Hl Hc).
  step_with (load_obj_ok s i o Ho). rewrite Hh.
  step_with (load_node_ok s _ nd Hn). rewrite Hnx, Hc. cbn [first_of fst].
  unfold ref_data. by step_with (load_node_ok s _ np Hnp).
Qed.

Lemma back_rep s i al r p v :
  is_list s i al → a_cells al = r ++ [(p, v)] → sjtu.back i s = Ok p s.
Proof.
  intros Hl Hc.
  destruct (is_list_head _ _ _ Hl) as (o & nd & Ho & Hh & Ht & Hsz & Hn & Hp & Hnx).
  destruct (is_list_tail _ _ _ Hl) as (nt & Hnt & Hpt & _).
  destruct (is_list_node s i al r p v [] Hl Hc) as (np & Hnp & _).
  assert (sjtu.empty i s = Ok false s) as He.
  { rewrite (empty_ok s i o Ho), Hsz, Hc, length_app. simpl.
    f_equal. apply Z.eqb_neq. lia. }
  unfold sjtu.back. step_with He.
  step_with (load_obj_ok s i o Ho). rewrite Ht.
  step_with (load_node_ok s _ nt Hnt). rewrite Hpt, Hc, last_of_snoc. cbn [fst].
  unfold ref_data. by step_with (load_node_ok s _ np Hnp).
Qed.

(** X2. front() and back() raise container_is_empty on an empty list and
    otherwise return a reference to the first and to the last element:
    reading through it gives that element's value, and the store is not
    touched. *)
Theorem front_back_access s i (cs : list (positive * T)) :
  wf s →
  cells_of s i = Some cs →
  (cs = [] →
     sjtu.front i s = Throw container_is_empty s
     ∧ sjtu.back i s = Throw container_is_empty s)
  ∧ (∀ p v r, cs = (p, v) :: r →
       sjtu.front i s = Ok p s ∧ load_data p s = Ok v s)
  ∧ (∀ r p v, cs = r ++ [(p, v)] →
       sjtu.back i s = Ok p s ∧ load_data p s = Ok v s).
Proof.
  intros [a Hrep] Hcs.
  destruct (rep_cells_of a s i cs Hrep Hcs) as (al & Hal & <-).
  pose proof (rep_list _ _ Hrep _ _ Hal) as Hl.
  split; [|split].
  - intros Hnil. split.
    + unfold sjtu.front. by step_with (empty_list_throws s i al Hl Hnil).
    + unfold sjtu.back. by step_with (empty_list_throws s i al Hl Hnil).
  - intros p v r Hc. split; [by apply (front_rep s i al p v r)|].
    by apply (load_data_node s i al [] p v r).
  - intros r p v Hc. split; [by apply (back_rep s i al r p v)|].
    by apply (load_data_node s i al r p v []).
Qed.

(** X3. begin() and end() bracket the list: both name the list, end() rests on
    the tail sentinel, begin() on the first element when there is one, and
    begin() equals end() exactly when the list is empty, which is what
    empty() answers; size() is the number of elements.  cbegin() and
    cend() are the same positions as const_iterators.  None of these
    calls changes the store. *)
Theorem begin_end_bracket s i (cs : list (positive * T)) :
  wf s →
  cells_of s i = Some cs →
  ∃ b e,
    sjtu.begin i s = Ok b s
    ∧ sjtu.end_ i s = Ok e s
    ∧ sjtu.cbegin i s = Ok (const_iterator.of_iterator b) s
    ∧ sjtu.cend i s = Ok (const_iterator.of_iterator e) s
    ∧ container b = Some i ∧ container e = Some i
    ∧ snd <$> sentinels_of s i = Some (current e)
    ∧ b = iter_at i e cs
    ∧ iterator.eq b e = bool_decide (cs = [])
    ∧ iterator.neq b e = negb (iterator.eq b e)
    ∧ sjtu.empty i s = Ok (iterator.eq b e) s
    ∧ sjtu.size i s = Ok (Z.of_nat (length cs)) s.
Proof.
  intros [a Hrep] Hcs.
  destruct (rep_cells_of a s i cs Hrep Hcs) as (al & Hal & <-).
  pose proof (rep_list _ _ Hrep _ _ Hal) as Hl.
  destruct (is_list_head _ _ _ Hl) as (o & nd & Ho & Hh & Ht & Hsz & Hn & Hp & Hnx).
  pose proof (end_ok s i o Ho) as Hen. rewrite Ht in Hen.
  assert (iterator.eq (Iter (Some (first_of (a_cells al) (a_tail al))) (Some i))
            (Iter (Some (a_tail al)) (Some i)) = bool_decide (a_cells al = [])) as Heq.
  { unfold iterator.eq, ptr_eqb. cbn [current].
    destruct (a_cells al) as [|[p v] r] eqn:Hc; cbn [first_of fst].
    - by rewrite !bool_decide_eq_true_2.
    - destruct (is_list_node_ne s i al [] p v r Hl Hc) as [_ Hne].
      rewrite !bool_decide_eq_false_2; [done|done|congruence]. }
  exists (Iter (Some (first_of (a_cells al) (a_tail al))) (Some i)),
         (Iter (Some (a_tail al)) (Some i)).
  split; [by apply begin_ok|]. split; [done|].
  split.
  { unfold sjtu.cbegin. step_with (load_obj_ok s i o Ho). rewrite Hh.
    step_with (load_node_ok s _ nd Hn). by rewrite Hnx. }
  split.
  { unfold sjtu.cend. step_with (load_obj_ok s i o Ho). by rewrite Ht. }
  split; [done|]. split; [done|].
  split. { by rewrite (is_list_sentinels_of s i al Hl). }
  split. { by rewrite (iter_at_first_of s i al _ _ Hl Hen). }
  split; [done|]. split; [done|].
  split.
  - rewrite Heq, (empty_ok s i o Ho). f_equal. by apply (is_list_nonempty_size s i al).
  - rewrite (size_ok s i o Ho). by rewrite Hsz.
Qed.

(** X4. push_back allocates one fresh node and links it in as the last
    element: the elements before it are the old ones in their old nodes,
    back() is the new element, size grows by one, and the other lists are
    as before. *)
Theorem push_back_appends s i (cs : list (positive * T)) v :
  wf s →
  cells_of s i = Some cs →
  Z.of_nat (length cs) + 1 < size_t_mod →
  ∃ s' c,
    sjtu.push_back i v s = Ok tt s'
    ∧ wf s'
    ∧ heap s !! c = None
    ∧ dom (heap s') = {[c]} ∪ dom (heap s)
    ∧ cells_of s' i = Some (cs ++ [(c, v)])
    ∧ size_of s' i = Some (Z.of_nat (length cs) + 1)
    ∧ sentinels_of s' i = sentinels_of s i
    ∧ sjtu.back i s' = Ok c s'
    ∧ load_data c s' = Ok v s'
    ∧ (∀ j, j ≠ i → cells_of s' j = cells_of s j).
Proof.
  intros [a Hrep] Hcs Hroom.
  destruct (rep_cells_of a s i cs Hrep Hcs) as (al & Hal & <-).
  destruct (push_back_rep_dom a s i al v Hrep Hal Hroom)
    as (c & s' & Hrun & Hrep' & Hfresh & Hdom).
  set (al' := AList (a_head al) (a_cells al ++ [(c, v)]) (a_tail al)) in *.
  assert (<[i := al']> a !! i = Some al') as Hal' by apply lookup_insert_eq.
  pose proof (rep_list _ _ Hrep' _ _ Hal') as Hl'.
  pose proof (back_rep s' i al' (a_cells al) c v Hl' eq_refl) as Hb.
  pose proof (load_data_node s' i al' (a_cells al) c v [] Hl' eq_refl) as Hv.
  exists s', c. split; [done|]. split; [by exists (<[i := al']> a)|].
  split; [done|]. split; [done|].
  split; [by apply (is_list_cells_of s' i al')|].
  split.
  { rewrite (is_list_size_of s' i al' Hl'). cbn [a_cells al'].
    rewrite length_app. simpl. f_equal. lia. }
  split.
  { rewrite (is_list_sentinels_of s' i al' Hl').
    by rewrite (is_list_sentinels_of s i al (rep_list _ _ Hrep _ _ Hal)). }
  split; [done|]. split; [done|].
  intros j Hj. by apply (rep_others_unchanged a s s' i al').
Qed.

(** X5. push_front allocates one fresh node and links it in as the first
    element: front() is the new element, the old elements follow in their
    old nodes, size grows by one, and the other lists are as before. *)
Theorem push_front_prepends s i (cs : list (positive * T)) v :
  wf s →
  cells_of s i = Some cs →
  Z.of_nat (length cs) + 1 < size_t_mod →
  ∃ s' c,
    sjtu.push_front i v s = Ok tt s'
    ∧ wf s'
    ∧ heap s !! c = None
    ∧ dom (heap s') = {[c]} ∪ dom (heap s)
    ∧ cells_of s' i = Some ((c, v) :: cs)
    ∧ size_of s' i = Some (Z.of_nat (length cs) + 1)
    ∧ sentinels_of s' i = sentinels_of s i
    ∧ sjtu.front i s' = Ok c s'
    ∧ sjtu.begin i s' = Ok (Iter (Some c) (Some i)) s'
    ∧ load_data c s' = Ok v s'
    ∧ (∀ j, j ≠ i → cells_of s' j = cells_of s j).
Proof.
  intros [a Hrep] Hcs Hroom.
  destruct (rep_cells_of a s i cs Hrep Hcs) as (al & Hal & <-).
  destruct (push_front_rep_dom a s i al v Hrep Hal Hroom)
    as (c & s' & Hrun & Hrep' & Hfresh & Hdom).
  set (al' := AList (a_head al) ((c, v) :: a_cells al) (a_tail al)) in *.
  assert (<[i := al']> a !! i = Some al') as Hal' by apply lookup_insert_eq.
  pose proof (rep_list _ _ Hrep' _ _ Hal') as Hl'.
  pose proof (front_rep s' i al' c v (a_cells al) Hl' eq_refl) as Hf.
  pose proof (load_data_node s' i al' [] c v (a_cells al) Hl' eq_refl) as Hv.
  exists s', c. split; [done|]. split; [by exists (<[i := al']> a)|].
  split; [done|]. split; [done|].
  split; [by apply (is_list_cells_of s' i al')|].
  split.
  { rewrite (is_list_size_of s' i al' Hl'). cbn [a_cells al' length].
    f_equal. lia. }
  split.
  { rewrite (is_list_sentinels_of s' i al' Hl').
    by rewrite (is_list_sentinels_of s i al (rep_list _ _ Hrep _ _ Hal)). }
  split; [done|]. split; [by rewrite (begin_ok s' i al' Hl')|]. split; [done|].
  intros j Hj. by apply (rep_others_unchanged a s s' i al').
Qed.

(** X6. pop_front raises container_is_empty on an empty list; otherwise it
    unlinks the first element and releases exactly its node, the rest
    stays in place in the same nodes, and the other lists are as
    before. *)
Theorem pop_front_removes_first s i (cs : list (positive * T)) :
  wf s →
  cells_of s i = Some cs →
  (cs = [] → sjtu.pop_front i s = Throw container_is_empty s)
  ∧ (∀ p v r, cs = (p, v) :: r →
       ∃ s',
         sjtu.pop_front i s = Ok tt s'
         ∧ wf s'
         ∧ cells_of s' i = Some r
         ∧ size_of s' i = Some (Z.of_nat (length cs) - 1)
         ∧ sentinels_of s' i = sentinels_of s i
         ∧ dom (heap s') = dom (heap s) ∖ {[p]}
         ∧ is_Some (heap s !! p)
         ∧ (∀ j, j ≠ i → cells_of s' j = cells_of s j)).
Proof.
  intros [a Hrep] Hcs.
  destruct (rep_cells_of a s i cs Hrep Hcs) as (al & Hal & <-).
  pose proof (rep_list _ _ Hrep _ _ Hal) as Hl.
  split; [by apply pop_front_empty|].
  intros p v r Hc.
  destruct (pop_front_rep_dom a s i al p v r Hrep Hal Hc) as (s' & Hrun & Hrep' & Hdom).
  set (al' := AList (a_head al) r (a_tail al)) in *.
  assert (<[i := al']> a !! i = Some al') as Hal' by apply lookup_insert_eq.
  pose proof (rep_list _ _ Hrep' _ _ Hal') as Hl'.
  exists s'. split; [done|]. split; [by exists (<[i := al']> a)|].
  split; [by apply (is_list_cells_of s' i al')|].
  split.
  { rewrite (is_list_size_of s' i al' Hl'), Hc. cbn [a_cells al' length].
    f_equal. lia. }
  split.
  { by rewrite (is_list_sentinels_of s' i al' Hl'), (is_list_sentinels_of s i al Hl). }
  split; [done|].
  split.
  { destruct (is_list_node s i al [] p v r Hl Hc) as (np & Hnp & _). by eexists. }
  intros j Hj. by apply (rep_others_unchanged a s s' i al').
Qed.

(** X7. pop_back raises container_is_empty on an empty list; otherwise it
    unlinks the last element and releases exactly its node, the rest stays
    in place in the same nodes, and the other lists are as before. *)
Theorem pop_back_removes_last s i (cs : list (positive * T)) :
  wf s →
  cells_of s i = Some cs →
  (cs = [] → sjtu.pop_back i s = Throw container_is_empty s)
  ∧ (∀ r p v, cs = r ++ [(p, v)] →
       ∃ s',
         sjtu.pop_back i s = Ok tt s'
         ∧ wf s'
         ∧ cells_of s' i = Some r
         ∧ size_of s' i = Some (Z.of_nat (length cs) - 1)
         ∧ sentinels_of s' i = sentinels_of s i
         ∧ dom (heap s') = dom (heap s) ∖ {[p]}
         ∧ is_Some (heap s !! p)
         ∧ (∀ j, j ≠ i → cells_of s' j = cells_of s j)).
Proof.
  intros [a Hrep] Hcs.
  destruct (rep_cells_of a s i cs Hrep Hcs) as (al & Hal & <-).
  pose proof (rep_list _ _ Hrep _ _ Hal) as Hl.
  split; [by apply pop_back_empty|].
  intros r p v Hc.
  destruct (pop_back_rep_dom a s i al p v r Hrep Hal Hc) as (s' & Hrun & Hrep' & Hdom).
  set (al' := AList (a_head al) r (a_tail al)) in *.
  assert (<[i := al']> a !! i = Some al') as Hal' by apply lookup_insert_eq.
  pose proof (rep_list _ _ Hrep' _ _ Hal') as Hl'.
  exists s'. split; [done|]. split; [by exists (<[i := al']> a)|].
  split; [by apply (is_list_cells_of s' i al')|].
  split.
  { rewrite (is_list_size_of s' i al' Hl'), Hc, length_app. cbn [a_cells al' length].
    f_equal. lia. }
  split.
  { by rewrite (is_list_sentinels_of s' i al' Hl'), (is_list_sentinels_of s i al Hl). }
  split; [done|].
  split.
  { destruct (is_list_node s i al r p v [] Hl Hc) as (np & Hnp & _). by eexists. }
  intros j Hj. by apply (rep_others_unchanged a s s' i al').
Qed.

(** X8. insert(pos, v) raises invalid_iterator when [pos] names another
    container (or none), whether or not the list is empty.  With [pos] on
    an element of the list or on end(), it allocates one fresh node for
    [v], links it in just before [pos], and returns its iterator:
    dereferencing the result gives [v], incrementing it gives [pos],
    end() is still end(), and the other lists are as before. *)
Theorem insert_contract s i (c1 c2 : list (positive * T)) en pos v :
  wf s →
  cells_of s i = Some (c1 ++ c2) →
  sjtu.end_ i s = Ok en s →
  Z.of_nat (length (c1 ++ c2)) + 1 < size_t_mod →
  (container pos ≠ Some i → sjtu.insert i pos v s = Throw invalid_iterator s)
  ∧ (pos = iter_at i en c2 →
     ∃ s' c,
       sjtu.insert i pos v s = Ok (Iter (Some c) (Some i)) s'
       ∧ wf s'
       ∧ heap s !! c = None
       ∧ dom (heap s') = {[c]} ∪ dom (heap s)
       ∧ cells_of s' i = Some (c1 ++ (c, v) :: c2)
       ∧ size_of s' i = Some (Z.of_nat (length (c1 ++ c2)) + 1)
       ∧ iterator.deref (Iter (Some c) (Some i)) s' = Ok c s'
       ∧ load_data c s' = Ok v s'
       ∧ iterator.preinc (Iter (Some c) (Some i)) s' = Ok pos s'
       ∧ sjtu.end_ i s' = Ok en s'
       ∧ (∀ j, j ≠ i → cells_of s' j = cells_of s j)).
Proof.
  intros [a Hrep] Hcs Hen Hroom.
  split; [by apply insert_foreign|]. intros ->.
  destruct (rep_cells_of a s i _ Hrep Hcs) as (al & Hal & Hc).
  pose proof (rep_list _ _ Hrep _ _ Hal) as Hl.
  rewrite (iter_at_first_of s i al en c2 Hl Hen).
  destruct (insert_rep_dom a s i al c1 c2 v Hrep Hal Hc)
    as (c & s' & Hrun & Hrep' & Hfresh & Hdom).
  { by rewrite Hc. }
  set (al' := AList (a_head al) (c1 ++ (c, v) :: c2) (a_tail al)) in *.
  assert (<[i := al']> a !! i = Some al') as Hal' by apply lookup_insert_eq.
  pose proof (rep_list _ _ Hrep' _ _ Hal') as Hl'.
  exists s', c. split; [done|]. split; [by exists (<[i := al']> a)|].
  split; [done|]. split; [done|].
  split; [by apply (is_list_cells_of s' i al')|].
  split.
  { rewrite (is_list_size_of s' i al' Hl'). cbn [a_cells al'].
    rewrite !length_app. cbn [length]. f_equal. lia. }
  split; [by apply (iter_deref_node s' i al' c1 c v c2)|].
  split; [by apply (load_data_node s' i al' c1 c v c2)|].
  split; [by apply (iter_preinc_node s' i al' c1 c v c2)|].
  split.
  { destruct (is_list_head _ _ _ Hl) as (o & _ & Ho & _ & Ht & _).
    destruct (is_list_head _ _ _ Hl') as (o' & _ & Ho' & _ & Ht' & _).
    rewrite (end_ok s i o Ho), Ht in Hen. injection Hen as <-.
    rewrite (end_ok s' i o' Ho'), Ht'. done. }
  intros j Hj. by apply (rep_others_unchanged a s s' i al').
Qed.

(** X9. push_back(v) is insert(end(), v) and push_front(v) is
    insert(begin(), v) with the returned iterator dropped: the two calls
    end in the same store, or fail in the same way.  Nothing is assumed of
    the list beyond that begin() and end() can be taken. *)
Theorem insert_at_ends_is_push s i b en v :
  sjtu.begin i s = Ok b s →
  sjtu.end_ i s = Ok en s →
  (run sjtu.insert i en v then ret tt) s = sjtu.push_back i v s
  ∧ (run sjtu.insert i b v then ret tt) s = sjtu.push_front i v s.
Proof.
  intros Hb Hen.
  unfold sjtu.begin, bind, load_obj in Hb.
  destruct (objs s !! i) as [o|] eqn:Ho; [|done].
  unfold load_node in Hb. destruct (head o) as [hd|] eqn:Hh; [|done].
  destruct (heap s !! hd) as [hn|] eqn:Hhn; [|done].
  unfold ret in Hb. injection Hb as <-.
  rewrite (end_ok s i o Ho) in Hen. injection Hen as <-.
  assert (alloc (heap s) ≠ hd) as Hne.
  { intros Heq. pose proof (alloc_fresh (heap s)) as Hf. rewrite Heq in Hf. congruence. }
  split.
  - unfold sjtu.insert, sjtu.push_back. cbn [container current].
    rewrite bool_decide_eq_false_2 by (by intros ?).
    unfold bind at 1 2 4 5. unfold new_node, load_obj. cbn [heap objs]. rewrite Ho.
    unfold bind, ret. by destruct (sjtu.insert_node _ _ _ _).
  - unfold sjtu.insert, sjtu.push_front. cbn [container current].
    rewrite bool_decide_eq_false_2 by (by intros ?).
    unfold bind at 1 2 4 5. unfold new_node, load_obj. cbn [heap objs]. rewrite Ho.
    unfold bind at 3.
    erewrite (bind_ok (load_node (head o)));
      [|rewrite Hh; apply load_node_ok; cbn [heap]; by rewrite lookup_insert_ne].
    unfold bind, ret. by destruct (sjtu.insert_node _ _ _ _).
Qed.

(** Two stores that carry the same representation show the same lists. *)
Lemma rep_size_of_lookup a s j :
  rep a s →
  size_of s j = (λ al, Z.of_nat (length (a_cells al))) <$> (a !! j).
Proof.
  intros Hrep. destruct (a !! j) as [al|] eqn:Haj.
  - by erewrite rep_size_of.
  - assert (objs s !! j = None) as Hnone.
    { destruct (objs s !! j) as [o|] eqn:Ho; [|done].
      destruct (rep_dom _ _ Hrep j) as [al Hal]; [by eexists|congruence]. }
    unfold size_of. by rewrite Hnone.
Qed.

Lemma rep_same_observations a s s' :
  rep a s → rep a s' →
  ∀ j, cells_of s' j = cells_of s j
     ∧ size_of s' j = size_of s j
     ∧ sentinels_of s' j = sentinels_of s j.
Proof.
  intros Hrep Hrep' j.
  rewrite (rep_cells_of_lookup _ _ j Hrep'), (rep_cells_of_lookup _ _ j Hrep).
  rewrite (rep_size_of_lookup _ _ j Hrep'), (rep_size_of_lookup _ _ j Hrep).
  by rewrite (rep_sentinels_of_lookup _ _ j Hrep'), (rep_sentinels_of_lookup _ _ j Hrep).
Qed.

Lemma alist_eta al : AList (a_head al) (a_cells al) (a_tail al) = al.
Proof. by destruct al. Qed.

(** X10. Erasing what insert just returned undoes the insertion: erase hands
    back the position the element was inserted before, every list shows
    the same nodes, values, size and sentinels as before the two calls,
    and the set of allocated nodes is the same. *)
Theorem erase_undoes_insert s i (c1 c2 : list (positive * T)) en v :
  wf s →
  cells_of s i = Some (c1 ++ c2) →
  sjtu.end_ i s = Ok en s →
  Z.of_nat (length (c1 ++ c2)) + 1 < size_t_mod →
  ∃ s1 r s2,
    sjtu.insert i (iter_at i en c2) v s = Ok r s1
    ∧ sjtu.erase i r s1 = Ok (iter_at i en c2) s2
    ∧ wf s2
    ∧ dom (heap s2) = dom (heap s)
    ∧ ∀ j, cells_of s2 j = cells_of s j
         ∧ size_of s2 j = size_of s j
         ∧ sentinels_of s2 j = sentinels_of s j.
Proof.
  intros [a Hrep] Hcs Hen Hroom.
  destruct (rep_cells_of a s i _ Hrep Hcs) as (al & Hal & Hc).
  pose proof (rep_list _ _ Hrep _ _ Hal) as Hl.
  rewrite (iter_at_first_of s i al en c2 Hl Hen).
  destruct (insert_rep_dom a s i al c1 c2 v Hrep Hal Hc)
    as (c & s1 & Hrun & Hrep1 & Hfresh & Hdom1).
  { by rewrite Hc. }
  set (al1 := AList (a_head al) (c1 ++ (c, v) :: c2) (a_tail al)) in *.
  destruct (erase_rep_dom (<[i := al1]> a) s1 i al1 c1 c v c2 Hrep1)
    as (s2 & Hrun2 & Hrep2 & Hdom2); [apply lookup_insert_eq|done|].
  cbn [a_head a_tail al1] in Hrun2, Hrep2.
  rewrite insert_insert_eq, <- Hc, alist_eta, insert_id in Hrep2 by done.
  exists s1, (Iter (Some c) (Some i)), s2.
  split; [done|]. split; [done|]. split; [by exists a|].
  split.
  - rewrite Hdom2, Hdom1. apply not_elem_of_dom in Hfresh. set_solver.
  - by apply (rep_same_observations a).
Qed.

(** X11. pop_back undoes push_back and pop_front undoes push_front: after the
    pair of calls every list shows the same nodes, values, size and
    sentinels as before, and the set of allocated nodes is the same. *)
Theorem pop_undoes_push s i (cs : list (positive * T)) v :
  wf s →
  cells_of s i = Some cs →
  Z.of_nat (length cs) + 1 < size_t_mod →
  ∃ sb sf,
    (run sjtu.push_back i v then sjtu.pop_back i) s = Ok tt sb
    ∧ (run sjtu.push_front i v then sjtu.pop_front i) s = Ok tt sf
    ∧ wf sb ∧ wf sf
    ∧ dom (heap sb) = dom (heap s) ∧ dom (heap sf) = dom (heap s)
    ∧ ∀ j, cells_of sb j = cells_of s j ∧ cells_of sf j = cells_of s j
         ∧ size_of sb j = size_of s j ∧ size_of sf j = size_of s j
         ∧ sentinels_of sb j = sentinels_of s j
         ∧ sentinels_of sf j = sentinels_of s j.
Proof.
  intros [a Hrep] Hcs Hroom.
  destruct (rep_cells_of a s i _ Hrep Hcs) as (al & Hal & <-).
  destruct (push_back_rep_dom a s i al v Hrep Hal Hroom)
    as (c & s1 & Hrun1 & Hrep1 & Hfresh & Hdom1).
  set (al1 := AList (a_head al) (a_cells al ++ [(c, v)]) (a_tail al)) in *.
  destruct (pop_back_rep_dom (<[i := al1]> a) s1 i al1 c v (a_cells al) Hrep1)
    as (s2 & Hrun2 & Hrep2 & Hdom2); [apply lookup_insert_eq|done|].
  cbn [a_head a_tail al1] in Hrep2.
  rewrite insert_insert_eq, alist_eta, insert_id in Hrep2 by done.
  destruct (push_front_rep_dom a s i al v Hrep Hal Hroom)
    as (c' & s3 & Hrun3 & Hrep3 & Hfresh' & Hdom3).
  set (al3 := AList (a_head al) ((c', v) :: a_cells al) (a_tail al)) in *.
  destruct (pop_front_rep_dom (<[i := al3]> a) s3 i al3 c' v (a_cells al) Hrep3)
    as (s4 & Hrun4 & Hrep4 & Hdom4); [apply lookup_insert_eq|done|].
  cbn [a_head a_tail al3] in Hrep4.
  rewrite insert_insert_eq, alist_eta, insert_id in Hrep4 by done.
  exists s2, s4.
  split; [by step_with Hrun1|]. split; [by step_with Hrun3|].
  split; [by exists a|]. split; [by exists a|].
  split.
  { rewrite Hdom2, Hdom1. apply not_elem_of_dom in Hfresh. set_solver. }
  split.
  { rewrite Hdom4, Hdom3. apply not_elem_of_dom in Hfresh'. set_solver. }
  intros j.
  destruct (rep_same_observations a s s2 Hrep Hrep2 j) as (? & ? & ?).
  destruct (rep_same_observations a s s4 Hrep Hrep4 j) as (? & ? & ?).
  done.
Qed.
End Access.

(** The list [5,1,4,2,3] of the worked store, node by node. *)
Definition demo_cells : list (positive * Z) :=
  [(3%positive, 5); (4%positive, 1); (5%positive, 4); (6%positive, 2); (7%positive, 3)].

Lemma demo_state_cells : cells_of demo_state 1%positive = Some demo_cells.
Proof. vm_compute; reflexivity. Qed.

Lemma demo_state_end : sjtu.end_ 1%positive demo_state = Ok demo_end demo_state.
Proof. vm_compute; reflexivity. Qed.

Lemma ctor_makes_empty_list_witness :
  ∃ s', sjtu.ctor 2%positive demo_state = Ok tt s'
      ∧ cells_of s' 2%positive = Some []
      ∧ cells_of s' 1%positive = cells_of demo_state 1%positive.
Proof.
  destruct (ctor_makes_empty_list demo_state 2%positive wf_demo_state)
    as (hd & tl & s' & Hrun & _ & _ & _ & _ & _ & _ & _ & Hcells & _ & _ & _ & _ & Hothers).
  exists s'. split; [exact Hrun|]. split; [exact Hcells|].
  apply Hothers. discriminate.
Defined.

Lemma front_back_access_witness :
  sjtu.front 1%positive demo_state = Ok 3%positive demo_state
  ∧ load_data 3%positive demo_state = Ok 5 demo_state
  ∧ sjtu.back 1%positive demo_state = Ok 7%positive demo_state
  ∧ load_data 7%positive demo_state = Ok 3 demo_state.
Proof.
  destruct (front_back_access demo_state 1%positive demo_cells wf_demo_state
              demo_state_cells) as (_ & Hf & Hb).
  destruct (Hf 3%positive 5 _ eq_refl) as [H1 H2].
  destruct (Hb [(3%positive, 5); (4%positive, 1); (5%positive, 4); (6%positive, 2)]
              7%positive 3 eq_refl) as [H3 H4].
  split; [exact H1|]. split; [exact H2|]. split; [exact H3|exact H4].
Defined.

Lemma begin_end_bracket_witness :
  ∃ b e, sjtu.begin 1%positive demo_state = Ok b demo_state
       ∧ sjtu.end_ 1%positive demo_state = Ok e demo_state
       ∧ iterator.eq b e = false
       ∧ sjtu.size 1%positive demo_state = Ok 5 demo_state.
Proof.
  destruct (begin_end_bracket demo_state 1%positive demo_cells wf_demo_state
              demo_state_cells)
    as (b & e & Hb & He & _ & _ & _ & _ & _ & _ & Heq & _ & _ & Hsz).
  exists b, e. split; [exact Hb|]. split; [exact He|]. split; [exact Heq|exact Hsz].
Defined.

Lemma push_back_appends_witness :
  ∃ s' c, sjtu.push_back 1%positive 9 demo_state = Ok tt s'
        ∧ cells_of s' 1%positive = Some (demo_cells ++ [(c, 9)])
        ∧ sjtu.back 1%positive s' = Ok c s'.
Proof.
  destruct (push_back_appends demo_state 1%positive demo_cells 9 wf_demo_state
              demo_state_cells)
    as (s' & c & Hrun & _ & _ & _ & Hcells & _ & _ & Hback & _).
  - vm_compute; reflexivity.
  - exists s', c. split; [exact Hrun|]. split; [exact Hcells|exact Hback].
Defined.

Lemma push_front_prepends_witness :
  ∃ s' c, sjtu.push_front 1%positive 9 demo_state = Ok tt s'
        ∧ cells_of s' 1%positive = Some ((c, 9) :: demo_cells)
        ∧ sjtu.front 1%positive s' = Ok c s'.
Proof.
  destruct (push_front_prepends demo_state 1%positive demo_cells 9 wf_demo_state
              demo_state_cells)
    as (s' & c & Hrun & _ & _ & _ & Hcells & _ & _ & Hfront & _).
  - vm_compute; reflexivity.
  - exists s', c. split; [exact Hrun|]. split; [exact Hcells|exact Hfront].
Defined.

Lemma pop_front_removes_first_witness :
  ∃ s', sjtu.pop_front 1%positive demo_state = Ok tt s'
      ∧ cells_of s' 1%positive
        = Some [(4%positive, 1); (5%positive, 4); (6%positive, 2); (7%positive, 3)]
      ∧ dom (heap s') = dom (heap demo_state) ∖ {[3%positive]}.
Proof.
  destruct (pop_front_removes_first demo_state 1%positive demo_cells wf_demo_state
              demo_state_cells) as (_ & Hpop).
  destruct (Hpop 3%positive 5 _ eq_refl) as (s' & Hrun & _ & Hcells & _ & _ & Hdom & _).
  exists s'. split; [exact Hrun|]. split; [exact Hcells|exact Hdom].
Defined.

Lemma pop_back_removes_last_witness :
  ∃ s', sjtu.pop_back 1%positive demo_state = Ok tt s'
      ∧ cells_of s' 1%positive
        = Some [(3%positive, 5); (4%positive, 1); (5%positive, 4); (6%positive, 2)]
      ∧ dom (heap s') = dom (heap demo_state) ∖ {[7%positive]}.
Proof.
  destruct (pop_back_removes_last demo_state 1%positive demo_cells wf_demo_state
              demo_state_cells) as (_ & Hpop).
  destruct (Hpop [(3%positive, 5); (4%positive, 1); (5%positive, 4); (6%positive, 2)]
              7%positive 3 eq_refl) as (s' & Hrun & _ & Hcells & _ & _ & Hdom & _).
  exists s'. split; [exact Hrun|]. split; [exact Hcells|exact Hdom].
Defined.

Lemma insert_contract_witness :
  ∃ s' c,
    sjtu.insert 1%positive (Iter (Some 5%positive) (Some 1%positive)) 9 demo_state
    = Ok (Iter (Some c) (Some 1%positive)) s'
    ∧ cells_of s' 1%positive
      = Some ([(3%positive, 5); (4%positive, 1)]
              ++ (c, 9) :: [(5%positive, 4); (6%positive, 2); (7%positive, 3)])
    ∧ iterator.preinc (Iter (Some c) (Some 1%positive)) s'
      = Ok (Iter (Some 5%positive) (Some 1%positive)) s'.
Proof.
  destruct (insert_contract demo_state 1%positive
              [(3%positive, 5); (4%positive, 1)]
              [(5%positive, 4); (6%positive, 2); (7%positive, 3)]
              demo_end (Iter (Some 5%positive) (Some 1%positive)) 9
              wf_demo_state demo_state_cells demo_state_end) as (_ & Hins).
  - vm_compute; reflexivity.
  - destruct (Hins eq_refl) as (s' & c & Hrun & _ & _ & _ & Hcells & _ & _ & _ & Hinc & _).
    exists s', c. split; [exact Hrun|]. split; [exact Hcells|exact Hinc].
Defined.

Lemma insert_at_ends_is_push_witness :
  (run sjtu.insert 1%positive demo_end 9 then ret tt) demo_state
  = sjtu.push_back 1%positive 9 demo_state
  ∧ (run sjtu.insert 1%positive (Iter (Some 3%positive) (Some 1%positive)) 9 then ret tt)
      demo_state
    = sjtu.push_front 1%positive 9 demo_state.
Proof.
  apply (insert_at_ends_is_push demo_state 1%positive
           (Iter (Some 3%positive) (Some 1%positive)) demo_end 9).
  - vm_compute; reflexivity.
  - exact demo_state_end.
Defined.

Lemma erase_undoes_insert_witness :
  ∃ s1 r s2,
    sjtu.insert 1%positive (Iter (Some 5%positive) (Some 1%positive)) 9 demo_state = Ok r s1
    ∧ sjtu.erase 1%positive r s1 = Ok (Iter (Some 5%positive) (Some 1%positive)) s2
    ∧ cells_of s2 1%positive = cells_of demo_state 1%positive.
Proof.
  destruct (erase_undoes_insert demo_state 1%positive
              [(3%positive, 5); (4%positive, 1)]
              [(5%positive, 4); (6%positive, 2); (7%positive, 3)]
              demo_end 9 wf_demo_state demo_state_cells demo_state_end)
    as (s1 & r & s2 & Hins & Her & _ & _ & Hsame).
  - vm_compute; reflexivity.
  - exists s1, r, s2. split; [exact Hins|]. split; [exact Her|].
    exact (proj1 (Hsame 1%positive)).
Defined.

Lemma pop_undoes_push_witness :
  ∃ sb sf,
    (run sjtu.push_back 1%positive 9 then sjtu.pop_back 1%positive) demo_state = Ok tt sb
    ∧ (run sjtu.push_front 1%positive 9 then sjtu.pop_front 1%positive) demo_state
      = Ok tt sf
    ∧ cells_of sb 1%positive = cells_of demo_state 1%positive
    ∧ cells_of sf 1%positive = cells_of demo_state 1%positive.
Proof.
  destruct (pop_undoes_push demo_state 1%positive demo_cells 9 wf_demo_state
              demo_state_cells)
    as (sb & sf & Hb & Hf & _ & _ & _ & _ & Hsame).
  - vm_compute; reflexivity.
  - exists sb, sf. split; [exact Hb|]. split; [exact Hf|].
    destruct (Hsame 1%positive) as (H1 & H2 & _).
    split; [exact H1|exact H2].
Defined.

(** ** Walking a list with iterators *)

(** A client loop: apply [step] (an increment or a decrement) [n] times. *)
Fixpoint iter_n {T} (step : iterator → M T iterator) (n : nat) (it : iterator)
    : M T iterator :=
  match n with
  | O => ret it
  | S n' => let* it' := step it in iter_n step n' it'
  end.

Section Walk.
Context {T : Type}.
Implicit Types (s : state T) (a : gmap positive (@alist T)) (al : @alist T).

Lemma first_of_app_cons (c1 : list (positive * T)) c c2 tl :
  first_of ((c1 ++ [c]) ++ c2) tl ∈ (c1 ++ [c]).*1.
Proof. destruct c1 as [|d c1]; simpl; set_solver. Qed.

Lemma first_of_later (c2 : list (positive * T)) tl : first_of c2 tl ∈ c2.*1 ++ [tl].
Proof. destruct c2 as [|d c2]; simpl; set_solver. Qed.

(** Decrementing the position after an element gives that element. *)
Lemma iter_predec_after s i al c1 p v c2 :
  is_list s i al → a_cells al = c1 ++ (p, v) :: c2 →
  iterator.predec (Iter (Some (first_of c2 (a_tail al))) (Some i)) s
  = Ok (Iter (Some p) (Some i)) s.
Proof.
  intros Hl Hc.
  destruct (is_list_head _ _ _ Hl) as (o & hn & Ho & Hh & Ht & _ & Hn & _ & Hnx).
  assert (first_of c2 (a_tail al) ≠ first_of (a_cells al) (a_tail al)) as Hne.
  { destruct Hl as (? & _ & _ & _ & _ & _ & Hnd & _).
    unfold chain in Hnd. apply NoDup_cons in Hnd as [_ Hnd].
    rewrite Hc, cons_middle, app_assoc in Hnd |- *.
    rewrite fmap_app, <- app_assoc in Hnd.
    apply NoDup_app in Hnd as (_ & Hdisj & _).
    intros Heq. apply (Hdisj (first_of ((c1 ++ [(p, v)]) ++ c2) (a_tail al))).
    - apply first_of_app_cons.
    - rewrite <- Heq. apply first_of_later. }
  assert (∃ nd, heap s !! first_of c2 (a_tail al) = Some nd ∧ prev nd = Some p)
    as (nd & Hnd & Hpv).
  { destruct c2 as [|[q w] r]; cbn [first_of fst].
    - destruct (is_list_tail _ _ _ Hl) as (nt & Hnt & Hpt & _).
      exists nt. split; [done|]. by rewrite Hpt, Hc, last_of_snoc.
    - rewrite cons_middle, app_assoc in Hc.
      destruct (is_list_node s i al _ q w r Hl Hc) as (nq & Hnq & _ & Hpq & _).
      exists nq. split; [done|]. by rewrite Hpq, last_of_snoc. }
  unfold iterator.predec, iterator.at_begin. cbn [current container].
  unfold bind at 1. step_with (load_obj_ok s i o Ho). rewrite Hh.
  step_with (load_node_ok s _ hn Hn). unfold ret at 1.
  unfold ptr_eqb. rewrite Hnx, bool_decide_eq_false_2 by congruence.
  step_with (load_node_ok s _ nd Hnd). by rewrite Hpv.
Qed.

Lemma iter_preinc_end s i al :
  is_list s i al →
  iterator.preinc (Iter (Some (a_tail al)) (Some i)) s = Throw invalid_iterator s.
Proof.
  intros Hl. destruct (is_list_head _ _ _ Hl) as (o & _ & Ho & _ & Ht & _).
  unfold iterator.preinc, iterator.at_end. cbn [current container].
  unfold bind at 1. step_with (load_obj_ok s i o Ho). unfold ret at 1.
  unfold ptr_eqb. by rewrite Ht, bool_decide_eq_true_2.
Qed.

Lemma iter_predec_begin s i al :
  is_list s i al →
  iterator.predec (Iter (Some (first_of (a_cells al) (a_tail al))) (Some i)) s
  = Throw invalid_iterator s.
Proof.
  intros Hl.
  destruct (is_list_head _ _ _ Hl) as (o & hn & Ho & Hh & Ht & _ & Hn & _ & Hnx).
  unfold iterator.predec, iterator.at_begin. cbn [current container].
  unfold bind at 1. step_with (load_obj_ok s i o Ho). rewrite Hh.
  step_with (load_node_ok s _ hn Hn). unfold ret at 1.
  unfold ptr_eqb. by rewrite Hnx, bool_decide_eq_true_2.
Qed.

Lemma postinc_as_preinc s it :
  iterator.postinc it s = outcome_map (λ r, (it, r)) (iterator.preinc it s).
Proof.
  unfold iterator.postinc, iterator.preinc, bind, outcome_map, ret, throw.
  destruct (iterator.at_end it s) as [[] ?| | |]; try done.
  by destruct (load_node (current it) _).
Qed.

Lemma postdec_as_predec s it :
  iterator.postdec it s = outcome_map (λ r, (it, r)) (iterator.predec it s).
Proof.
  unfold iterator.postdec, iterator.predec, bind, outcome_map, ret, throw.
  destruct (iterator.at_begin it s) as [[] ?| | |]; try done.
  by destruct (load_node (current it) _).
Qed.

Lemma lookup_split_cells (cs : list (positive * T)) k c :
  cs !! k = Some c → cs = take k cs ++ c :: drop (S k) cs.
Proof. intros Hk. by rewrite take_drop_middle. Qed.

Lemma iter_at_drop s i al en k p v :
  is_list s i al → sjtu.end_ i s = Ok en s →
  a_cells al !! k = Some (p, v) →
  iter_at i en (drop k (a_cells al)) = Iter (Some p) (Some i).
Proof.
  intros Hl Hen Hk. by rewrite (drop_S _ _ _ Hk).
Qed.

(** One step forward and one step back, between the position of the
    [k]-th element and the position after it. *)
Lemma iter_steps_rep s i al en k p v :
  is_list s i al → sjtu.end_ i s = Ok en s →
  a_cells al !! k = Some (p, v) →
  iterator.preinc (iter_at i en (drop k (a_cells al))) s
  = Ok (iter_at i en (drop (S k) (a_cells al))) s
  ∧ iterator.predec (iter_at i en (drop (S k) (a_cells al))) s
    = Ok (iter_at i en (drop k (a_cells al))) s.
Proof.
  intros Hl Hen Hk.
  rewrite (iter_at_drop s i al en k p v Hl Hen Hk).
  rewrite (iter_at_first_of s i al en _ Hl Hen).
  pose proof (lookup_split_cells _ _ _ Hk) as Hc.
  split.
  - by apply (iter_preinc_node s i al (take k (a_cells al)) p v).
  - by apply (iter_predec_after s i al (take k (a_cells al)) p v).
Qed.

(** X12. At the [k]-th element of a list the iterator dereferences to that
    element; ++ moves it to the next element, or to end() from the last
    one, and -- from there moves it back, so that each undoes the other.
    The postfix forms move the cursor in the same way and return the
    iterator as it was.  None of the operators changes the store. *)
Theorem iterator_steps s i (cs : list (positive * T)) en k p v :
  wf s →
  cells_of s i = Some cs →
  sjtu.end_ i s = Ok en s →
  cs !! k = Some (p, v) →
  let here := iter_at i en (drop k cs) in
  let there := iter_at i en (drop (S k) cs) in
  here = Iter (Some p) (Some i)
  ∧ iterator.deref here s = Ok p s
  ∧ iterator.arrow here s = Ok p s
  ∧ load_data p s = Ok v s
  ∧ iterator.preinc here s = Ok there s
  ∧ iterator.postinc here s = Ok (here, there) s
  ∧ iterator.predec there s = Ok here s
  ∧ iterator.postdec there s = Ok (there, here) s
  ∧ (run iterator.preinc here then iterator.predec there) s = Ok here s.
Proof.
  intros [a Hrep] Hcs Hen Hk here there.
  destruct (rep_cells_of a s i cs Hrep Hcs) as (al & Hal & <-).
  pose proof (rep_list _ _ Hrep _ _ Hal) as Hl.
  destruct (iter_steps_rep s i al en k p v Hl Hen Hk) as [Hinc Hdec].
  fold here there in Hinc, Hdec.
  pose proof (iter_at_drop s i al en k p v Hl Hen Hk) as Hhere. fold here in Hhere.
  pose proof (lookup_split_cells _ _ _ Hk) as Hc.
  split; [done|].
  split; [rewrite Hhere; by eapply (iter_deref_node s i al (take k (a_cells al)) p v)|].
  split; [rewrite Hhere; by eapply (iter_deref_node s i al (take k (a_cells al)) p v)|].
  split; [by eapply (load_data_node s i al (take k (a_cells al)) p v)|].
  split; [done|].
  split; [by rewrite postinc_as_preinc, Hinc|].
  split; [done|].
  split; [by rewrite postdec_as_predec, Hdec|].
  by step_with Hinc.
Qed.

Lemma iter_n_add (step : iterator → M T iterator) n m it s :
  iter_n step (n + m) it s = (let* it' := iter_n step n it in iter_n step m it') s.
Proof.
  revert it s. induction n as [|n IH]; intros it s; [done|].
  cbn [iter_n Nat.add]. unfold bind.
  destruct (step it s) as [it' s'| | |]; [|done..].
  rewrite IH. done.
Qed.

Lemma iter_n_forward s i al en m k :
  is_list s i al → sjtu.end_ i s = Ok en s →
  (m + k ≤ length (a_cells al))%nat →
  iter_n iterator.preinc k (iter_at i en (drop m (a_cells al))) s
  = Ok (iter_at i en (drop (m + k) (a_cells al))) s.
Proof.
  intros Hl Hen. revert m. induction k as [|k IH]; intros m Hle.
  - by rewrite Nat.add_0_r.
  - destruct (lookup_lt_is_Some_2 (a_cells al) m) as [[p v] Hm]; [lia|].
    destruct (iter_steps_rep s i al en m p v Hl Hen Hm) as [Hinc _].
    cbn [iter_n]. step_with Hinc. rewrite IH by lia. do 3 f_equal. lia.
Qed.

Lemma iter_n_backward s i al en m k :
  is_list s i al → sjtu.end_ i s = Ok en s →
  (k ≤ m ≤ length (a_cells al))%nat →
  iter_n iterator.predec k (iter_at i en (drop m (a_cells al))) s
  = Ok (iter_at i en (drop (m - k) (a_cells al))) s.
Proof.
  intros Hl Hen. revert m. induction k as [|k IH]; intros m Hle.
  - by rewrite Nat.sub_0_r.
  - destruct m as [|m]; [lia|].
    destruct (lookup_lt_is_Some_2 (a_cells al) m) as [[p v] Hm]; [lia|].
    destruct (iter_steps_rep s i al en m p v Hl Hen Hm) as [_ Hdec].
    cbn [iter_n]. step_with Hdec. rewrite IH by lia. done.
Qed.

(** X13. Walking forward from begin() with ++ visits the elements in list
    order and arrives at end() after exactly as many steps as the list has
    elements; one more step raises invalid_iterator.  Walking back from
    end() with -- visits them in reverse order, arrives at begin() after
    as many steps, and one more step raises invalid_iterator. *)
Theorem traversal_visits_in_order s i (cs : list (positive * T)) b en :
  wf s →
  cells_of s i = Some cs →
  sjtu.begin i s = Ok b s →
  sjtu.end_ i s = Ok en s →
  (∀ k, (k ≤ length cs)%nat →
     iter_n iterator.preinc k b s = Ok (iter_at i en (drop k cs)) s
     ∧ iter_n iterator.predec k en s = Ok (iter_at i en (drop (length cs - k) cs)) s)
  ∧ iter_n iterator.preinc (length cs) b s = Ok en s
  ∧ iter_n iterator.predec (length cs) en s = Ok b s
  ∧ iter_n iterator.preinc (S (length cs)) b s = Throw invalid_iterator s
  ∧ iter_n iterator.predec (S (length cs)) en s = Throw invalid_iterator s.
Proof.
  intros [a Hrep] Hcs Hb Hen.
  destruct (rep_cells_of a s i cs Hrep Hcs) as (al & Hal & <-).
  pose proof (rep_list _ _ Hrep _ _ Hal) as Hl.
  rewrite (begin_ok s i al Hl) in Hb. injection Hb as <-.
  assert (en = Iter (Some (a_tail al)) (Some i)) as Hen'.
  { destruct (is_list_head _ _ _ Hl) as (o & _ & Ho & _ & Ht & _).
    rewrite (end_ok s i o Ho), Ht in Hen. by injection Hen as <-. }
  assert (Iter (Some (first_of (a_cells al) (a_tail al))) (Some i)
          = iter_at i en (drop 0 (a_cells al))) as Hb0.
  { by rewrite (iter_at_first_of s i al en _ Hl Hen). }
  assert (en = iter_at i en (drop (length (a_cells al)) (a_cells al))) as Hen0.
  { by rewrite drop_all. }
  assert (∀ k, (k ≤ length (a_cells al))%nat →
     iter_n iterator.preinc k
       (Iter (Some (first_of (a_cells al) (a_tail al))) (Some i)) s
     = Ok (iter_at i en (drop k (a_cells al))) s
     ∧ iter_n iterator.predec k en s
       = Ok (iter_at i en (drop (length (a_cells al) - k) (a_cells al))) s) as Hwalk.
  { intros k Hk. split.
    - rewrite Hb0. by rewrite (iter_n_forward s i al en 0 k Hl Hen).
    - rewrite Hen0 at 1. by rewrite (iter_n_backward s i al en _ k Hl Hen). }
  destruct (Hwalk (length (a_cells al))) as [Hf Hbk]; [done|].
  rewrite drop_all in Hf. rewrite Nat.sub_diag in Hbk. rewrite <- Hb0 in Hbk.
  cbn [iter_at] in Hf.
  split; [done|]. split; [done|]. split; [done|].
  split.
  - replace (S (length (a_cells al))) with (length (a_cells al) + 1)%nat by lia.
    rewrite iter_n_add. step_with Hf. cbn [iter_n].
    rewrite Hen'. by rewrite (bind_throw _ _ _ _ _ (iter_preinc_end s i al Hl)).
  - replace (S (length (a_cells al))) with (length (a_cells al) + 1)%nat by lia.
    rewrite iter_n_add. step_with Hbk. cbn [iter_n].
    by rewrite (bind_throw _ _ _ _ _ (iter_predec_begin s i al Hl)).
Qed.

(** X14. A const_iterator behaves as the iterator with the same cursor and
    container: the six operators return the same positions, references
    and errors, and all the mixed forms of == and != agree with the
    iterator's own; every const_iterator is the conversion of an
    iterator. *)
Theorem const_iterator_mirrors_iterator s (it other : iterator) :
  let c := const_iterator.of_iterator in
  const_iterator.preinc (c it) s = outcome_map c (iterator.preinc it s)
  ∧ const_iterator.postinc (c it) s
    = outcome_map (λ r, (c r.1, c r.2)) (iterator.postinc it s)
  ∧ const_iterator.predec (c it) s = outcome_map c (iterator.predec it s)
  ∧ const_iterator.postdec (c it) s
    = outcome_map (λ r, (c r.1, c r.2)) (iterator.postdec it s)
  ∧ const_iterator.deref (c it) s = iterator.deref it s
  ∧ const_iterator.arrow (c it) s = iterator.arrow it s
  ∧ const_iterator.eq (c it) (c other) = iterator.eq it other
  ∧ const_iterator.eq_iter (c it) other = iterator.eq it other
  ∧ iterator.eq_const it (c other) = iterator.eq it other
  ∧ const_iterator.neq (c it) (c other) = iterator.neq it other
  ∧ const_iterator.neq_iter (c it) other = iterator.neq it other
  ∧ iterator.neq_const it (c other) = iterator.neq it other
  ∧ iterator.neq it other = negb (iterator.eq it other)
  ∧ ∀ cit : const_iterator, ∃ it', cit = c it'.
Proof.
  intros c. subst c.
  split; [apply const_preinc_as_iterator|].
  split; [apply const_postinc_as_iterator|].
  split; [apply const_predec_as_iterator|].
  split; [apply const_postdec_as_iterator|].
  split; [apply const_deref_as_iterator|].
  split; [apply const_arrow_as_iterator|].
  do 7 (split; [done|]).
  intros cit. eexists. apply const_iterator_is_view.
Qed.

Lemma cell_in_chain al (c1 : list (positive * T)) p v c2 :
  a_cells al = c1 ++ (p, v) :: c2 → p ∈ chain al.
Proof.
  intros Hc. unfold chain. rewrite Hc, fmap_app, fmap_cons.
  rewrite elem_of_cons, !elem_of_app, elem_of_cons. cbn [fst]. tauto.
Qed.

Lemma tail_in_chain al : a_tail al ∈ chain al.
Proof.
  unfold chain. rewrite elem_of_cons, elem_of_app, list_elem_of_singleton. tauto.
Qed.

(** X15. operator== compares the cursors only, not the containers.  On a
    well-formed store this does not confuse lists: an iterator on an
    element or the end() of one list never equals one of another list, so
    two valid iterators are equal exactly when they are the same
    iterator. *)
Theorem valid_iterators_equal_iff_same s i j (x y : iterator) :
  wf s →
  live s i = true → live s j = true →
  container x = Some i → container y = Some j →
  iter_ok s i x = true → iter_ok s j y = true →
  (iterator.eq x y = true ↔ x = y)
  ∧ (i ≠ j → iterator.eq x y = false).
Proof.
  intros [a Hrep] Hi Hj Hcx Hcy Hx Hy.
  apply bool_decide_eq_true in Hi. apply bool_decide_eq_true in Hj.
  destruct (rep_dom _ _ Hrep i Hi) as [ai Hai].
  destruct (rep_dom _ _ Hrep j Hj) as [aj Haj].
  pose proof (rep_list _ _ Hrep _ _ Hai) as Hli.
  pose proof (rep_list _ _ Hrep _ _ Haj) as Hlj.
  assert (∃ p, x = Iter (Some p) (Some i) ∧ p ∈ chain ai) as (p & -> & Hp).
  { destruct (iter_ok_rep s i ai x Hli Hx Hcx) as [(c1 & p & v & c2 & Hc & ->)| ->].
    - exists p. split; [done|]. by apply (cell_in_chain ai c1 p v c2).
    - exists (a_tail ai). split; [done|]. apply tail_in_chain. }
  assert (∃ q, y = Iter (Some q) (Some j) ∧ q ∈ chain aj) as (q & -> & Hq).
  { destruct (iter_ok_rep s j aj y Hlj Hy Hcy) as [(c1 & q & v & c2 & Hc & ->)| ->].
    - exists q. split; [done|]. by apply (cell_in_chain aj c1 q v c2).
    - exists (a_tail aj). split; [done|]. apply tail_in_chain. }
  assert (i ≠ j → p ≠ q) as Hdisj.
  { intros Hne ->. by apply (rep_disj _ _ Hrep i j ai aj q Hne Hai Haj). }
  unfold iterator.eq, ptr_eqb. cbn [current].
  split.
  - rewrite bool_decide_eq_true. split.
    + intros [= ->]. destruct (decide (i = j)) as [->|Hne]; [done|].
      by destruct (Hdisj Hne).
    + by intros [= -> _].
  - intros Hne. apply bool_decide_eq_false. intros [= Heq]. by apply Hdisj.
Qed.
End Walk.

(** ** clear and the destructor *)

Section Release.
Context {T : Type}.
Implicit Types (s : state T) (a : gmap positive (@alist T)) (al : @alist T).

Lemma clear_rep_dom a s i al fuel :
  rep a s →
  a !! i = Some al →
  (length (a_cells al) < fuel)%nat →
  ∃ s', sjtu.clear fuel i s = Ok tt s'
      ∧ rep (<[i := AList (a_head al) [] (a_tail al)]> a) s'
      ∧ dom (heap s') = dom (heap s) ∖ list_to_set (a_cells al).*1.
Proof.
  revert a s al. induction fuel as [|fuel IH]; intros a s al Hrep Hi Hf; [lia|].
  pose proof (rep_list _ _ Hrep _ _ Hi) as Hl.
  destruct al as [hd cs tl]. cbn [a_head a_cells a_tail] in *.
  destruct cs as [|[p v] cs].
  - exists s. split; [|split].
    + simpl. by step_with (empty_list_throws s i _ Hl eq_refl).
    + by rewrite insert_id.
    + simpl. set_solver.
  - destruct (pop_front_rep_dom a s i _ p v cs Hrep Hi eq_refl) as (s1 & Hpop & Hrep1 & Hd1).
    cbn [a_head a_cells a_tail] in *.
    destruct (IH _ s1 (AList hd cs tl) Hrep1) as (s2 & Hcl & Hrep2 & Hd2).
    { apply lookup_insert_eq. }
    { simpl in *. lia. }
    cbn [a_head a_cells a_tail] in *. rewrite insert_insert_eq in Hrep2.
    exists s2. split; [|split; [done|]].
    + simpl. step_with (nonempty_list s i _ _ _ Hl eq_refl).
      by step_with Hpop.
    + rewrite Hd2, Hd1. rewrite fmap_cons, list_to_set_cons. cbn [fst]. set_solver.
Qed.

Lemma head_in_chain al : a_head al ∈ chain al.
Proof. unfold chain. apply list_elem_of_here. Qed.

Lemma dtor_rep a s i al fuel :
  rep a s →
  a !! i = Some al →
  (length (a_cells al) < fuel)%nat →
  ∃ s', sjtu.dtor fuel i s = Ok tt s'
      ∧ rep (delete i a) s'
      ∧ objs s' = delete i (objs s')
      ∧ dom (heap s') = dom (heap s) ∖ list_to_set (chain al).
Proof.
  intros Hrep Hi Hf.
  destruct (clear_rep_dom a s i al fuel Hrep Hi Hf) as (s1 & Hcl & Hrep1 & Hd1).
  set (al1 := AList (a_head al) [] (a_tail al)) in *.
  assert (<[i := al1]> a !! i = Some al1) as Hi1 by apply lookup_insert_eq.
  pose proof (rep_list _ _ Hrep1 _ _ Hi1) as Hl1.
  destruct (is_list_head _ _ _ Hl1) as (o & hn & Ho & Hh & Ht & _ & Hn & _).
  destruct (is_list_tail _ _ _ Hl1) as (tn & Htn & _).
  cbn [a_head a_tail al1] in Hh, Ht, Hn, Htn.
  assert (a_head al ≠ a_tail al) as Hne.
  { destruct Hl1 as (? & _ & _ & _ & _ & _ & Hnd & _).
    unfold chain, al1 in Hnd. cbn [a_head a_cells a_tail fmap list_fmap app] in Hnd.
    apply NoDup_cons in Hnd as [Hnin _].
    rewrite list_elem_of_singleton in Hnin. done. }
  set (s3 := State (delete (a_tail al) (delete (a_head al) (heap s1)))
                   (delete i (objs s1))).
  exists s3. split; [|split; [|split]].
  - unfold sjtu.dtor. step_with Hcl. step_with (load_obj_ok s1 i o Ho). rewrite Hh.
    unfold bind at 1. unfold delete_node at 1. rewrite Hn.
    unfold bind at 1. unfold load_obj at 1. cbn [objs]. rewrite Ho. rewrite Ht.
    unfold bind at 1. unfold delete_node at 1. cbn [heap objs].
    rewrite lookup_delete_ne by done. rewrite Htn. done.
  - constructor.
    + intros j [o' Hj]. cbn [objs s3] in Hj.
      apply lookup_delete_Some in Hj as [Hji Hj].
      destruct (rep_dom _ _ Hrep1 j) as [aj Haj]; [by eexists|].
      rewrite lookup_insert_ne in Haj by done.
      exists aj. by rewrite lookup_delete_ne.
    + intros j aj Haj. apply lookup_delete_Some in Haj as [Hji Haj].
      assert (<[i := al1]> a !! j = Some aj) as Haj1 by (by rewrite lookup_insert_ne).
      apply (is_list_frame s1 s3 j aj (rep_list _ _ Hrep1 _ _ Haj1)).
      * intros q Hq. cbn [heap s3].
        assert (q ≠ a_head al).
        { intros ->. apply (rep_disj _ _ Hrep1 i j al1 aj (a_head al)); try done.
          apply (head_in_chain al1). }
        assert (q ≠ a_tail al).
        { intros ->. apply (rep_disj _ _ Hrep1 i j al1 aj (a_tail al)); try done.
          apply (tail_in_chain al1). }
        by rewrite !lookup_delete_ne.
      * cbn [objs s3]. by rewrite lookup_delete_ne.
    + intros j k aj ak p Hjk Haj Hak.
      apply lookup_delete_Some in Haj as [_ Haj].
      apply lookup_delete_Some in Hak as [_ Hak].
      by apply (rep_disj _ _ Hrep j k aj ak p).
  - cbn [objs s3]. by rewrite delete_delete_eq.
  - cbn [heap s3]. rewrite !dom_delete_L, Hd1. unfold chain.
    rewrite list_to_set_cons, list_to_set_app_L. simpl. set_solver.
Qed.

(** X16. clear() pops until the list is empty: it releases exactly the nodes
    of the elements and keeps the two sentinels, now linked to each other;
    the list ends with size 0 and the other lists are as before. *)
Theorem clear_releases_elements fuel s i (cs : list (positive * T)) :
  wf s →
  cells_of s i = Some cs →
  (length cs < fuel)%nat →
  ∃ s',
    sjtu.clear fuel i s = Ok tt s'
    ∧ wf s'
    ∧ cells_of s' i = Some []
    ∧ size_of s' i = Some 0
    ∧ sentinels_of s' i = sentinels_of s i
    ∧ sentinels_linked s' i
    ∧ dom (heap s') = dom (heap s) ∖ list_to_set cs.*1
    ∧ (∀ j, j ≠ i → cells_of s' j = cells_of s j).
Proof.
  intros [a Hrep] Hcs Hf.
  destruct (rep_cells_of a s i cs Hrep Hcs) as (al & Hal & <-).
  destruct (clear_rep_dom a s i al fuel Hrep Hal Hf) as (s' & Hrun & Hrep' & Hdom).
  set (al' := AList (a_head al) [] (a_tail al)) in *.
  assert (<[i := al']> a !! i = Some al') as Hal' by apply lookup_insert_eq.
  pose proof (rep_list _ _ Hrep' _ _ Hal') as Hl'.
  exists s'. split; [done|]. split; [by exists (<[i := al']> a)|].
  split; [by apply (is_list_cells_of s' i al')|].
  split; [by apply (is_list_size_of s' i al')|].
  split.
  { rewrite (is_list_sentinels_of s' i al' Hl').
    by rewrite (is_list_sentinels_of s i al (rep_list _ _ Hrep _ _ Hal)). }
  split; [by apply (is_list_empty_linked s' i al')|].
  split; [done|].
  intros j Hj. by apply (rep_others_unchanged a s s' i al').
Qed.

(** X17. The destructor releases every node of the list, the two sentinels
    included, and nothing else; the list is gone, the store is still
    well formed, and the other lists are as before. *)
Theorem dtor_releases_list fuel s i (cs : list (positive * T)) hd tl :
  wf s →
  cells_of s i = Some cs →
  sentinels_of s i = Some (Some hd, Some tl) →
  (length cs < fuel)%nat →
  ∃ s',
    sjtu.dtor fuel i s = Ok tt s'
    ∧ wf s'
    ∧ live s' i = false
    ∧ dom (heap s') = dom (heap s) ∖ ({[hd; tl]} ∪ list_to_set cs.*1)
    ∧ (∀ j, j ≠ i →
         cells_of s' j = cells_of s j
         ∧ size_of s' j = size_of s j
         ∧ sentinels_of s' j = sentinels_of s j).
Proof.
  intros [a Hrep] Hcs Hs Hf.
  destruct (rep_cells_of a s i cs Hrep Hcs) as (al & Hal & <-).
  destruct (rep_sentinels a s i hd tl Hrep Hs al Hal) as [<- <-].
  destruct (dtor_rep a s i al fuel Hrep Hal Hf) as (s' & Hrun & Hrep' & Hobjs & Hdom).
  exists s'. split; [done|]. split; [by exists (delete i a)|].
  split.
  { unfold live. apply bool_decide_eq_false. rewrite Hobjs, lookup_delete_eq.
    by intros [? ?]. }
  split.
  { rewrite Hdom. unfold chain. rewrite list_to_set_cons, list_to_set_app_L.
    simpl. set_solver. }
  intros j Hj.
  rewrite (rep_cells_of_lookup _ _ j Hrep'), (rep_cells_of_lookup _ _ j Hrep).
  rewrite (rep_size_of_lookup _ _ j Hrep'), (rep_size_of_lookup _ _ j Hrep).
  rewrite (rep_sentinels_of_lookup _ _ j Hrep'), (rep_sentinels_of_lookup _ _ j Hrep).
  by rewrite lookup_delete_ne.
Qed.
End Release.

(** ** The bulk operations on arbitrary input *)

(** No cell of the list has the value of the cell before it, as
    operator== of the element type sees it. *)
Fixpoint adjacent_differ {T} {E : Elem T} (l : list (positive * T)) : Prop :=
  match l with
  | x :: (y :: _) as r => elt_eq x.2 y.2 = false ∧ adjacent_differ r
  | _ => True
  end.

Section Bulk.
Context {T : Type} {E : Elem T}.
Implicit Types (s : state T) (a : gmap positive (@alist T)) (al : @alist T).

Lemma unique_cells_head x (l : list (positive * T)) :
  ∃ t, unique_cells x l = x :: t.
Proof.
  revert x. induction l as [|y r IH]; intros x; simpl; [by eexists|].
  destruct (elt_eq x.2 y.2); [apply IH|by eexists].
Qed.

Lemma unique_cells_adjacent x (l : list (positive * T)) :
  adjacent_differ (unique_cells x l).
Proof.
  revert x. induction l as [|y r IH]; intros x; simpl; [done|].
  destruct (elt_eq x.2 y.2) eqn:Hxy; [apply IH|].
  pose proof (IH y) as Hy.
  destruct (unique_cells_head y r) as [t Ht]. rewrite Ht in Hy |- *.
  by split.
Qed.

Lemma unique_cells_fixed x (l : list (positive * T)) :
  adjacent_differ (x :: l) → unique_cells x l = x :: l.
Proof.
  revert x. induction l as [|y r IH]; intros x Hadj; [done|].
  destruct Hadj as [Hxy Hadj]. simpl. rewrite Hxy. by rewrite IH.
Qed.

Lemma unique_list_adjacent (l : list (positive * T)) : adjacent_differ (unique_list l).
Proof. destruct l as [|x l]; [done|]. apply unique_cells_adjacent. Qed.

Lemma unique_list_fixed (l : list (positive * T)) :
  adjacent_differ l → unique_list l = l.
Proof. destruct l as [|x l]; [done|]. apply unique_cells_fixed. Qed.

Lemma unique_list_head (l : list (positive * T)) : hd_error (unique_list l) = hd_error l.
Proof.
  destruct l as [|x l]; [done|]. simpl.
  by destruct (unique_cells_head x l) as [t ->].
Qed.

(** X18. merge on lists in any order, sorted or not: every node of the other
    list is moved into this one and none is lost, duplicated, allocated or
    released; the nodes of each list keep their relative order; the other
    list is left empty; merging an empty list, or into an empty list,
    gives the nodes of the non-empty one as they were; third lists are as
    before.  Merging a list into itself does nothing at all. *)
Theorem merge_moves_every_node fuel s i j (cA cB : list (positive * T)) :
  wf s →
  i ≠ j →
  cells_of s i = Some cA →
  cells_of s j = Some cB →
  (length cA + length cB < fuel)%nat →
  Z.of_nat (length cA + length cB) < size_t_mod →
  ∃ s' cM,
    sjtu.merge fuel i j s = Ok tt s'
    ∧ wf s'
    ∧ cells_of s' i = Some cM
    ∧ cells_of s' j = Some []
    ∧ cM ≡ₚ cA ++ cB
    ∧ cA `sublist_of` cM
    ∧ cB `sublist_of` cM
    ∧ (cB = [] → cM = cA)
    ∧ (cA = [] → cM = cB)
    ∧ size_of s' i = Some (Z.of_nat (length cA + length cB))
    ∧ sentinels_of s' i = sentinels_of s i
    ∧ sentinels_of s' j = sentinels_of s j
    ∧ same_data (heap s) (heap s')
    ∧ dom (heap s') = dom (heap s)
    ∧ (∀ k, k ≠ i → k ≠ j → cells_of s' k = cells_of s k)
    ∧ sjtu.merge fuel i i s = Ok tt s.
Proof.
  intros [a Hrep] Hij HcA HcB Hf Hroom.
  destruct (rep_cells_of a s i cA Hrep HcA) as (A & HA & <-).
  destruct (rep_cells_of a s j cB Hrep HcB) as (B & HB & <-).
  destruct (merge_rep fuel a s i j A B Hrep Hij HA HB Hf Hroom)
    as (s' & Hrun & Hrep' & Hsame).
  set (a' := <[i := with_cells A (merge_cells (a_cells A) (a_cells B))]>
               (<[j := with_cells B []]> a)) in *.
  assert (a' !! i = Some (with_cells A (merge_cells (a_cells A) (a_cells B)))) as Hi'
    by apply lookup_insert_eq.
  assert (a' !! j = Some (with_cells B [])) as Hj'.
  { unfold a'. rewrite lookup_insert_ne by done. apply lookup_insert_eq. }
  pose proof (rep_list _ _ Hrep' _ _ Hi') as Hli.
  pose proof (rep_list _ _ Hrep' _ _ Hj') as Hlj.
  exists s', (merge_cells (a_cells A) (a_cells B)).
  split; [done|]. split; [by exists a'|].
  split; [by rewrite (is_list_cells_of s' i _ Hli)|].
  split; [by rewrite (is_list_cells_of s' j _ Hlj)|].
  split; [apply merge_cells_perm|].
  split; [apply merge_cells_sublist_l|].
  split; [apply merge_cells_sublist_r|].
  split; [intros ->; apply merge_cells_nil_r|].
  split; [intros ->; apply merge_cells_nil_l|].
  split.
  { rewrite (is_list_size_of s' i _ Hli). cbn [a_cells with_cells].
    by rewrite merge_cells_length. }
  split.
  { rewrite (is_list_sentinels_of s' i _ Hli).
    by rewrite (is_list_sentinels_of s i A (rep_list _ _ Hrep _ _ HA)). }
  split.
  { rewrite (is_list_sentinels_of s' j _ Hlj).
    by rewrite (is_list_sentinels_of s j B (rep_list _ _ Hrep _ _ HB)). }
  split; [done|]. split; [by apply same_data_dom|].
  split; [|apply merge_self].
  intros k Hki Hkj.
  rewrite (rep_cells_of_lookup _ _ k Hrep'), (rep_cells_of_lookup _ _ k Hrep).
  unfold a'. by rewrite !lookup_insert_ne.
Qed.

(** X19. unique() with any operator==, an equivalence or not: the list keeps
    its first element, what is left is a sub-sequence of the old list in
    the old nodes, and no element that is left equals the one before it.
    A second call then finds nothing to remove. *)
Theorem unique_leaves_no_adjacent_equal fuel s i (cs : list (positive * T)) :
  wf s →
  cells_of s i = Some cs →
  (length cs < fuel)%nat →
  ∃ s1 cs1 s2,
    sjtu.unique fuel i s = Ok tt s1
    ∧ wf s1
    ∧ cells_of s1 i = Some cs1
    ∧ cs1 `sublist_of` cs
    ∧ hd_error cs1 = hd_error cs
    ∧ adjacent_differ cs1
    ∧ (adjacent_differ cs → cs1 = cs)
    ∧ (∀ j, j ≠ i → cells_of s1 j = cells_of s j)
    ∧ sjtu.unique fuel i s1 = Ok tt s2
    ∧ cells_of s2 i = Some cs1
    ∧ size_of s2 i = size_of s1 i.
Proof.
  intros [a Hrep] Hcs Hf.
  destruct (rep_cells_of a s i cs Hrep Hcs) as (al & Hal & <-).
  destruct (unique_rep fuel a s i al Hrep Hal Hf) as (s1 & Hrun & Hrep1).
  set (al1 := with_cells al (unique_list (a_cells al))) in *.
  assert (<[i := al1]> a !! i = Some al1) as Hal1 by apply lookup_insert_eq.
  pose proof (rep_list _ _ Hrep1 _ _ Hal1) as Hl1.
  pose proof (unique_list_sublist (a_cells al)) as Hsub.
  destruct (unique_rep fuel _ s1 i al1 Hrep1 Hal1) as (s2 & Hrun2 & Hrep2).
  { cbn [a_cells al1 with_cells]. apply sublist_length in Hsub. lia. }
  rewrite insert_insert_eq in Hrep2.
  assert (with_cells al1 (unique_list (a_cells al1)) = al1) as Hfix.
  { unfold al1, with_cells. cbn [a_head a_cells a_tail].
    by rewrite (unique_list_fixed _ (unique_list_adjacent _)). }
  rewrite Hfix in Hrep2.
  exists s1, (unique_list (a_cells al)), s2.
  split; [done|]. split; [by exists (<[i := al1]> a)|].
  split; [by rewrite (is_list_cells_of s1 i al1 Hl1)|].
  split; [done|]. split; [apply unique_list_head|].
  split; [apply unique_list_adjacent|].
  split; [apply unique_list_fixed|].
  split.
  { intros j Hj. by apply (rep_others_unchanged a s s1 i al1). }
  split; [done|].
  destruct (rep_same_observations _ s1 s2 Hrep1 Hrep2 i) as (Hc & Hs & _).
  split; [|done]. rewrite Hc. by rewrite (is_list_cells_of s1 i al1 Hl1).
Qed.

(** X20. sort, reverse and unique return at once on a list of at most one
    element: whatever the loop budget, the store is left exactly as it
    was. *)
Theorem short_lists_untouched (S : sorter T) fuel s i n :
  size_of s i = Some n →
  n ≤ 1 →
  sjtu.sort S fuel i s = Ok tt s
  ∧ sjtu.reverse fuel i s = Ok tt s
  ∧ sjtu.unique fuel i s = Ok tt s.
Proof.
  intros Hsz Hn. unfold size_of in Hsz.
  destruct (objs s !! i) as [o|] eqn:Ho; [|done]. injection Hsz as <-.
  assert ((list_size o <=? 1) = true) as Hle by (apply Z.leb_le; lia).
  split; [|split].
  - unfold sjtu.sort. step_with (size_ok s i o Ho). by rewrite Hle.
  - unfold sjtu.reverse. step_with (size_ok s i o Ho). by rewrite Hle.
  - unfold sjtu.unique. step_with (size_ok s i o Ho). by rewrite Hle.
Qed.

(** X21. A sequence of valid calls changes only the lists the calls name: a
    list that no call of the sequence mutates shows the same nodes,
    values, size and sentinels afterwards. *)
Theorem calls_touch_only_their_lists (S : sorter T) (os : list (op T)) s j :
  wf s →
  valid_ops S os s = true →
  Forall (λ o, mutates o j = false) os →
  ∃ s',
    run_ops S os s = Ok tt s'
    ∧ wf s'
    ∧ cells_of s' j = cells_of s j
    ∧ size_of s' j = size_of s j
    ∧ sentinels_of s' j = sentinels_of s j.
Proof.
  intros [a Hrep] Hvalid Hquiet.
  destruct (run_ops_rep S os a s Hrep Hvalid) as (a' & s' & Hrun & Hrep' & Hframe).
  exists s'. split; [done|]. split; [by exists a'|].
  rewrite (rep_cells_of_lookup _ _ j Hrep'), (rep_cells_of_lookup _ _ j Hrep).
  rewrite (rep_size_of_lookup _ _ j Hrep'), (rep_size_of_lookup _ _ j Hrep).
  rewrite (rep_sentinels_of_lookup _ _ j Hrep'), (rep_sentinels_of_lookup _ _ j Hrep).
  by rewrite (Hframe j Hquiet).
Qed.
End Bulk.

(** ** Calls that undo or contain each other *)

Section Compose.
Context {T : Type}.
Implicit Types (h : gmap positive (node T)) (s : state T)
  (a : gmap positive (@alist T)) (al : @alist T).

Lemma swap_links_twice (nd : node T) : swap_links (swap_links nd) = nd.
Proof. by destruct nd. Qed.

Lemma elem_of_rev_iff (q : positive) ps : q ∈ rev ps ↔ q ∈ ps.
Proof. by rewrite <- Permutation_rev. Qed.

Lemma swap_all_twice ps h : NoDup ps → swap_all (rev ps) (swap_all ps h) = h.
Proof.
  intros Hnd. apply map_eq. intros q.
  destruct (decide (q ∈ ps)) as [Hq|Hq].
  - rewrite swap_all_in; [|by rewrite <- Permutation_rev|by rewrite elem_of_rev_iff].
    rewrite swap_all_in by done.
    destruct (h !! q) as [nd|]; [|done]. simpl. by rewrite swap_links_twice.
  - rewrite swap_all_notin by (by rewrite elem_of_rev_iff).
    by rewrite swap_all_notin.
Qed.

(** What reverse leaves of a list with at least two elements. *)
Lemma reverse_run fuel s i al o :
  is_list s i al →
  objs s !! i = Some o →
  (1 < length (a_cells al))%nat →
  (length (a_cells al) + 2 < fuel)%nat →
  sjtu.reverse fuel i s
  = Ok tt (State (swap_all (chain al) (heap s))
                 (<[i := ListObj (tail o) (head o) (list_size o)]> (objs s))).
Proof.
  intros Hl Ho Hlen Hf.
  destruct Hl as (o' & Ho' & Hh & Ht & Hsz & Hlt & Hnd & Hseg & Hval).
  rewrite Ho in Ho'. injection Ho' as <-.
  unfold sjtu.reverse. step_with (size_ok s i o Ho).
  rewrite Hsz. rewrite (proj2 (Z.leb_gt _ _)) by lia.
  step_with (load_obj_ok s i o Ho). rewrite Hh.
  destruct s as [h ob]. cbn [heap objs] in *.
  assert (Some (a_head al) = hd_ptr (chain al) None) as -> by done.
  erewrite bind_ok; cycle 1.
  { eapply reverse_loop_run; [done|done|].
    unfold chain. simpl. rewrite length_app, length_fmap. simpl. lia. }
  cbv beta.
  erewrite bind_ok; [|by apply load_obj_ok]. cbv beta.
  unfold store_obj. cbn [heap objs]. rewrite Hh, Hsz. reflexivity.
Qed.

(** X22. reverse() twice leaves the store exactly as it was: every prev and
    next pointer and the head and tail of the list are back, not only the
    order of the elements. *)
Theorem reverse_twice_restores_store fuel s i (cs : list (positive * T)) :
  wf s →
  cells_of s i = Some cs →
  (length cs + 2 < fuel)%nat →
  ∃ s1,
    sjtu.reverse fuel i s = Ok tt s1
    ∧ cells_of s1 i = Some (rev cs)
    ∧ sjtu.reverse fuel i s1 = Ok tt s.
Proof.
  intros [a Hrep] Hcs Hf.
  destruct (rep_cells_of a s i cs Hrep Hcs) as (al & Hal & <-).
  pose proof (rep_list _ _ Hrep _ _ Hal) as Hl.
  destruct (reverse_rep fuel a s i al Hrep Hal Hf) as (s1 & Hrun & Hrep1 & _).
  assert (<[i := reverse_alist al]> a !! i = Some (reverse_alist al)) as Hal1
    by apply lookup_insert_eq.
  pose proof (rep_list _ _ Hrep1 _ _ Hal1) as Hl1.
  destruct (is_list_head _ _ _ Hl) as (o & _ & Ho & Hh & Ht & Hsz & _).
  exists s1. split; [done|].
  destruct (decide (length (a_cells al) ≤ 1)%nat) as [Hshort|Hlong].
  - assert ((list_size o <=? 1) = true) as Hle by (apply Z.leb_le; lia).
    assert (sjtu.reverse fuel i s = Ok tt s) as Hsame.
    { unfold sjtu.reverse. step_with (size_ok s i o Ho). by rewrite Hle. }
    rewrite Hsame in Hrun. injection Hrun as <-.
    split; [|done]. rewrite Hcs. f_equal.
    destruct (a_cells al) as [|c [|d r]]; [done|done|simpl in Hshort; lia].
  - split.
    { rewrite (is_list_cells_of s1 i _ Hl1). unfold reverse_alist.
      by rewrite bool_decide_eq_false_2. }
    pose proof (reverse_run fuel s i al o Hl Ho ltac:(lia) Hf) as Hrun'.
    assert (s1 = State (swap_all (chain al) (heap s))
                       (<[i := ListObj (tail o) (head o) (list_size o)]> (objs s)))
      as -> by congruence.
    unfold reverse_alist in Hl1. rewrite bool_decide_eq_false_2 in Hl1 by done.
    erewrite (reverse_run fuel _ i _ _ Hl1);
      [|cbn [objs]; apply lookup_insert_eq
       |cbn [a_cells]; rewrite length_rev; lia
       |cbn [a_cells]; rewrite length_rev; lia].
    cbn [heap objs head tail list_size].
    rewrite <- chain_rev, swap_all_twice; cycle 1.
    { by destruct Hl as (? & _ & _ & _ & _ & _ & Hnd & _). }
    rewrite insert_insert_eq.
    assert (ListObj (head o) (tail o) (list_size o) = o) as -> by (by destruct o).
    rewrite insert_id by done. by destruct s.
Qed.

(** X23. The copy constructor is the default constructor followed by an
    assignment from the other list: the two run the same steps and end in
    the same store, or fail in the same way, whatever the store is. *)
Theorem copy_ctor_is_ctor_then_assign fuel s i j :
  i ≠ j →
  (0 < fuel)%nat →
  sjtu.copy_ctor fuel i j s = (run sjtu.ctor i then sjtu.assign fuel i j) s.
Proof.
  intros Hij Hf. destruct (ctor_run s i) as (hd & tl & h' & Hctor & _).
  unfold sjtu.copy_ctor, sjtu.assign. rewrite bool_decide_eq_false_2 by done.
  step_with Hctor. symmetry. step_with Hctor.
  destruct fuel as [|fuel]; [lia|]. cbn [sjtu.clear].
  unfold bind at 1 2.
  erewrite empty_ok; [|cbn [objs]; apply lookup_insert_eq].
  cbn [list_size]. done.
Qed.

(** X24. The two protected helpers: erase(node* ) unlinks a node and counts
    the list down without releasing or changing the node, and
    insert(node*, node* ) links that node back in before the node that
    followed it, after which every list shows the same nodes, values,
    size and sentinels as at the start. *)
Theorem unlink_then_relink s i (c1 c2 : list (positive * T)) p v en :
  wf s →
  cells_of s i = Some (c1 ++ (p, v) :: c2) →
  sjtu.end_ i s = Ok en s →
  ∃ s1 s2,
    sjtu.erase_node i (Some p) s = Ok (Some p) s1
    ∧ wf s1
    ∧ cells_of s1 i = Some (c1 ++ c2)
    ∧ size_of s1 i = Some (Z.of_nat (length (c1 ++ c2)))
    ∧ heap s1 !! p = heap s !! p
    ∧ dom (heap s1) = dom (heap s)
    ∧ sjtu.insert_node i (current (iter_at i en c2)) (Some p) s1 = Ok (Some p) s2
    ∧ wf s2
    ∧ dom (heap s2) = dom (heap s)
    ∧ ∀ j, cells_of s2 j = cells_of s j
         ∧ size_of s2 j = size_of s j
         ∧ sentinels_of s2 j = sentinels_of s j.
Proof.
  intros [a Hrep] Hcs Hen.
  destruct (rep_cells_of a s i _ Hrep Hcs) as (al & Hal & Hc).
  pose proof (rep_list _ _ Hrep _ _ Hal) as Hl.
  rewrite (iter_at_first_of s i al en c2 Hl Hen). cbn [current].
  destruct (erase_node_rep a s i al c1 p v c2 Hrep Hal Hc)
    as (s1 & Her & Hrep1 & Hsame1 & Hfree & Hp1).
  set (al1 := AList (a_head al) (c1 ++ c2) (a_tail al)) in *.
  assert (<[i := al1]> a !! i = Some al1) as Hal1 by apply lookup_insert_eq.
  pose proof (rep_list _ _ Hrep1 _ _ Hal1) as Hl1.
  destruct (is_list_node s i al c1 p v c2 Hl Hc) as (np & Hnp & Hdp & _).
  destruct (insert_node_rep (<[i := al1]> a) s1 i al1 c1 c2 p np v Hrep1 Hal1)
    as (s2 & Hins & Hrep2 & Hsame2); [done|by rewrite Hp1|done|done| |].
  { destruct Hl as (? & _ & _ & _ & _ & Hlt & _). rewrite Hc in Hlt.
    cbn [a_cells al1]. rewrite !length_app in *. cbn [length] in Hlt. lia. }
  cbn [a_head a_tail al1] in Hins, Hrep2.
  rewrite insert_insert_eq, <- Hc, alist_eta, insert_id in Hrep2 by done.
  exists s1, s2. split; [done|]. split; [by exists (<[i := al1]> a)|].
  split; [by rewrite (is_list_cells_of s1 i al1 Hl1)|].
  split; [by rewrite (is_list_size_of s1 i al1 Hl1)|].
  split; [done|]. split; [by apply same_data_dom|].
  split; [done|]. split; [by exists a|].
  split.
  { rewrite (same_data_dom _ _ Hsame2). by apply same_data_dom. }
  by apply (rep_same_observations a).
Qed.
End Compose.

(** ** The worked stores again *)

Lemma demo_state_begin :
  sjtu.begin 1%positive demo_state
  = Ok (Iter (Some 3%positive) (Some 1%positive)) demo_state.
Proof. vm_compute; reflexivity. Qed.

Lemma iterator_steps_witness :
  iterator.preinc (Iter (Some 4%positive) (Some 1%positive)) demo_state
  = Ok (Iter (Some 5%positive) (Some 1%positive)) demo_state
  ∧ iterator.predec (Iter (Some 5%positive) (Some 1%positive)) demo_state
    = Ok (Iter (Some 4%positive) (Some 1%positive)) demo_state
  ∧ load_data 4%positive demo_state = Ok 1 demo_state.
Proof.
  destruct (iterator_steps demo_state 1%positive demo_cells demo_end 1%nat 4%positive 1
              wf_demo_state demo_state_cells demo_state_end eq_refl)
    as (_ & _ & _ & Hv & Hinc & _ & Hdec & _).
  split; [exact Hinc|]. split; [exact Hdec|exact Hv].
Defined.

Lemma traversal_visits_in_order_witness :
  iter_n iterator.preinc 5 (Iter (Some 3%positive) (Some 1%positive)) demo_state
  = Ok demo_end demo_state
  ∧ iter_n iterator.predec 5 demo_end demo_state
    = Ok (Iter (Some 3%positive) (Some 1%positive)) demo_state
  ∧ iter_n iterator.preinc 6 (Iter (Some 3%positive) (Some 1%positive)) demo_state
    = Throw invalid_iterator demo_state.
Proof.
  destruct (traversal_visits_in_order demo_state 1%positive demo_cells
              (Iter (Some 3%positive) (Some 1%positive)) demo_end
              wf_demo_state demo_state_cells demo_state_begin demo_state_end)
    as (_ & Hf & Hb & Hover & _).
  split; [exact Hf|]. split; [exact Hb|exact Hover].
Defined.

Lemma valid_iterators_equal_iff_same_witness :
  iterator.eq (Iter (Some 4%positive) (Some 1%positive))
              (Iter (Some 10%positive) (Some 2%positive)) = false.
Proof.
  destruct (valid_iterators_equal_iff_same pair_state 1%positive 2%positive
              (Iter (Some 4%positive) (Some 1%positive))
              (Iter (Some 10%positive) (Some 2%positive)) wf_pair_state)
    as [_ Hne].
  - vm_compute; reflexivity.
  - vm_compute; reflexivity.
  - reflexivity.
  - reflexivity.
  - vm_compute; reflexivity.
  - vm_compute; reflexivity.
  - apply Hne. discriminate.
Defined.

Lemma clear_releases_elements_witness :
  ∃ s', sjtu.clear 8 1%positive demo_state = Ok tt s'
      ∧ cells_of s' 1%positive = Some []
      ∧ dom (heap s') = dom (heap demo_state) ∖ list_to_set demo_cells.*1.
Proof.
  destruct (clear_releases_elements 8 demo_state 1%positive demo_cells
              wf_demo_state demo_state_cells)
    as (s' & Hrun & _ & Hcells & _ & _ & _ & Hdom & _).
  - simpl; lia.
  - exists s'. split; [exact Hrun|]. split; [exact Hcells|exact Hdom].
Defined.

Lemma dtor_releases_list_witness :
  ∃ s', sjtu.dtor 8 1%positive pair_state = Ok tt s'
      ∧ live s' 1%positive = false
      ∧ cells_of s' 2%positive = cells_of pair_state 2%positive.
Proof.
  destruct (dtor_releases_list 8 pair_state 1%positive
              [(3%positive, 1); (4%positive, 3); (5%positive, 3); (6%positive, 5)]
              1%positive 2%positive wf_pair_state)
    as (s' & Hrun & _ & Hdead & _ & Hothers).
  - vm_compute; reflexivity.
  - vm_compute; reflexivity.
  - simpl; lia.
  - exists s'. split; [exact Hrun|]. split; [exact Hdead|].
    apply (Hothers 2%positive). discriminate.
Defined.

(** [1] holds [3,1] and [2] holds [2,0]: neither is in ascending order. *)
Definition mixed_state : state Z :=
  final (run_ops insertion_sorter
           [Ctor 1%positive; PushBack 1%positive 3; PushBack 1%positive 1;
            Ctor 2%positive; PushBack 2%positive 2; PushBack 2%positive 0]
           empty_state).

Lemma wf_mixed_state : wf mixed_state.
Proof. apply wf_final. vm_compute; reflexivity. Qed.

Lemma merge_moves_every_node_witness :
  ∃ s' cM, sjtu.merge 8 1%positive 2%positive mixed_state = Ok tt s'
         ∧ cells_of s' 1%positive = Some cM
         ∧ cM ≡ₚ [(3%positive, 3); (4%positive, 1)] ++ [(7%positive, 2); (8%positive, 0)]
         ∧ cells_of s' 2%positive = Some [].
Proof.
  destruct (merge_moves_every_node 8 mixed_state 1%positive 2%positive
              [(3%positive, 3); (4%positive, 1)] [(7%positive, 2); (8%positive, 0)]
              wf_mixed_state)
    as (s' & cM & Hrun & _ & Hcells & Hother & Hperm & _).
  - discriminate.
  - vm_compute; reflexivity.
  - vm_compute; reflexivity.
  - simpl; lia.
  - vm_compute; reflexivity.
  - exists s', cM. split; [exact Hrun|]. split; [exact Hcells|].
    split; [exact Hperm|exact Hother].
Defined.

Lemma unique_leaves_no_adjacent_equal_witness :
  ∃ s1 cs1 s2,
    sjtu.unique 8 1%positive runs_state = Ok tt s1
    ∧ cells_of s1 1%positive = Some cs1
    ∧ adjacent_differ cs1
    ∧ sjtu.unique 8 1%positive s1 = Ok tt s2
    ∧ cells_of s2 1%positive = Some cs1.
Proof.
  destruct (unique_leaves_no_adjacent_equal 8 runs_state 1%positive
              [(3%positive, 1); (4%positive, 1); (5%positive, 2); (6%positive, 1);
               (7%positive, 1)] wf_runs_state)
    as (s1 & cs1 & s2 & Hrun & _ & Hcells & _ & _ & Hadj & _ & _ & Hrun2 & Hcells2 & _).
  - vm_compute; reflexivity.
  - simpl; lia.
  - exists s1, cs1, s2. split; [exact Hrun|]. split; [exact Hcells|].
    split; [exact Hadj|]. split; [exact Hrun2|exact Hcells2].
Defined.

Lemma short_lists_untouched_witness :
  sjtu.sort insertion_sorter 0 1%positive blank_state = Ok tt blank_state
  ∧ sjtu.reverse 0 1%positive blank_state = Ok tt blank_state
  ∧ sjtu.unique 0 1%positive blank_state = Ok tt blank_state.
Proof.
  apply (short_lists_untouched insertion_sorter 0 blank_state 1%positive 0).
  - vm_compute; reflexivity.
  - lia.
Defined.

Lemma calls_touch_only_their_lists_witness :
  ∃ s', run_ops insertion_sorter [PushBack 1%positive 9; PopFront 1%positive] pair_state
        = Ok tt s'
      ∧ cells_of s' 2%positive = cells_of pair_state 2%positive.
Proof.
  destruct (calls_touch_only_their_lists insertion_sorter
              [PushBack 1%positive 9; PopFront 1%positive] pair_state 2%positive
              wf_pair_state)
    as (s' & Hrun & _ & Hcells & _).
  - vm_compute; reflexivity.
  - repeat constructor.
  - exists s'. split; [exact Hrun|exact Hcells].
Defined.

Lemma reverse_twice_restores_store_witness :
  ∃ s1, sjtu.reverse 8 1%positive demo_state = Ok tt s1
      ∧ cells_of s1 1%positive = Some (rev demo_cells)
      ∧ sjtu.reverse 8 1%positive s1 = Ok tt demo_state.
Proof.
  apply (reverse_twice_restores_store 8 demo_state 1%positive demo_cells
           wf_demo_state demo_state_cells).
  simpl; lia.
Defined.

Lemma copy_ctor_is_ctor_then_assign_witness :
  sjtu.copy_ctor 8 2%positive 1%positive demo_state
  = (run sjtu.ctor 2%positive then sjtu.assign 8 2%positive 1%positive) demo_state.
Proof.
  apply (copy_ctor_is_ctor_then_assign 8 demo_state 2%positive 1%positive).
  - discriminate.
  - lia.
Defined.

Lemma unlink_then_relink_witness :
  ∃ s1 s2,
    sjtu.erase_node 1%positive (Some 5%positive) demo_state = Ok (Some 5%positive) s1
    ∧ heap s1 !! 5%positive = heap demo_state !! 5%positive
    ∧ sjtu.insert_node 1%positive (Some 6%positive) (Some 5%positive) s1
      = Ok (Some 5%positive) s2
    ∧ cells_of s2 1%positive = cells_of demo_state 1%positive.
Proof.
  destruct (unlink_then_relink demo_state 1%positive
              [(3%positive, 5); (4%positive, 1)] [(6%positive, 2); (7%positive, 3)]
              5%positive 4 demo_end wf_demo_state demo_state_cells demo_state_end)
    as (s1 & s2 & Her & _ & _ & _ & Hp & _ & Hins & _ & _ & Hsame).
  exists s1, s2. split; [exact Her|]. split; [exact Hp|]. split; [exact Hins|].
  exact (proj1 (Hsame 1%positive)).
Defined.

(** ** What the calls never do *)

Section Never.
Context {T : Type} {E : Elem T}.

Lemma readonly_throw {A} e : readonly (@throw T A e).
Proof. by intros s r s'. Qed.

Lemma readonly_undefined {A} : readonly (@undefined T A).
Proof. by intros s r s'. Qed.


Ltac reads :=
  repeat first
    [ apply readonly_ret | apply readonly_throw | apply readonly_undefined
    | apply readonly_load_node | apply readonly_load_obj
    | (apply readonly_bind; [|intros ?])
    | match goal with
      | |- readonly (if ?b then _ else _) => destruct b
      | |- readonly (match ?x with _ => _ end) => destruct x
      end ].


Lemma readonly_load_data p : readonly (@load_data T p).
Proof. unfold load_data. reads. Qed.

Lemma readonly_ref_data p : readonly (@ref_data T p).
Proof. unfold ref_data. reads. Qed.

(** X25. The const member functions and the iterator operators only read:
    whenever one of them returns, the store is as it was.  (When one
    raises, the store is as it was too.) *)
Theorem observers_never_write (i : lid) (it : iterator) (cit : const_iterator)
    (p : positive) :
  readonly (sjtu.size (T := T) i)
  ∧ readonly (sjtu.empty (T := T) i)
  ∧ readonly (sjtu.front (T := T) i)
  ∧ readonly (sjtu.back (T := T) i)
  ∧ readonly (sjtu.begin (T := T) i)
  ∧ readonly (sjtu.end_ (T := T) i)
  ∧ readonly (sjtu.cbegin (T := T) i)
  ∧ readonly (sjtu.cend (T := T) i)
  ∧ readonly (iterator.preinc (T := T) it)
  ∧ readonly (iterator.postinc (T := T) it)
  ∧ readonly (iterator.predec (T := T) it)
  ∧ readonly (iterator.postdec (T := T) it)
  ∧ readonly (iterator.deref (T := T) it)
  ∧ readonly (iterator.arrow (T := T) it)
  ∧ readonly (const_iterator.preinc (T := T) cit)
  ∧ readonly (const_iterator.postinc (T := T) cit)
  ∧ readonly (const_iterator.predec (T := T) cit)
  ∧ readonly (const_iterator.postdec (T := T) cit)
  ∧ readonly (const_iterator.deref (T := T) cit)
  ∧ readonly (const_iterator.arrow (T := T) cit)
  ∧ readonly (load_data (T := T) p).
Proof.
  destruct it as [cur ct], cit as [ccur cct].
  repeat split;
    unfold sjtu.size, sjtu.empty, sjtu.front, sjtu.back, sjtu.begin, sjtu.end_,
      sjtu.cbegin, sjtu.cend,
      iterator.preinc, iterator.postinc, iterator.predec, iterator.postdec,
      iterator.deref, iterator.arrow, iterator.at_end, iterator.at_begin,
      iterator.at_sentinel,
      const_iterator.preinc, const_iterator.postinc, const_iterator.predec,
      const_iterator.postdec, const_iterator.deref, const_iterator.arrow,
      const_iterator.at_end, const_iterator.at_begin, const_iterator.at_sentinel,
      load_data, ref_data;
    cbn [current container ccurrent ccontainer]; reads.
Qed.




End Never.
